(** * patterns.js and render-pattern.js: a shallow embedding

    The pattern library (HatTiling, Rosette, Truchet and the geometry
    helpers they share) and the spawn section of the animation driver,
    written as Rocq functions, with the properties the specification
    states about them.

    Numbers.  A JavaScript number is modelled by an exact rational [Q]:
    every finite double is a rational, and [+], [-], [*], [/] and the
    comparisons are taken without rounding, overflow or NaN.  Integer
    operators ([|], [^], [<<], [>>], [>>>], [&]) act on [Z] with the 32-bit
    wrap-around written out.  The transcendental functions of [Math]
    ([sqrt], [cos], [sin], [atan2], [hypot]) are implementation-approximated
    in JavaScript; they are a parameter ([MathLib]) of every definition that
    calls them.

    Control.  A [for] loop whose exit depends on arithmetic, and the
    recursion of [processCell], take a [fuel] argument and return [None]
    when it runs out; separate lemmas show that enough fuel exists. *)

From Stdlib Require Import ZArith QArith Qround Lia Lqa List Sorted Permutation Bool.
From stdpp Require Import base option list.
Import ListNotations.

Local Open Scope Z_scope.

(** ** JavaScript primitives *)

Module JS.

(** [x | 0] : ToInt32 of an integer-valued number. *)
Definition toInt32 (z : Z) : Z := (z + 2^31) mod 2^32 - 2^31.

(** [x >>> 0] : ToUint32. *)
Definition toUint32 (z : Z) : Z := z mod 2^32.

(** [x << n], [x >> n] (sign-propagating) and [x ^ y] on 32-bit operands. *)
Definition shl32 (x n : Z) : Z := toInt32 (Z.shiftl (toInt32 x) n).
Definition sar32 (x n : Z) : Z := Z.shiftr (toInt32 x) n.
Definition xor32 (x y : Z) : Z := toInt32 (Z.lxor (toInt32 x) (toInt32 y)).

(** [x & y] on 32-bit operands. *)
Definition and32 (x y : Z) : Z := toInt32 (Z.land (toInt32 x) (toInt32 y)).

(** Strict comparison of two numbers, as a boolean. *)
Definition ltb (x y : Q) : bool := negb (Qle_bool y x).
Definition gtb (x y : Q) : bool := ltb y x.

(** [Math.abs]. *)
Definition abs (x : Q) : Q := if ltb x 0 then (- x)%Q else x.

(** Truncation toward zero, and the remainder operator [%] on numbers
    (the result takes the sign of the dividend). *)
Definition trunc (x : Q) : Z := Z.quot (Qnum x) (Z.pos (Qden x)).
Definition rem (x y : Q) : Q := (x - y * inject_Z (trunc (x / y)))%Q.

(** [Math.max] of two numbers. *)
Definition max (x y : Q) : Q := if ltb x y then y else x.

(** [Math.min] of two numbers. *)
Definition min (x y : Q) : Q := if ltb y x then y else x.

(** [Math.imul]. *)
Definition imul (x y : Z) : Z := toInt32 (toInt32 x * toInt32 y).

(** [x >>> n] on a 32-bit operand. *)
Definition shr32 (x n : Z) : Z := Z.shiftr (toUint32 x) n.

(** [Math.floor]. *)
Definition floor (x : Q) : Z := Qfloor x.

(** [arr[k]] for an integer-valued [k]; [None] is [undefined]. *)
Definition index {A : Type} (l : list A) (k : Z) : option A :=
  if (k <? 0)%Z then None else l !! Z.to_nat k.

(** [Math.PI], the double nearest to pi, as the rational it is. *)
Definition PI : Q := 884279719003555 # 281474976710656.

(** The functions of [Math] that are only approximated by an engine. *)
Record MathLib : Type := {
  sqrt  : Q -> Q;
  cos   : Q -> Q;
  sin   : Q -> Q;
  atan2 : Q -> Q -> Q;
  hypot : Q -> Q -> Q
}.

(** *** [Array.prototype.sort] with a comparator

    The sort is stable; with a consistent comparator its result is the
    stable insertion of the elements from left to right: an element goes
    before the first one it compares strictly below. *)
Section Sort.
Context {A : Type} (cmp : A -> A -> Q).

Fixpoint sort_insert (x : A) (l : list A) : list A :=
  match l with
  | [] => [x]
  | y :: l' => if ltb (cmp x y) 0 then x :: y :: l' else y :: sort_insert x l'
  end.

Definition sort (l : list A) : list A :=
  fold_left (fun acc x => sort_insert x acc) l [].
End Sort.

(** *** [for (i = i0; cond(i); i = next(i)) body]

    The body threads a state and may itself run out of fuel. *)
Section Loops.
Context {I S : Type}.

Fixpoint for_loop (fuel : nat) (cond : I -> bool) (next : I -> I)
    (body : I -> S -> option S) (i : I) (s : S) : option S :=
  match fuel with
  | O => None
  | Datatypes.S f =>
      if cond i
      then s' ← body i s; for_loop f cond next body (next i) s'
      else Some s
  end.

(** The values the loop variable takes, in order. *)
Fixpoint loop_indices (fuel : nat) (cond : I -> bool) (next : I -> I)
    (i : I) : option (list I) :=
  match fuel with
  | O => None
  | Datatypes.S f =>
      if cond i
      then l ← loop_indices f cond next (next i); Some (i :: l)
      else Some []
  end.

(** Running a body over a list of indices. *)
Fixpoint run_over (body : I -> S -> option S) (l : list I) (s : S) : option S :=
  match l with
  | [] => Some s
  | i :: l' => s' ← body i s; run_over body l' s'
  end.
End Loops.

End JS.

(** ** Geometry helpers (patterns.js, lines 19-34) *)

Local Open Scope Q_scope.

Module Point.
Record t : Type := mk { x : Q; y : Q }.
End Point.

Definition TWO_PI : Q := JS.PI * 2.

(** [lineIntersect(ax1, ay1, ax2, ay2, bx1, by1, bx2, by2)]; [None] is the
    source's [null]. *)
Definition lineIntersect_denom (ax1 ay1 ax2 ay2 bx1 by1 bx2 by2 : Q) : Q :=
  let bvx := ax2 - ax1 in let bvy := ay2 - ay1 in
  let dvx := bx2 - bx1 in let dvy := by2 - by1 in
  bvx * dvy - bvy * dvx.

Definition tolerance : Q := 1 / 10000000000.

Definition lineIntersect (ax1 ay1 ax2 ay2 bx1 by1 bx2 by2 : Q) : option Point.t :=
  let bvx := ax2 - ax1 in let bvy := ay2 - ay1 in
  let dvx := bx2 - bx1 in let dvy := by2 - by1 in
  let denom := bvx * dvy - bvy * dvx in
  if JS.ltb (JS.abs denom) tolerance then None
  else
    let cx := bx1 - ax1 in let cy := by1 - ay1 in
    let t := (cx * dvy - cy * dvx) / denom in
    Some (Point.mk (ax1 + t * bvx) (ay1 + t * bvy)).

(** [rotPt(x, y, angle)]. *)
Definition rotPt (M : JS.MathLib) (x y angle : Q) : Point.t :=
  let c := JS.cos M angle in let s := JS.sin M angle in
  Point.mk (x * c - y * s) (x * s + y * c).

(** ** Truchet (patterns.js, lines 318-375) *)

Module Truchet.

(** The constructor's three fields. *)
Record t : Type := mk { baseSize : Q; minSize : Q; splitProb : Q }.

(** An arc draw command ([type: 'arc']). *)
Record Arc : Type := mkArc {
  cx : Q; cy : Q; r : Q;
  startAngle : Q; endAngle : Q; ccw : bool;
  midX : Q; midY : Q
}.

Inductive TileType : Type := A | B.

(** What a run of [generate] does besides building [cmds], kept as a log
    for the statements about the order of events: a cell is entered, the
    generator is advanced (with the number [rand] returned), a terminal
    cell pushes its two arcs. *)
Inductive Event : Type :=
  | EvEnter (x y size : Q)
  | EvDraw (u : Q)
  | EvEmit (ty : TileType) (x y size : Q).

(** The closure variables of [generate]: [rng] and [cmds]; [log] is the
    instrumentation above and is never read. *)
Record State : Type := mkState { rng : Z; cmds : list Arc; log : list Event }.

(** One step of the generator:
    [rng ^= rng << 13; rng ^= rng >> 17; rng ^= rng << 5]. *)
Definition xorshift (x : Z) : Z :=
  let x1 := JS.xor32 x (JS.shl32 x 13) in
  let x2 := JS.xor32 x1 (JS.sar32 x1 17) in
  JS.xor32 x2 (JS.shl32 x2 5).

(** The number [rand] returns in state [x]: [(rng >>> 0) / 0xFFFFFFFF]. *)
Definition output (x : Z) : Q := inject_Z (JS.toUint32 x) / 4294967295.

Definition rand (st : State) : Q * State :=
  let x := xorshift (rng st) in
  (output x, mkState x (cmds st) (log st ++ [EvDraw (output x)])).

(** The two arcs of a terminal cell, in push order. *)
Definition tileArcs (ty : TileType) (x y size : Q) : list Arc :=
  let r := size / 2 in
  let midX := x + r in let midY := y + r in
  match ty with
  | A => [ mkArc x (y + size) r (- JS.PI / 2) 0 false midX midY;
           mkArc (x + size) y r (JS.PI / 2) JS.PI false midX midY ]
  | B => [ mkArc x y r 0 (JS.PI / 2) false midX midY;
           mkArc (x + size) (y + size) r JS.PI (3 * JS.PI / 2) false midX midY ]
  end.

(** [rand() < 0.5 ? 'A' : 'B'], from the number drawn. *)
Definition layoutOf (u : Q) : TileType := if JS.ltb u (1 / 2) then A else B.

Section Generate.
Variable T : t.

(** The condition [size > this.minSize && rand() < this.splitProb]:
    [rand] is called only when the left operand holds. *)
Definition splitGuard (size : Q) (st : State) : bool * State :=
  if JS.gtb size (minSize T)
  then let '(u, st') := rand st in (JS.ltb u (splitProb T), st')
  else (false, st).

(** The [else] branch of [processCell]. *)
Definition terminal (x y size : Q) (st : State) : State :=
  let '(u, st') := rand st in
  let ty := layoutOf u in
  mkState (rng st') (cmds st' ++ tileArcs ty x y size)
          (log st' ++ [EvEmit ty x y size]).

Definition enter (x y size : Q) (st : State) : State :=
  mkState (rng st) (cmds st) (log st ++ [EvEnter x y size]).

Fixpoint processCell (fuel : nat) (x y size : Q) (st : State) : option State :=
  match fuel with
  | O => None
  | S f =>
      let '(split, st1) := splitGuard size (enter x y size st) in
      if split then
        let half := size / 2 in
        st2 ← processCell f x y half st1;
        st3 ← processCell f (x + half) y half st2;
        st4 ← processCell f x (y + half) half st3;
        processCell f (x + half) (y + half) half st4
      else Some (terminal x y size st1)
  end.

(** The two grid loops of [generate], from the initial state
    [rng = seed | 0], [cmds = []]. *)
Definition initial (seed : Z) : State := mkState (JS.toInt32 seed) [] [].

Definition cells (fuel : nat) (width height : Q) (seed : Z) : option State :=
  let pad := baseSize T in
  JS.for_loop fuel (fun y => JS.ltb y (height + pad)) (fun y => y + baseSize T)
    (fun y st =>
       JS.for_loop fuel (fun x => JS.ltb x (width + pad)) (fun x => x + baseSize T)
         (fun x st' => processCell fuel x y (baseSize T) st')
         (- pad) st)
    (- pad) (initial seed).

(** The comparator of the final sort. *)
Definition byDistance (M : JS.MathLib) (mx my : Q) (a b : Arc) : Q :=
  JS.hypot M (midX a - mx) (midY a - my) - JS.hypot M (midX b - mx) (midY b - my).

(** [generate(width, height, seed)]: the [cmds] of the returned object. *)
Definition generate (M : JS.MathLib) (fuel : nat) (width height : Q) (seed : Z)
    : option (list Arc) :=
  st ← cells fuel width height seed;
  Some (JS.sort (byDistance M (width / 2) (height / 2)) (cmds st)).
End Generate.

End Truchet.

(** Conversion unfolds the generator last: its body is bit arithmetic that
    only evaluation on a concrete state should enter. *)
Strategy 1000 [Truchet.xorshift Truchet.output].

(** A stand-in for [Math], rational and computable, to run the definitions
    on concrete inputs: every result is cut to six decimals; [sqrt] and
    [hypot] come from an integer square root, the trigonometric functions
    from Taylor polynomials.  No statement depends on its accuracy. *)
Module RefMath.
Definition fix6 (x : Q) : Q := Qred (inject_Z (Qfloor (x * 1000000)) / 1000000).
Definition fixed_sqrt (x : Q) : Q :=
  Qred (inject_Z (Z.sqrt (Qfloor (x * 1000000000000))) / 1000000).
Definition cosT (x : Q) : Q :=
  let x2 := fix6 (x * x) in
  fix6 (1 - x2 / 2 * (1 - x2 / 12 * (1 - x2 / 30 * (1 - x2 / 56 * (1 - x2 / 90))))).
Definition sinT (x : Q) : Q :=
  let x2 := fix6 (x * x) in
  fix6 (x * (1 - x2 / 6 * (1 - x2 / 20 * (1 - x2 / 42 * (1 - x2 / 72 * (1 - x2 / 110)))))).
(** [atan] on [-1, 1] by its series, extended to the plane by quadrant. *)
Definition atanT (x : Q) : Q :=
  let x2 := fix6 (x * x) in
  fix6 (x * (1 - x2 * (1 / 3 - x2 * (1 / 5 - x2 * (1 / 7 - x2 * (1 / 9 - x2 / 11)))))).
Definition atan2T (y x : Q) : Q :=
  if JS.ltb (JS.abs y) (JS.abs x)
  then (if JS.ltb 0 x then atanT (y / x)
        else if JS.ltb y 0 then atanT (y / x) - JS.PI else atanT (y / x) + JS.PI)
  else if JS.ltb 0 y then JS.PI / 2 - atanT (x / y)
  else if JS.ltb y 0 then - JS.PI / 2 - atanT (x / y)
  else 0.
Definition lib : JS.MathLib :=
  {| JS.sqrt := fixed_sqrt; JS.cos := cosT; JS.sin := sinT;
     JS.atan2 := atan2T;
     JS.hypot := fun x y => fixed_sqrt (x * x + y * y) |}.
End RefMath.


(** ** HatTiling (patterns.js, lines 49-122)

    A result of [None] stands for a run that produces no value: fuel ran
    out, or the source would have thrown on an [undefined] element. *)

Module HatTiling.

Record t : Type := mk { s : Q; orientSeed : Z }.

(** [this._kiteVerts]. *)
Definition kiteVerts : list (Q * Q) :=
  [ (0, 0); (1, 0); (2, 0); (3, 0);
    (3, 1); (2, 1);
    (3, 2); (3, 3); (2, 3);
    (1, 2); (0, 2); (0, 1); (0, 0) ].

(** [this._orientations]: [mirrorX] and the number of 60-degree steps. *)
Definition orientations : list (bool * Z) :=
  [ (false, 0%Z); (false, 1%Z); (false, 2%Z); (false, 3%Z);
    (false, 4%Z); (false, 5%Z); (true, 0%Z); (true, 2%Z) ].

Record Tile : Type := mkTile { poly : list (Q * Q); cx : Q; cy : Q }.

Section Methods.
Variable T : t.
Variable M : JS.MathLib.

Definition kiteToPixel (u v : Q) (flipX : bool) : Q * Q :=
  let s := s T in
  let h := s * JS.sqrt M 3 / 2 in
  let px := u * s + v * (s / 2) in
  let py := v * h in
  let px := if flipX then - px else px in
  (px, py).

Definition tilePoly (cx cy : Q) (orientIdx : Z) : option (list (Q * Q)) :=
  '(flipX, rotSteps) ← JS.index orientations (Z.rem orientIdx 8);
  let angle := inject_Z rotSteps * (JS.PI / 3) in
  Some (map (fun '(u, v) =>
               let '(px, py) := kiteToPixel u v flipX in
               let r := rotPt M px py angle in
               (cx + Point.x r, cy + Point.y r))
            kiteVerts).

Definition orientIndex (col row : Z) : Z :=
  Z.rem (JS.and32 (col * 3 + row * 5 + orientSeed T) 255) 8.

Definition byDistance (mx my : Q) (a b : Tile) : Q :=
  JS.hypot M (cx a - mx) (cy a - my) - JS.hypot M (cx b - mx) (cy b - my).

(** The two placement loops, before the sort. *)
Definition placeTiles (fuel : nat) (width height : Q) : option (list Tile) :=
  let s := s T in
  let h := s * JS.sqrt M 3 / 2 in
  let colStep := s * (9 / 2) in
  let rowStep := h * 3 in
  let pad := JS.max colStep rowStep * 2 in
  JS.for_loop fuel (fun row => JS.ltb (inject_Z row * rowStep) (height + pad)) Z.succ
    (fun row tiles =>
       JS.for_loop fuel (fun col => JS.ltb (inject_Z col * colStep) (width + pad)) Z.succ
         (fun col tiles =>
            let cx := inject_Z col * colStep + inject_Z (Z.rem row 2) * colStep * (1 / 2) in
            let cy := inject_Z row * rowStep in
            let orientIdx := orientIndex col row in
            p ← tilePoly cx cy orientIdx;
            Some (tiles ++ [mkTile p cx cy]))
         (-2)%Z tiles)
    (-2)%Z [].

Definition generateTiles (fuel : nat) (width height : Q) : option (list Tile) :=
  tiles ← placeTiles fuel width height;
  Some (JS.sort (byDistance (width / 2) (height / 2)) tiles).
End Methods.

End HatTiling.

(** ** Rosette (patterns.js, lines 140-307) *)

Module Rosette.

(** The constructor's arguments; [numPetals] is a count, [connectEveryN] an
    integer of either sign. *)
Record t : Type := mk { numPetals : nat; connectEveryN : Z; outerRadius : Q }.

Definition middleRadius (T : t) : Q := outerRadius T * (50 / 100).
Definition innerRadius (T : t) : Q := outerRadius T * (21 / 100).

Record Line : Type := mkLine { x1 : Q; y1 : Q; x2 : Q; y2 : Q }.

(** An element of [diagExt]: the extension segment and its [_tip]. *)
Record Ext : Type := mkExt { line : Line; tip : Point.t }.

Inductive Kind : Type := radial | outer | diagonal | extension.

Inductive Cmd : Type :=
  | Circle (x y r opacity : Q)
  | LineCmd (l : Line) (tip : option Point.t) (kind : Kind) (opacity : Q)
  | Petal (points : list Point.t) (opacity : Q)
  | Diamond (points : list Point.t) (opacity : Q).

Definition maxPhases : nat := 7.

Section Methods.
Variable T : t.
Variable M : JS.MathLib.

Local Abbreviation n := (numPetals T).
Local Abbreviation nQ := (inject_Z (Z.of_nat (numPetals T))).
Local Abbreviation skip := (connectEveryN T).

Definition dRad : Q := TWO_PI / nQ.

(** The [n] points of one circle (the first loop of [build] fills three
    such arrays). *)
Definition circlePts (cx cy rad : Q) : list Point.t :=
  map (fun i : nat =>
         let a := dRad * inject_Z (Z.of_nat i) in
         Point.mk (cx + rad * JS.cos M a) (cy + rad * JS.sin M a))
      (seq 0 n).

Definition outerLinesOf (extPts : list Point.t) : option (list Line) :=
  mapM (fun i : nat =>
          a ← JS.index extPts (Z.of_nat i);
          b ← JS.index extPts (Z.rem (Z.of_nat i + skip) (Z.of_nat n));
          Some (mkLine (Point.x a) (Point.y a) (Point.x b) (Point.y b)))
       (seq 0 n).

Definition radialLinesOf (cx cy : Q) (extPts : list Point.t) : option (list Line) :=
  mapM (fun i : nat =>
          e ← JS.index extPts (Z.of_nat i);
          Some (mkLine cx cy (Point.x e) (Point.y e)))
       (seq 0 n).

Definition diagLinesOf (middlePts innerPts : list Point.t) : option (list Line) :=
  cw ← mapM (fun i : nat =>
               m0 ← JS.index middlePts (Z.of_nat i);
               i1 ← JS.index innerPts (Z.rem (Z.of_nat i + 1) (Z.of_nat n));
               Some (mkLine (Point.x m0) (Point.y m0) (Point.x i1) (Point.y i1)))
            (seq 0 n);
  ccw ← mapM (fun i : nat =>
                m1 ← JS.index middlePts (Z.rem (Z.of_nat i + 1) (Z.of_nat n));
                i0 ← JS.index innerPts (Z.of_nat i);
                Some (mkLine (Point.x m1) (Point.y m1) (Point.x i0) (Point.y i0)))
             (seq 0 n);
  Some (cw ++ ccw).

(** [dd < bestDist], where [None] is the initial [Infinity]. *)
Definition closer (dd : Q) (bestDist : option Q) : bool :=
  match bestDist with None => true | Some b => JS.ltb dd b end.

(** One iteration of the extension loop: [None] when [bestPt] stays
    [null] and nothing is pushed. *)
Definition extendDiag (cx cy : Q) (outerLines : list Line) (dl : Line) : option Ext :=
  let d1 := JS.hypot M (x1 dl - cx) (y1 dl - cy) in
  let d2 := JS.hypot M (x2 dl - cx) (y2 dl - cy) in
  let '(tx, ty, nx, ny) :=
    if JS.gtb d1 d2 then (x1 dl, y1 dl, x2 dl, y2 dl)
    else (x2 dl, y2 dl, x1 dl, y1 dl) in
  let best :=
    fold_left
      (fun (acc : option Q * option Point.t) ol =>
         match lineIntersect nx ny tx ty (x1 ol) (y1 ol) (x2 ol) (y2 ol) with
         | None => acc
         | Some pt =>
             let dd := JS.hypot M (Point.x pt - tx) (Point.y pt - ty) in
             if closer dd (fst acc) then (Some dd, Some pt) else acc
         end)
      outerLines (None, None) in
  match snd best with
  | Some p => Some (mkExt (mkLine tx ty (Point.x p) (Point.y p)) p)
  | None => None
  end.

(** The angular distance of direction [a] from [anglePetal], and the
    test the tip loop applies to it. *)
Definition angDelta (a anglePetal : Q) : Q :=
  JS.abs (JS.rem (a - anglePetal + JS.PI * 3) TWO_PI - JS.PI).

Definition tipTolerance : Q := dRad * (6 / 10).

(** The tip loop of one petal: the pair [(tip, tipDist)] after each
    element of [diagExt]. *)
Definition tipStep (cx cy anglePetal : Q) (acc : option Point.t * Q) (ext : Ext)
    : option Point.t * Q :=
  let a := JS.atan2 M (Point.y (tip ext) - cy) (Point.x (tip ext) - cx) in
  let delta := angDelta a anglePetal in
  if JS.ltb delta tipTolerance then
    let dd := JS.hypot M (Point.x (tip ext) - cx) (Point.y (tip ext) - cy) in
    if JS.gtb dd (snd acc) then (Some (tip ext), dd) else acc
  else acc.

Definition pickTip (cx cy anglePetal : Q) (diagExt : list Ext) : option Point.t :=
  fst (fold_left (tipStep cx cy anglePetal) diagExt (None, 0)).

(** One iteration of the petal loop: [Some None] is [continue]. *)
Definition petalAt (cx cy : Q) (middlePts : list Point.t) (diagLines : list Line)
    (diagExt : list Ext) (i : nat) : option (option (list Point.t)) :=
  cwDiag ← JS.index diagLines (Z.of_nat i);
  ccwDiag ← JS.index diagLines (Z.of_nat n + Z.of_nat i);
  match lineIntersect (x1 cwDiag) (y1 cwDiag) (x2 cwDiag) (y2 cwDiag)
                      (x1 ccwDiag) (y1 ccwDiag) (x2 ccwDiag) (y2 ccwDiag) with
  | None => Some None
  | Some innerVtx =>
      ml ← JS.index middlePts (Z.of_nat i);
      mr ← JS.index middlePts (Z.rem (Z.of_nat i + 1) (Z.of_nat n));
      let leftOuter := Point.mk (Point.x ml) (Point.y ml) in
      let rightOuter := Point.mk (Point.x mr) (Point.y mr) in
      let anglePetal := dRad * (inject_Z (Z.of_nat i) + 1 / 2) in
      let pts := [innerVtx; leftOuter] in
      let pts := match pickTip cx cy anglePetal diagExt with
                 | Some tp => pts ++ [tp]
                 | None => pts
                 end in
      Some (Some (pts ++ [rightOuter]))
  end.

Definition petalsOf (cx cy : Q) (middlePts : list Point.t) (diagLines : list Line)
    (diagExt : list Ext) : option (list (list Point.t)) :=
  l ← mapM (petalAt cx cy middlePts diagLines diagExt) (seq 0 n);
  Some (omap id l).

Definition diamondsOf (cx cy : Q) (innerPts : list Point.t) : option (list (list Point.t)) :=
  let IR := innerRadius T in
  mapM (fun i : nat =>
          let a := dRad * inject_Z (Z.of_nat i) in
          top ← JS.index innerPts (Z.of_nat i);
          let left := Point.mk (cx + IR * (55 / 100) * JS.cos M (a - dRad * (1 / 2)))
                               (cy + IR * (55 / 100) * JS.sin M (a - dRad * (1 / 2))) in
          let bottom := Point.mk cx cy in
          let right := Point.mk (cx + IR * (55 / 100) * JS.cos M (a + dRad * (1 / 2)))
                                (cy + IR * (55 / 100) * JS.sin M (a + dRad * (1 / 2))) in
          Some [left; top; right; bottom])
       (seq 0 n).

(** [build(cx, cy)]: the [phases] of the returned object. *)
Definition build (cx cy : Q) : option (list (list Cmd)) :=
  let OR := outerRadius T in
  let MR := middleRadius T in
  let IR := innerRadius T in
  let extPts := circlePts cx cy OR in
  let middlePts := circlePts cx cy MR in
  let innerPts := circlePts cx cy IR in
  outerLines ← outerLinesOf extPts;
  radialLines ← radialLinesOf cx cy extPts;
  diagLines ← diagLinesOf middlePts innerPts;
  let diagExt := omap (extendDiag cx cy outerLines) diagLines in
  petals ← petalsOf cx cy middlePts diagLines diagExt;
  diamonds ← diamondsOf cx cy innerPts;
  Some
    [ [ Circle cx cy OR (6 / 100); Circle cx cy MR (6 / 100); Circle cx cy IR (6 / 100) ];
      map (fun l => LineCmd l None radial (12 / 100)) radialLines;
      map (fun l => LineCmd l None outer (55 / 100)) outerLines;
      map (fun l => LineCmd l None diagonal (35 / 100)) diagLines;
      map (fun e => LineCmd (line e) (Some (tip e)) extension (55 / 100)) diagExt;
      map (fun pts => Petal pts (15 / 100)) petals;
      map (fun pts => Diamond pts (22 / 100)) diamonds ].

(** [rose.phases.forEach((ph, pi) => { if (pi < maxPhases) merged[pi].push(...ph) })],
    from index [pi] on. *)
Fixpoint mergeFrom (pi : nat) (phases merged : list (list Cmd)) : list (list Cmd) :=
  match phases with
  | [] => merged
  | ph :: rest =>
      mergeFrom (S pi) rest
        (if (pi <? maxPhases)%nat then alter (fun l => l ++ ph) pi merged else merged)
  end.

Definition spacing : Q := outerRadius T * (208 / 100).
Definition rowH : Q := spacing * JS.sqrt M 3 / 2.

Definition rowCond (height : Q) (row : Z) : bool :=
  JS.ltb (inject_Z row * rowH) (height + spacing).
Definition colCond (width : Q) (col : Z) : bool :=
  JS.ltb (inject_Z col * spacing) (width + spacing).

(** The centre of the motif at grid position [(row, col)]. *)
Definition centre (row col : Z) : Q * Q :=
  (inject_Z col * spacing + inject_Z (Z.rem row 2) * spacing * (1 / 2),
   inject_Z row * rowH).

(** [tile(width, height)]: the [phases] of the returned object. *)
Definition tile (fuel : nat) (width height : Q) : option (list (list Cmd)) :=
  let merged := replicate maxPhases [] in
  JS.for_loop fuel (rowCond height) Z.succ
    (fun row merged =>
       JS.for_loop fuel (colCond width) Z.succ
         (fun col merged =>
            let '(x, y) := centre row col in
            rose ← build x y;
            Some (mergeFrom 0 rose merged))
         (-1)%Z merged)
    (-1)%Z merged.
End Methods.

End Rosette.

(** ** The animation driver (render-pattern.js) *)

Module Driver.

(** [hash3(a, b, c)] for integer-valued arguments. *)
Definition hash3 (a b c : Z) : Q :=
  let h := JS.xor32 (JS.xor32 (JS.imul (JS.toInt32 a) 2654435761)
                              (JS.imul (JS.toInt32 b) 2246822519))
                    (JS.imul (JS.toInt32 c) 3266489917) in
  let h := JS.imul (JS.xor32 h (JS.shr32 h 16)) 73244475 in
  inject_Z (JS.toUint32 (JS.xor32 h (JS.shr32 h 16))) / 4294967295.

(** [makeRng(seed)]: the initial value of the closure variable [x]
    ([seed | 0 || 1]) and one call of the returned function. *)
Definition makeRng (seed : Z) : Z :=
  let x := JS.toInt32 seed in if (x =? 0)%Z then 1%Z else x.

Definition next (x : Z) : Q * Z :=
  let x1 := JS.xor32 x (JS.shl32 x 13) in
  let x2 := JS.xor32 x1 (JS.sar32 x1 17) in
  let x3 := JS.xor32 x2 (JS.shl32 x2 5) in
  (inject_Z (JS.toUint32 x3) / 4294967295, x3).

Inductive SceneType : Type := hat | rosette | truchet.

Definition SCENE_TYPES : list SceneType := [hat; hat; rosette; truchet].

Definition FADE_FRAMES : Q := 30.
Definition SCENE_FADE : Q := 15 / 1000.

Section Scenes.
(** What a drawable unit carries besides [born] (geometry and style,
    fixed when the scene is built). *)
Variable U : Type.

Record Unit : Type := mkUnit { body : U; born : Z }.

Record Scene : Type := mkScene {
  type : option SceneType;
  tiles : list Unit;
  tilesPerTick : Z;
  holdLimit : Z;
  breatheSpeed : Q;
  spawnIdx : nat;
  done : bool;
  holdAge : Z;
  alpha : Q;
  fadingOut : bool
}.

(** The units of a scene of a given type, from the generator state left
    after the scene-level draws: the styled and sorted output of one
    pattern generator, not modelled here. *)
Variable mkUnits : option SceneType -> Z -> list U.

(** [buildScene()], where [seed] is [Math.floor(Math.random() * 1e9)].
    The draws are, in order: type, breatheSpeed, breatheAmp,
    tilesPerTick, holdLimit; every unit starts with [born: -1]. *)
Definition buildScene (seed : Z) : Scene :=
  let x := makeRng seed in
  let '(u, x) := next x in
  let type := JS.index SCENE_TYPES (JS.floor (u * inject_Z (Z.of_nat (length SCENE_TYPES)))) in
  let '(u, x) := next x in
  let breatheSpeed := 3 / 10 + u * (12 / 10) in
  let '(_, x) := next x in
  let '(u, x) := next x in
  let tilesPerTick := (2 + JS.floor (u * 8))%Z in
  let '(u, x) := next x in
  let holdLimit := (480 + JS.floor (u * 1440))%Z in
  mkScene type (map (fun b => mkUnit b (-1)) (mkUnits type x))
          tilesPerTick holdLimit breatheSpeed
          0 false 0 0 false.

Definition setBorn (frame : Z) (u : Unit) : Unit := mkUnit (body u) frame.

(** The [for] loop of the spawn section with [k] iterations left. *)
Fixpoint spawnLoop (k : nat) (frame : Z) (sc : Scene) : Scene :=
  match k with
  | O => sc
  | S k' =>
      if (length (tiles sc) <=? spawnIdx sc)%nat
      then mkScene (type sc) (tiles sc) (tilesPerTick sc) (holdLimit sc)
                   (breatheSpeed sc) (spawnIdx sc) true (holdAge sc)
                   (alpha sc) (fadingOut sc)
      else spawnLoop k' frame
             (mkScene (type sc) (alter (setBorn frame) (spawnIdx sc) (tiles sc))
                      (tilesPerTick sc) (holdLimit sc) (breatheSpeed sc)
                      (S (spawnIdx sc)) (done sc) (holdAge sc)
                      (alpha sc) (fadingOut sc))
  end.

Record State : Type := mkState {
  scene : option Scene;
  nextScene : option Scene;
  frame : Z
}.

(** [triggerNewScene()]; [seed] feeds the [buildScene] call it may make. *)
Definition triggerNewScene (seed : Z) (d : State) : State :=
  match scene d with
  | Some sc =>
      if negb (fadingOut sc) && negb (bool_decide (is_Some (nextScene d)))
      then mkState
             (Some (mkScene (type sc) (tiles sc) (tilesPerTick sc) (holdLimit sc)
                            (breatheSpeed sc) (spawnIdx sc) (done sc) (holdAge sc)
                            (alpha sc) true))
             (Some (buildScene seed))
             (frame d)
      else d
  | None => d
  end.

(** The cross-fade section of [loop] (lines 250-259). *)
Definition setAlpha (a : Q) (sc : Scene) : Scene :=
  mkScene (type sc) (tiles sc) (tilesPerTick sc) (holdLimit sc)
          (breatheSpeed sc) (spawnIdx sc) (done sc) (holdAge sc) a (fadingOut sc).

Definition crossFade (d : State) : State :=
  match scene d with
  | Some sc =>
      if fadingOut sc then
        let a := JS.max 0 (alpha sc - SCENE_FADE) in
        if Qle_bool a 0
        then mkState (option_map (setAlpha 0) (nextScene d)) None (frame d)
        else mkState (Some (setAlpha a sc)) (nextScene d) (frame d)
      else if JS.ltb (alpha sc) 1
      then mkState (Some (setAlpha (JS.min 1 (alpha sc + SCENE_FADE)) sc))
                   (nextScene d) (frame d)
      else d
  | None => d
  end.

(** The spawn section of [loop] (lines 263-272). *)
Definition spawn (seed : Z) (d : State) : State :=
  match scene d with
  | Some sc =>
      if negb (done sc)
      then mkState (Some (spawnLoop (Z.to_nat (tilesPerTick sc)) (frame d) sc))
                   (nextScene d) (frame d)
      else
        let sc' := mkScene (type sc) (tiles sc) (tilesPerTick sc) (holdLimit sc)
                           (breatheSpeed sc) (spawnIdx sc) (done sc)
                           (holdAge sc + 1)%Z (alpha sc) (fadingOut sc) in
        let d' := mkState (Some sc') (nextScene d) (frame d) in
        if (holdLimit sc' <? holdAge sc')%Z && negb (bool_decide (is_Some (nextScene d)))
        then triggerNewScene seed d'
        else d'
  | None => d
  end.

(** One call of [loop()], up to the drawing, which changes no state. *)
Definition loop (seed : Z) (d : State) : State :=
  let d := mkState (scene d) (nextScene d) (frame d + 1)%Z in
  let d := crossFade d in
  match scene d with
  | None => d
  | Some _ => spawn seed d
  end.

(** The scene a frame works on is replaced by the staged one on this
    call of [loop]. *)
Definition replaced (sc : Scene) : bool :=
  fadingOut sc && Qle_bool (JS.max 0 (alpha sc - SCENE_FADE)) 0.
End Scenes.

Arguments mkUnit {U}.
Arguments body {U}.
Arguments born {U}.
Arguments mkScene {U}.
Arguments type {U}.
Arguments tiles {U}.
Arguments tilesPerTick {U}.
Arguments holdLimit {U}.
Arguments breatheSpeed {U}.
Arguments spawnIdx {U}.
Arguments done {U}.
Arguments holdAge {U}.
Arguments alpha {U}.
Arguments fadingOut {U}.
Arguments mkState {U}.
Arguments scene {U}.
Arguments nextScene {U}.
Arguments frame {U}.
Arguments buildScene {U}.
Arguments setBorn {U}.
Arguments spawnLoop {U}.
Arguments triggerNewScene {U}.
Arguments setAlpha {U}.
Arguments crossFade {U}.
Arguments spawn {U}.
Arguments loop {U}.
Arguments replaced {U}.

End Driver.

(** ** Styling and drawing of a unit (render-pattern.js, lines 60-81 and
    274-286) *)

Module Styling.

(** What [styleUnit] returns. *)
Record Style : Type := mkStyle {
  strokeOpacity : Q;
  lineWidth : Q;
  breathePhase : Q;
  breatheAmpT : Q;
  doFill : bool;
  doStroke : bool;
  fillOpacity : Q;
  doDash : bool;
  dashLen : Q;
  gapLen : Q;
  sortKey : Q;
  born : Z
}.

(** The scene-level arguments of [styleUnit] (the array [SA] of
    [buildScene]); the two seeds are integers. *)
Record Params : Type := mkParams {
  s1 : Z; s2 : Z;
  breatheAmp : Q;
  fillChance : Q; bothChance : Q; dashChance : Q;
  maxDashLen : Q; maxGapLen : Q;
  sortJitter : Q;
  midX : Q; midY : Q
}.

(** [c | 0] for a number [c]: truncation, then the 32-bit wrap. *)
Definition pixel (c : Q) : Z := JS.toInt32 (JS.trunc c).

(** [styleUnit(cx, cy, ...SA)]. *)
Definition styleUnit (M : JS.MathLib) (cx cy : Q) (P : Params) : Style :=
  let bx := pixel cx in
  let by_ := pixel cy in
  let h1 := Driver.hash3 bx by_ (s1 P) in
  let h2 := Driver.hash3 bx by_ (s2 P) in
  let h3 := Driver.hash3 bx by_ (s1 P + 7) in
  let h4 := Driver.hash3 bx by_ (s2 P + 3) in
  let h5 := Driver.hash3 bx by_ (s1 P + 41) in
  let h6 := Driver.hash3 bx by_ (s2 P + 53) in
  let h7 := Driver.hash3 bx by_ (s1 P + 97) in
  let h8 := Driver.hash3 bx by_ (s2 P + 113) in
  let doFill := JS.ltb h5 (fillChance P) in
  mkStyle (12 / 100 + h1 * (52 / 100))
          (25 / 100 + h2 * (160 / 100))
          (h3 * JS.PI * 2)
          (breatheAmp P * (3 / 10 + h4 * (14 / 10)))
          doFill
          (negb doFill || JS.ltb h6 (bothChance P))
          (if doFill then 4 / 100 + h7 * (18 / 100) else 0)
          (negb doFill && JS.ltb h8 (dashChance P))
          (1 + Driver.hash3 (bx + 1) by_ (s1 P) * maxDashLen P)
          (1 + Driver.hash3 bx (by_ + 1) (s2 P) * maxGapLen P)
          (JS.hypot M (cx - midX P) (cy - midY P)
           + (Driver.hash3 bx by_ (s1 P + 99) - 1 / 2) * sortJitter P)
          (-1).

(** The drawing section of [loop]: a unit with [born < 0] is skipped; the
    others fade in over [FADE_FRAMES] frames. *)
Definition isDrawn {U : Type} (u : Driver.Unit U) : bool := negb (Driver.born u <? 0)%Z.

Definition fadeIn (frame born : Z) : Q :=
  let age := inject_Z (frame - born) in
  if JS.ltb age Driver.FADE_FRAMES then age / Driver.FADE_FRAMES else 1.

Definition drawn {U : Type} (sc : Driver.Scene U) : list (Driver.Unit U) :=
  List.filter isDrawn (Driver.tiles sc).

End Styling.

(** ** The page: frames, clicks and resizes (render-pattern.js,
    lines 291-306) *)

Module Page.

(** What can happen after the start: a frame ([loop]), a click
    ([triggerNewScene]) or the delayed part of a resize.  Each carries the
    seed of the [buildScene] call it may make and the unit builder for the
    canvas size of that moment. *)
Inductive Action (U : Type) : Type :=
  | Frame (mkUnits : option Driver.SceneType -> Z -> list U) (seed : Z)
  | Click (mkUnits : option Driver.SceneType -> Z -> list U) (seed : Z)
  | Resize (mkUnits : option Driver.SceneType -> Z -> list U) (seed : Z).

Arguments Frame {U}.
Arguments Click {U}.
Arguments Resize {U}.

(** [scene = buildScene(); nextScene = null; frame = 0]: the start, and
    the resize handler. *)
Definition start {U : Type} (mkUnits : option Driver.SceneType -> Z -> list U) (seed : Z)
    : Driver.State U :=
  Driver.mkState (Some (Driver.buildScene mkUnits seed)) None 0.

Definition act {U : Type} (d : Driver.State U) (a : Action U) : Driver.State U :=
  match a with
  | Frame mk seed => Driver.loop mk seed d
  | Click mk seed => Driver.triggerNewScene mk seed d
  | Resize mk seed => start mk seed
  end.

Definition run {U : Type} (l : list (Action U)) (d : Driver.State U) : Driver.State U :=
  fold_left act l d.

End Page.

(** * Properties *)

(** ** Comparisons, sorting and loops *)

Module JSFacts.

Lemma ltb_lt (x y : Q) : JS.ltb x y = true <-> x < y.
Proof.
  unfold JS.ltb. rewrite negb_true_iff, <- not_true_iff_false, Qle_bool_iff.
  split; [apply Qnot_le_lt | apply Qlt_not_le].
Qed.

Lemma ltb_ge (x y : Q) : JS.ltb x y = false <-> y <= x.
Proof.
  unfold JS.ltb. rewrite negb_false_iff. apply Qle_bool_iff.
Qed.

Lemma gtb_gt (x y : Q) : JS.gtb x y = true <-> y < x.
Proof. apply ltb_lt. Qed.

Lemma gtb_le (x y : Q) : JS.gtb x y = false <-> x <= y.
Proof. apply ltb_ge. Qed.

Lemma abs_nonneg (x : Q) : 0 <= JS.abs x.
Proof.
  unfold JS.abs. destruct (JS.ltb x 0) eqn:E.
  - apply ltb_lt in E. lra.
  - apply ltb_ge in E. exact E.
Qed.

Lemma abs_zero (x : Q) : JS.abs x == 0 -> x == 0.
Proof.
  unfold JS.abs. destruct (JS.ltb x 0) eqn:E; intros H; lra.
Qed.

(** *** The sort: a permutation, ordered by the key of a difference
    comparator, and stable. *)
Section SortFacts.
Context {A : Type} (key : A -> Q).

Let cmp : A -> A -> Q := fun a b => key a - key b.
Let le : A -> A -> Prop := fun a b => key a <= key b.

Lemma sort_insert_perm (c : A -> A -> Q) (x : A) (l : list A) :
  Permutation (JS.sort_insert c x l) (x :: l).
Proof.
  induction l as [|y l IH]; simpl; [reflexivity|].
  destruct (JS.ltb (c x y) 0); [reflexivity|].
  rewrite IH. apply perm_swap.
Qed.

Lemma sort_perm (c : A -> A -> Q) (l : list A) : Permutation (JS.sort c l) l.
Proof.
  unfold JS.sort.
  enough (H : forall acc, Permutation (fold_left (fun a x => JS.sort_insert c x a) l acc)
                                      (acc ++ l)) by apply (H []).
  induction l as [|x l IH]; intros acc; simpl.
  - rewrite app_nil_r. reflexivity.
  - rewrite IH, sort_insert_perm. apply Permutation_middle.
Qed.

Lemma sort_insert_hd (x a : A) (l : list A) :
  le a x -> HdRel le a l -> HdRel le a (JS.sort_insert cmp x l).
Proof.
  intros Hax Hal. destruct l as [|y l]; simpl; [constructor; exact Hax|].
  destruct (JS.ltb (cmp x y) 0); constructor; [exact Hax|].
  inversion Hal; assumption.
Qed.

Lemma sort_insert_sorted (x : A) (l : list A) :
  Sorted le l -> Sorted le (JS.sort_insert cmp x l).
Proof.
  induction 1 as [|y l Hs IH Hhd]; simpl.
  - repeat constructor.
  - destruct (JS.ltb (cmp x y) 0) eqn:E.
    + apply ltb_lt in E. unfold cmp in E.
      constructor; [constructor; assumption|].
      constructor. unfold le. lra.
    + apply ltb_ge in E. unfold cmp in E.
      constructor; [exact IH|].
      apply sort_insert_hd; [unfold le; lra | exact Hhd].
Qed.

Lemma sort_sorted (l : list A) : Sorted le (JS.sort cmp l).
Proof.
  unfold JS.sort.
  enough (H : forall acc, Sorted le acc ->
              Sorted le (fold_left (fun a x => JS.sort_insert cmp x a) l acc))
    by (apply H; constructor).
  induction l as [|x l IH]; intros acc Hacc; simpl; [exact Hacc|].
  apply IH, sort_insert_sorted, Hacc.
Qed.

Lemma le_trans : Relations_1.Transitive le.
Proof. intros a b c; unfold le; intros; lra. Qed.

Lemma sort_strongly_sorted (l : list A) : StronglySorted le (JS.sort cmp l).
Proof. apply Sorted_StronglySorted; [exact le_trans | apply sort_sorted]. Qed.
End SortFacts.

(** *** Loops *)
Section LoopFacts.
Context {I S : Type}.
Implicit Types (cond : I -> bool) (next : I -> I) (body : I -> S -> option S).

(** A loop is its body run over the values of the loop variable. *)
Lemma for_loop_run_over fuel cond next body i s l :
  JS.loop_indices fuel cond next i = Some l ->
  JS.for_loop fuel cond next body i s = JS.run_over body l s.
Proof.
  revert i s l. induction fuel as [|f IH]; intros i s l; simpl; [discriminate|].
  destruct (cond i); [|intros [= <-]; reflexivity].
  destruct (JS.loop_indices f cond next (next i)) as [l'|] eqn:E; simpl; [|discriminate].
  intros [= <-]. simpl. destruct (body i s) as [s'|]; simpl; [|reflexivity].
  apply IH, E.
Qed.

Lemma for_loop_indices fuel cond next body i s r :
  JS.for_loop fuel cond next body i s = Some r ->
  is_Some (JS.loop_indices fuel cond next i).
Proof.
  revert i s. induction fuel as [|f IH]; intros i s; simpl; [discriminate|].
  destruct (cond i); [|eauto].
  destruct (body i s) as [s'|]; simpl; [|discriminate].
  intros H. destruct (IH _ _ H) as [l ->]. simpl. eauto.
Qed.

(** More fuel does not change the values found. *)
Lemma loop_indices_mono fuel fuel' cond next i l :
  (fuel <= fuel')%nat ->
  JS.loop_indices fuel cond next i = Some l ->
  JS.loop_indices fuel' cond next i = Some l.
Proof.
  revert fuel' i l. induction fuel as [|f IH]; intros f' i l Hle; simpl; [discriminate|].
  destruct f' as [|f']; [lia|]. simpl.
  destruct (cond i); [|trivial].
  destruct (JS.loop_indices f cond next (next i)) as [l'|] eqn:E; simpl; [|discriminate].
  intros [= <-]. rewrite (IH f' _ l') by (lia || assumption). reflexivity.
Qed.

(** A loop whose variable decreases a measure comes to its end. *)
Lemma loop_indices_total cond next (m : I -> nat) :
  (forall i, cond i = true -> (m (next i) < m i)%nat) ->
  forall fuel i, (m i < fuel)%nat -> is_Some (JS.loop_indices fuel cond next i).
Proof.
  intros Hm. induction fuel as [|f IH]; intros i Hi; [lia|]. simpl.
  destruct (cond i) eqn:E; [|eauto].
  destruct (IH (next i)) as [l ->]; [specialize (Hm i E); lia|]. simpl. eauto.
Qed.

Lemma for_loop_mono fuel fuel' cond next body body' i s r :
  (fuel <= fuel')%nat ->
  (forall i s r, body i s = Some r -> body' i s = Some r) ->
  JS.for_loop fuel cond next body i s = Some r ->
  JS.for_loop fuel' cond next body' i s = Some r.
Proof.
  intros Hle Hb. revert fuel' Hle i s.
  induction fuel as [|f IH]; intros f' Hle i s; simpl; [discriminate|].
  destruct f' as [|f']; [lia|]. simpl.
  destruct (cond i); [|trivial].
  destruct (body i s) as [s'|] eqn:E; simpl; [|discriminate].
  rewrite (Hb _ _ _ E). simpl. apply IH. lia.
Qed.

(** Two bodies that agree on the states of an invariant give the same
    loop. *)
Lemma for_loop_inv (P : S -> Prop) fuel cond next body i s r :
  (forall i s r, P s -> body i s = Some r -> P r) ->
  P s -> JS.for_loop fuel cond next body i s = Some r -> P r.
Proof.
  intros Hb. revert i s. induction fuel as [|f IH]; intros i s Hs; simpl; [discriminate|].
  destruct (cond i); [|intros [= <-]; exact Hs].
  destruct (body i s) as [s'|] eqn:E; simpl; [|discriminate].
  apply IH. eapply Hb; eauto.
Qed.

Lemma for_loop_ext_inv (P : S -> Prop) fuel cond next body body' i s :
  (forall i s r, P s -> body i s = Some r -> P r) ->
  (forall i s, P s -> body' i s = body i s) ->
  P s -> JS.for_loop fuel cond next body' i s = JS.for_loop fuel cond next body i s.
Proof.
  intros Hb He. revert i s. induction fuel as [|f IH]; intros i s Hs; simpl; [reflexivity|].
  destruct (cond i); [|reflexivity].
  rewrite (He _ _ Hs).
  destruct (body i s) as [s'|] eqn:E; simpl; [|reflexivity].
  apply IH. eapply Hb; eauto.
Qed.

Lemma run_over_app body l1 l2 s :
  JS.run_over body (l1 ++ l2) s = s' ← JS.run_over body l1 s; JS.run_over body l2 s'.
Proof.
  revert s. induction l1 as [|i l1 IH]; intros s; simpl; [reflexivity|].
  destruct (body i s); simpl; [apply IH | reflexivity].
Qed.

Lemma run_over_ext body body' l s :
  (forall i s, body i s = body' i s) -> JS.run_over body l s = JS.run_over body' l s.
Proof.
  intros H. revert s. induction l as [|i l IH]; intros s; simpl; [reflexivity|].
  rewrite H. destruct (body' i s); simpl; [apply IH | reflexivity].
Qed.
End LoopFacts.

(** The loop [for (i = i0; i * step < bound; i++)] over the integers ends
    when [step] is positive. *)
Lemma count_loop_total (step bound : Q) (i0 : Z) :
  0 < step ->
  exists n, forall fuel, (n < fuel)%nat ->
    is_Some (JS.loop_indices fuel (fun i => JS.ltb (inject_Z i * step) bound) Z.succ i0).
Proof.
  intros Hstep.
  set (N := Qceiling (bound / step)).
  exists (Z.to_nat (N - i0)).
  intros fuel Hfuel.
  apply (loop_indices_total _ _ (fun i => Z.to_nat (N - i))); [|exact Hfuel].
  intros i Hi. apply ltb_lt in Hi.
  assert (Hlt : (i < N)%Z).
  { apply Z.lt_nge. intros Hge.
    assert (H1 : bound / step <= inject_Z N) by apply Qle_ceiling.
    assert (H2 : inject_Z N <= inject_Z i) by (rewrite <- Zle_Qle; exact Hge).
    assert (H3 : bound <= inject_Z i * step).
    { apply Qle_trans with (bound / step * step).
      - field_simplify; [lra | lra].
      - apply Qmult_le_compat_r; lra. }
    lra. }
  lia.
Qed.

Lemma ceiling_pred (q q' : Q) :
  q' == q - 1 -> 0 < q -> (Z.to_nat (Qceiling q') < Z.to_nat (Qceiling q))%nat.
Proof.
  intros Hq' Hq.
  pose proof (Qle_ceiling q) as H1.
  pose proof (Qceiling_lt q') as H2.
  pose proof (Qceiling_lt q) as H3.
  pose proof (Qle_ceiling q') as H4.
  unfold Z.sub in H2, H3. rewrite inject_Z_plus, inject_Z_opp in H2, H3.
  change (inject_Z 1) with 1 in H2, H3.
  set (a := inject_Z (Qceiling q')) in *. set (b := inject_Z (Qceiling q)) in *.
  assert (Hab : a < b).
  { apply Qnot_le_lt. intros Hba.
    assert (Hint : b + 1 <= a \/ a == b).
    { unfold a, b.
      destruct (Z.eq_dec (Qceiling q') (Qceiling q)) as [->|Hne]; [right; reflexivity|].
      left. rewrite <- (inject_Z_plus _ 1), <- Zle_Qle.
      assert (Qceiling q <= Qceiling q')%Z by (rewrite Zle_Qle; exact Hba). lia. }
    clearbody a b. destruct Hint; lra. }
  assert (Hb : 0 < b) by (clearbody a b; lra).
  unfold a, b in Hab, Hb. rewrite <- Zlt_Qlt in Hab.
  change 0 with (inject_Z 0) in Hb. rewrite <- Zlt_Qlt in Hb. lia.
Qed.

(** The loop [for (x = x0; x < bound; x += step)] ends when [step] is
    positive. *)
Lemma step_loop_total (step bound x0 : Q) :
  0 < step ->
  exists n, forall fuel, (n < fuel)%nat ->
    is_Some (JS.loop_indices fuel (fun x => JS.ltb x bound) (fun x => x + step) x0).
Proof.
  intros Hstep.
  set (m := fun x : Q => Z.to_nat (Qceiling ((bound - x) / step))).
  exists (m x0).
  intros fuel Hfuel.
  apply (loop_indices_total _ _ m); [|exact Hfuel].
  intros x Hx. apply ltb_lt in Hx. unfold m.
  apply ceiling_pred.
  - field. lra.
  - apply Qlt_shift_div_l; lra.
Qed.

End JSFacts.

(** ** Truchet: what a run does, read off its log *)

Module TruchetFacts.
Import Truchet.

#[local] Arguments xorshift : simpl never.
#[local] Arguments output : simpl never.
#[local] Arguments JS.ltb : simpl never.
#[local] Arguments JS.gtb : simpl never.
#[local] Arguments tileArcs : simpl never.

(** The numbers a log records as drawn, and the arcs its terminal cells
    push. *)
Fixpoint draws (l : list Event) : list Q :=
  match l with
  | [] => []
  | EvDraw u :: l' => u :: draws l'
  | _ :: l' => draws l'
  end.

Fixpoint arcsOf (l : list Event) : list Arc :=
  match l with
  | [] => []
  | EvEmit ty x y size :: l' => tileArcs ty x y size ++ arcsOf l'
  | _ :: l' => arcsOf l'
  end.

(** The first [k] outputs of the generator started in state [g], and its
    state after [k] steps. *)
Fixpoint stream (g : Z) (k : nat) {struct k} : list Q :=
  match k with
  | O => []
  | S k' => output (xorshift g) :: stream (xorshift g) k'
  end.

Fixpoint advance (g : Z) (k : nat) {struct k} : Z :=
  match k with
  | O => g
  | S k' => advance (xorshift g) k'
  end.

(** For each cell entered, the number of outputs consumed between the
    entry and the cell's first action (entering a child or pushing its
    arcs). *)
Fixpoint drawsAfterEntry (l : list Event) : list nat :=
  let fix count (l : list Event) : nat :=
    match l with
    | EvDraw _ :: l' => S (count l')
    | _ => O
    end in
  match l with
  | [] => []
  | EvEnter _ _ _ :: l' => count l' :: drawsAfterEntry l'
  | _ :: l' => drawsAfterEntry l'
  end.

(** The events of one cell, as the order of evaluation in [processCell]
    fixes them; [g] is the generator state on entry, [g'] on exit.
    - A cell larger than [minSize] draws once for the split decision; if
      the draw is below [splitProb] its four quadrants follow, top-left,
      top-right, bottom-left, bottom-right.
    - Otherwise it draws a second time, for the layout, and pushes its arcs.
    - A cell not larger than [minSize] makes no split draw: its only draw
      is the layout's. *)
Inductive CellTrace (T : t) : Z -> Q -> Q -> Q -> list Event -> Z -> Prop :=
  | CT_split g g0 x y size t1 t2 t3 t4 g1 g2 g3 g4 :
      minSize T < size ->
      g0 = xorshift g ->
      output g0 < splitProb T ->
      CellTrace T g0 x y (size / 2) t1 g1 ->
      CellTrace T g1 (x + size / 2) y (size / 2) t2 g2 ->
      CellTrace T g2 x (y + size / 2) (size / 2) t3 g3 ->
      CellTrace T g3 (x + size / 2) (y + size / 2) (size / 2) t4 g4 ->
      CellTrace T g x y size
        (EvEnter x y size :: EvDraw (output g0) :: t1 ++ t2 ++ t3 ++ t4) g4
  | CT_keep g x y size :
      minSize T < size ->
      splitProb T <= output (xorshift g) ->
      CellTrace T g x y size
        [ EvEnter x y size;
          EvDraw (output (xorshift g));
          EvDraw (output (xorshift (xorshift g)));
          EvEmit (layoutOf (output (xorshift (xorshift g)))) x y size ]
        (xorshift (xorshift g))
  | CT_small g x y size :
      size <= minSize T ->
      CellTrace T g x y size
        [ EvEnter x y size;
          EvDraw (output (xorshift g));
          EvEmit (layoutOf (output (xorshift g))) x y size ]
        (xorshift g).

(** The events of a run over a list of top-level cells. *)
Inductive RunTrace (T : t) : Z -> list (Q * Q) -> list Event -> Z -> Prop :=
  | RT_nil g : RunTrace T g [] [] g
  | RT_cons g x y cs tr g1 tr' g2 :
      CellTrace T g x y (baseSize T) tr g1 ->
      RunTrace T g1 cs tr' g2 ->
      RunTrace T g ((x, y) :: cs) (tr ++ tr') g2.

(** The top-level cells in the order the two loops visit them. *)
Definition grid (ys xs : list Q) : list (Q * Q) :=
  flat_map (fun y => map (fun x => (x, y)) xs) ys.

Definition rowsOf (T : t) (fuel : nat) (height : Q) : option (list Q) :=
  JS.loop_indices fuel (fun y => JS.ltb y (height + baseSize T))
                  (fun y => y + baseSize T) (- baseSize T).

Definition colsOf (T : t) (fuel : nat) (width : Q) : option (list Q) :=
  JS.loop_indices fuel (fun x => JS.ltb x (width + baseSize T))
                  (fun x => x + baseSize T) (- baseSize T).

Lemma draws_app l1 l2 : draws (l1 ++ l2) = draws l1 ++ draws l2.
Proof.
  induction l1 as [|[] l1 IH]; simpl; rewrite ?IH; reflexivity.
Qed.

Lemma arcsOf_app l1 l2 : arcsOf (l1 ++ l2) = arcsOf l1 ++ arcsOf l2.
Proof.
  induction l1 as [|[] l1 IH]; simpl; rewrite ?IH, ?app_assoc; reflexivity.
Qed.

Lemma stream_app g k1 k2 :
  stream g (k1 + k2) = stream g k1 ++ stream (advance g k1) k2.
Proof.
  revert g. induction k1 as [|k1 IH]; intros g; simpl; [reflexivity|].
  rewrite IH. reflexivity.
Qed.

Lemma advance_app g k1 k2 : advance g (k1 + k2) = advance (advance g k1) k2.
Proof.
  revert g. induction k1 as [|k1 IH]; intros g; simpl; [reflexivity|apply IH].
Qed.

Lemma tileArcs_length ty x y size : length (tileArcs ty x y size) = 2%nat.
Proof. destruct ty; reflexivity. Qed.

Section Cell.
Variable T : t.

Lemma splitGuard_enter x y size st :
  splitGuard T size (enter x y size st) =
  if JS.gtb size (minSize T)
  then (JS.ltb (output (xorshift (rng st))) (splitProb T),
        mkState (xorshift (rng st)) (cmds st)
                ((log st ++ [EvEnter x y size]) ++ [EvDraw (output (xorshift (rng st)))]))
  else (false, mkState (rng st) (cmds st) (log st ++ [EvEnter x y size])).
Proof. reflexivity. Qed.

Lemma terminal_eq x y size st :
  terminal x y size st =
  mkState (xorshift (rng st))
          (cmds st ++ tileArcs (layoutOf (output (xorshift (rng st)))) x y size)
          ((log st ++ [EvDraw (output (xorshift (rng st)))])
             ++ [EvEmit (layoutOf (output (xorshift (rng st)))) x y size]).
Proof. reflexivity. Qed.

(** [processCell] realises [CellTrace]: the log grows by the cell's
    events and [cmds] by the arcs among them. *)
Lemma processCell_trace fuel x y size st st' :
  processCell T fuel x y size st = Some st' ->
  exists tr, CellTrace T (rng st) x y size tr (rng st')
             /\ log st' = log st ++ tr
             /\ cmds st' = cmds st ++ arcsOf tr.
Proof.
  revert x y size st st'. induction fuel as [|f IH]; intros x y size st st';
    cbn [processCell]; [discriminate|].
  rewrite splitGuard_enter.
  destruct (JS.gtb size (minSize T)) eqn:Hgt.
  - apply JSFacts.gtb_gt in Hgt.
    destruct (JS.ltb (output (xorshift (rng st))) (splitProb T)) eqn:Hsp.
    + apply JSFacts.ltb_lt in Hsp.
      destruct (processCell T f x y (size / 2) _) as [s1|] eqn:E1;
        cbn [mbind option_bind]; [|discriminate].
      destruct (processCell T f (x + size / 2) y (size / 2) s1) as [s2|] eqn:E2;
        cbn [mbind option_bind]; [|discriminate].
      destruct (processCell T f x (y + size / 2) (size / 2) s2) as [s3|] eqn:E3;
        cbn [mbind option_bind]; [|discriminate].
      intros E4.
      apply IH in E1 as (t1 & C1 & L1 & A1).
      apply IH in E2 as (t2 & C2 & L2 & A2).
      apply IH in E3 as (t3 & C3 & L3 & A3).
      apply IH in E4 as (t4 & C4 & L4 & A4).
      cbn [rng cmds log] in C1, L1, A1.
      exists (EvEnter x y size :: EvDraw (output (xorshift (rng st)))
                :: t1 ++ t2 ++ t3 ++ t4).
      split; [eapply CT_split; solve [eassumption | reflexivity]|].
      split.
      * rewrite L4, L3, L2, L1. rewrite <- !app_assoc. reflexivity.
      * rewrite A4, A3, A2, A1. cbn [arcsOf]. rewrite !arcsOf_app, <- !app_assoc.
        reflexivity.
    + apply JSFacts.ltb_ge in Hsp.
      intros [= <-]. rewrite terminal_eq. cbn [rng cmds log].
      exists [ EvEnter x y size; EvDraw (output (xorshift (rng st)));
               EvDraw (output (xorshift (xorshift (rng st))));
               EvEmit (layoutOf (output (xorshift (xorshift (rng st))))) x y size ].
      split; [apply CT_keep; assumption|].
      split; [rewrite <- !app_assoc; reflexivity|].
      cbn [arcsOf]. rewrite app_nil_r. reflexivity.
  - apply JSFacts.gtb_le in Hgt.
    intros [= <-]. rewrite terminal_eq. cbn [rng cmds log].
    exists [ EvEnter x y size; EvDraw (output (xorshift (rng st)));
             EvEmit (layoutOf (output (xorshift (rng st)))) x y size ].
    split; [apply CT_small; assumption|].
    split; [rewrite <- !app_assoc; reflexivity|].
    cbn [arcsOf]. rewrite app_nil_r. reflexivity.
Qed.

(** More fuel gives the same result. *)
Lemma processCell_mono fuel fuel' x y size st st' :
  (fuel <= fuel')%nat ->
  processCell T fuel x y size st = Some st' ->
  processCell T fuel' x y size st = Some st'.
Proof.
  revert fuel' x y size st st'. induction fuel as [|f IH]; intros f' x y size st st' Hle;
    simpl; [discriminate|].
  destruct f' as [|f']; [lia|]. simpl.
  destruct (splitGuard T size (enter x y size st)) as [[] s0]; [|trivial].
  destruct (processCell T f x y (size / 2) s0) as [s1|] eqn:E1; simpl; [|discriminate].
  rewrite (IH f' _ _ _ _ _ ltac:(lia) E1). simpl.
  destruct (processCell T f (x + size / 2) y (size / 2) s1) as [s2|] eqn:E2;
    simpl; [|discriminate].
  rewrite (IH f' _ _ _ _ _ ltac:(lia) E2). simpl.
  destruct (processCell T f x (y + size / 2) (size / 2) s2) as [s3|] eqn:E3;
    simpl; [|discriminate].
  rewrite (IH f' _ _ _ _ _ ltac:(lia) E3). simpl.
  apply IH. lia.
Qed.

(** [size] halved [n] times. *)
Fixpoint halved (n : nat) (size : Q) : Q :=
  match n with
  | O => size
  | S n' => halved n' (size / 2)
  end.

(** The recursion is no deeper than the number of halvings that bring
    the size down to [minSize]. *)
Lemma processCell_total n :
  forall size, halved n size <= minSize T ->
  forall fuel x y st, (n < fuel)%nat -> is_Some (processCell T fuel x y size st).
Proof.
  induction n as [|n IH]; intros size Hn fuel x y st Hfuel;
    (destruct fuel as [|f]; [lia|]); simpl.
  - simpl in Hn. apply JSFacts.gtb_le in Hn. unfold splitGuard. rewrite Hn. eauto.
  - simpl in Hn.
    destruct (splitGuard T size (enter x y size st)) as [[] s0]; [|eauto].
    destruct (IH _ Hn f x y s0 ltac:(lia)) as [s1 ->]. simpl.
    destruct (IH _ Hn f (x + size / 2) y s1 ltac:(lia)) as [s2 ->]. simpl.
    destruct (IH _ Hn f x (y + size / 2) s2 ltac:(lia)) as [s3 ->]. simpl.
    apply IH; [exact Hn | lia].
Qed.
End Cell.

(** *** The generator *)

Lemma xorshift_0 : xorshift 0 = 0%Z.
Proof. reflexivity. Qed.

Lemma output_0 : output 0 == 0.
Proof. reflexivity. Qed.

Lemma CellTrace_stream T g x y size tr g' :
  CellTrace T g x y size tr g' ->
  draws tr = stream g (length (draws tr)) /\ g' = advance g (length (draws tr)).
Proof.
  induction 1 as [g g0 x y size t1 t2 t3 t4 g1 g2 g3 g4 _ Hg0 _
                    _ [D1 G1] _ [D2 G2] _ [D3 G3] _ [D4 G4] | |];
    [|split; reflexivity|split; reflexivity].
  subst g0. simpl. rewrite !draws_app, !length_app.
  set (k1 := length (draws t1)) in *. set (k2 := length (draws t2)) in *.
  set (k3 := length (draws t3)) in *. set (k4 := length (draws t4)) in *.
  rewrite !stream_app, !advance_app, <- G1, <- G2, <- G3, <- G4.
  rewrite <- D1, <- D2, <- D3, <- D4. split; reflexivity.
Qed.

Lemma RunTrace_stream T g cs tr g' :
  RunTrace T g cs tr g' ->
  draws tr = stream g (length (draws tr)) /\ g' = advance g (length (draws tr)).
Proof.
  induction 1 as [|g x y cs tr g1 tr' g2 HC _ [D G]]; [split; reflexivity|].
  apply CellTrace_stream in HC as [D1 G1].
  rewrite draws_app, length_app, stream_app, advance_app, <- G1, <- D1, <- D, <- G.
  split; reflexivity.
Qed.

Lemma RunTrace_app T g cs1 t1 g1 cs2 t2 g2 :
  RunTrace T g cs1 t1 g1 -> RunTrace T g1 cs2 t2 g2 ->
  RunTrace T g (cs1 ++ cs2) (t1 ++ t2) g2.
Proof.
  induction 1 as [|g x y cs tr g1' tr' g2' HC _ IH]; intros H2; simpl; [exact H2|].
  rewrite <- app_assoc. econstructor; [exact HC | apply IH, H2].
Qed.

(** *** The grid loops *)
Section Run.
Variable T : t.

Definition rowBody (fuel : nat) (xs : list Q) (y : Q) (st : State) : option State :=
  JS.run_over (fun x st' => processCell T fuel x y (baseSize T) st') xs st.

Lemma cells_run_over fuel width height seed ys xs :
  rowsOf T fuel height = Some ys ->
  colsOf T fuel width = Some xs ->
  cells T fuel width height seed = JS.run_over (rowBody fuel xs) ys (initial seed).
Proof.
  intros Hy Hx. unfold cells.
  rewrite (JSFacts.for_loop_run_over _ _ _ _ _ _ ys Hy).
  apply JSFacts.run_over_ext. intros y st.
  apply (JSFacts.for_loop_run_over _ _ _ _ _ _ xs Hx).
Qed.

Lemma rowBody_trace fuel xs y st st' :
  rowBody fuel xs y st = Some st' ->
  exists tr, RunTrace T (rng st) (map (fun x => (x, y)) xs) tr (rng st')
             /\ log st' = log st ++ tr
             /\ cmds st' = cmds st ++ arcsOf tr.
Proof.
  unfold rowBody. revert st. induction xs as [|x xs IH]; intros st; simpl.
  - intros [= <-]. exists []. rewrite !app_nil_r. repeat split. constructor.
  - destruct (processCell T fuel x y (baseSize T) st) as [s1|] eqn:E; simpl; [|discriminate].
    intros H. apply processCell_trace in E as (t1 & C1 & L1 & A1).
    apply IH in H as (t2 & C2 & L2 & A2).
    exists (t1 ++ t2). split; [econstructor; eassumption|].
    rewrite L2, L1, A2, A1, arcsOf_app, !app_assoc. split; reflexivity.
Qed.

Lemma rows_trace fuel xs ys st st' :
  JS.run_over (rowBody fuel xs) ys st = Some st' ->
  exists tr, RunTrace T (rng st) (grid ys xs) tr (rng st')
             /\ log st' = log st ++ tr
             /\ cmds st' = cmds st ++ arcsOf tr.
Proof.
  revert st. induction ys as [|y ys IH]; intros st; simpl.
  - intros [= <-]. exists []. rewrite !app_nil_r. repeat split. constructor.
  - destruct (rowBody fuel xs y st) as [s1|] eqn:E; simpl; [|discriminate].
    intros H. apply rowBody_trace in E as (t1 & C1 & L1 & A1).
    apply IH in H as (t2 & C2 & L2 & A2).
    exists (t1 ++ t2). split; [eapply RunTrace_app; eassumption|].
    rewrite L2, L1, A2, A1, arcsOf_app, !app_assoc. split; reflexivity.
Qed.

(** A run of the two loops realises [RunTrace] over the grid, from the
    generator state [seed | 0]. *)
Lemma cells_trace fuel width height seed ys xs st :
  rowsOf T fuel height = Some ys ->
  colsOf T fuel width = Some xs ->
  cells T fuel width height seed = Some st ->
  RunTrace T (JS.toInt32 seed) (grid ys xs) (log st) (rng st)
  /\ cmds st = arcsOf (log st).
Proof.
  intros Hy Hx H. rewrite (cells_run_over _ _ _ _ _ _ Hy Hx) in H.
  apply rows_trace in H as (tr & C & L & A). simpl in *. subst. split; assumption.
Qed.

(** Either no row is visited, or the columns were enumerated. *)
Lemma cells_indices fuel width height seed st :
  cells T fuel width height seed = Some st ->
  exists ys, rowsOf T fuel height = Some ys
             /\ (ys = [] \/ is_Some (colsOf T fuel width)).
Proof.
  intros H. unfold cells in H.
  destruct (JSFacts.for_loop_indices _ _ _ _ _ _ _ H) as [ys Hy].
  exists ys. split; [exact Hy|].
  destruct ys as [|y ys]; [left; reflexivity|right].
  rewrite (JSFacts.for_loop_run_over _ _ _ _ _ _ _ Hy) in H. simpl in H.
  destruct (JS.for_loop fuel _ _ _ _ _) as [s1|] eqn:E in H; [|discriminate].
  eapply JSFacts.for_loop_indices, E.
Qed.

Lemma cells_mono fuel fuel' width height seed st :
  (fuel <= fuel')%nat ->
  cells T fuel width height seed = Some st ->
  cells T fuel' width height seed = Some st.
Proof.
  intros Hle. unfold cells. apply JSFacts.for_loop_mono; [exact Hle|].
  intros y s r. apply JSFacts.for_loop_mono; [exact Hle|].
  intros x s' r'. apply processCell_mono, Hle.
Qed.

Lemma generate_mono M fuel fuel' width height seed r :
  (fuel <= fuel')%nat ->
  generate T M fuel width height seed = Some r ->
  generate T M fuel' width height seed = Some r.
Proof.
  intros Hle. unfold generate.
  destruct (cells T fuel width height seed) as [st|] eqn:E; simpl; [|discriminate].
  rewrite (cells_mono _ _ _ _ _ _ Hle E). trivial.
Qed.
End Run.

(** *** Enough fuel exists *)

Lemma halved_bound (m : Q) (n : nat) :
  0 < m -> forall size, size <= m * (inject_Z (Z.of_nat n) + 1) -> TruchetFacts.halved n size <= m.
Proof.
  intros Hm. induction n as [|n IH]; intros size H; simpl.
  - change (inject_Z (Z.of_nat 0)) with 0 in H. lra.
  - apply IH. rewrite Nat2Z.inj_succ in H. unfold Z.succ in H.
    rewrite inject_Z_plus in H. change (inject_Z 1) with 1 in H.
    set (k := inject_Z (Z.of_nat n)) in *.
    assert (Hk : 0 <= k).
    { unfold k. change 0 with (inject_Z 0). rewrite <- Zle_Qle. lia. }
    assert (Hmk : 0 <= m * k) by (apply Qmult_le_0_compat; lra).
    clearbody k.
    assert (E1 : m * (k + 1 + 1) == m * k + 2 * m) by ring.
    assert (E2 : m * (k + 1) == m * k + m) by ring.
    rewrite E1 in H. rewrite E2.
    set (p := m * k) in *. clearbody p.
    apply Qle_shift_div_r; lra.
Qed.

Lemma depth_exists (m size : Q) :
  0 < m -> exists n, TruchetFacts.halved n size <= m.
Proof.
  intros Hm. exists (Z.to_nat (Qceiling (size / m))).
  apply halved_bound; [exact Hm|].
  pose proof (Qle_ceiling (size / m)) as H1.
  set (c := Qceiling (size / m)) in *.
  assert (H2 : inject_Z c <= inject_Z (Z.of_nat (Z.to_nat c)) + 1).
  { rewrite <- (inject_Z_plus _ 1), <- Zle_Qle. lia. }
  set (k := inject_Z (Z.of_nat (Z.to_nat c)) + 1) in *. clearbody k.
  assert (H3 : size == size / m * m) by (field; lra).
  rewrite H3, (Qmult_comm m k).
  apply Qmult_le_compat_r; lra.
Qed.

Lemma run_over_total {I S : Type} (body : I -> S -> option S) (l : list I) (s : S) :
  (forall i s, is_Some (body i s)) -> is_Some (JS.run_over body l s).
Proof.
  intros Hb. revert s. induction l as [|i l IH]; intros s; simpl; [eauto|].
  destruct (Hb i s) as [s' ->]. simpl. apply IH.
Qed.

Section Total.
Variable T : t.
Hypothesis base_pos : 0 < baseSize T.
Hypothesis min_pos : 0 < minSize T.

(** With positive [baseSize] and [minSize] the two loops and the
    recursion end: from some fuel on, [cells] returns. *)
Lemma cells_total width height seed :
  exists fuel0, forall fuel, (fuel0 <= fuel)%nat ->
    exists ys xs st,
      rowsOf T fuel height = Some ys /\ colsOf T fuel width = Some xs
      /\ cells T fuel width height seed = Some st.
Proof.
  destruct (JSFacts.step_loop_total (baseSize T) (height + baseSize T) (- baseSize T) base_pos)
    as [ny Hy].
  destruct (JSFacts.step_loop_total (baseSize T) (width + baseSize T) (- baseSize T) base_pos)
    as [nx Hx].
  destruct (depth_exists (minSize T) (baseSize T) min_pos) as [nd Hd].
  exists (S (ny + nx + nd)). intros fuel Hfuel.
  destruct (Hy fuel ltac:(lia)) as [ys Eys].
  destruct (Hx fuel ltac:(lia)) as [xs Exs].
  assert (Hsome : is_Some (cells T fuel width height seed)).
  { rewrite (cells_run_over T _ _ _ _ ys xs Eys Exs).
    apply run_over_total. intros y s. apply run_over_total. intros x s'.
    apply (processCell_total T nd); [exact Hd | lia]. }
  destruct Hsome as [st Hst]. exists ys, xs, st. auto.
Qed.

Lemma generate_total M width height seed :
  exists fuel0, forall fuel, (fuel0 <= fuel)%nat ->
    is_Some (generate T M fuel width height seed).
Proof.
  destruct (cells_total width height seed) as [fuel0 H].
  exists fuel0. intros fuel Hfuel.
  destruct (H fuel Hfuel) as (ys & xs & st & _ & _ & E).
  unfold generate. rewrite E. simpl. eauto.
Qed.
End Total.

(** *** Seed 0 *)

(** What every event of a run from generator state 0 looks like. *)
Definition zeroEvent (T : t) (e : Event) : Prop :=
  match e with
  | EvEnter _ _ _ => True
  | EvDraw u => u = output 0
  | EvEmit ty _ _ size => ty = A /\ size <= minSize T
  end.

Lemma CellTrace_zero T g x y size tr g' :
  0 < splitProb T -> CellTrace T g x y size tr g' -> g = 0%Z ->
  g' = 0%Z /\ Forall (zeroEvent T) tr.
Proof.
  intros Hp. induction 1 as [g g0 x y size t1 t2 t3 t4 g1 g2 g3 g4 _ Hg0 _
                               _ IH1 _ IH2 _ IH3 _ IH4 | g x y size _ Hk | g x y size Hs];
    intros ->.
  - rewrite xorshift_0 in Hg0. subst g0.
    destruct (IH1 eq_refl) as [-> F1]. destruct (IH2 eq_refl) as [-> F2].
    destruct (IH3 eq_refl) as [-> F3]. destruct (IH4 eq_refl) as [-> F4].
    split; [reflexivity|].
    constructor; [exact I|]. constructor; [reflexivity|].
    repeat (apply Forall_app; split); assumption.
  - rewrite xorshift_0 in Hk. pose proof output_0. lra.
  - rewrite !xorshift_0. split; [reflexivity|].
    constructor; [exact I|]. constructor; [reflexivity|].
    constructor; [|constructor]. split; [reflexivity | exact Hs].
Qed.

Lemma RunTrace_zero T g cs tr g' :
  0 < splitProb T -> RunTrace T g cs tr g' -> g = 0%Z ->
  g' = 0%Z /\ Forall (zeroEvent T) tr.
Proof.
  intros Hp. induction 1 as [|g x y cs tr g1 tr' g2 HC _ IH]; intros ->.
  - split; [reflexivity | constructor].
  - destruct (CellTrace_zero _ _ _ _ _ _ _ Hp HC eq_refl) as [-> F1].
    destruct (IH eq_refl) as [-> F2].
    split; [reflexivity | apply Forall_app; split; assumption].
Qed.

(** From state 0 the value of a positive [splitProb] does not matter. *)
Lemma processCell_zero_indep T T' fuel x y size st :
  minSize T' = minSize T -> 0 < splitProb T -> 0 < splitProb T' ->
  rng st = 0%Z ->
  processCell T' fuel x y size st = processCell T fuel x y size st.
Proof.
  intros Hm Hp Hp'. revert x y size st.
  induction fuel as [|f IH]; intros x y size st Hg; simpl; [reflexivity|].
  assert (Hgd : splitGuard T' size (enter x y size st) = splitGuard T size (enter x y size st)).
  { unfold splitGuard, enter, rand. simpl. rewrite Hm, Hg, xorshift_0.
    destruct (JS.gtb size (minSize T)); [|reflexivity].
    assert (E : JS.ltb (output 0) (splitProb T) = true)
      by (apply JSFacts.ltb_lt; pose proof output_0; lra).
    assert (E' : JS.ltb (output 0) (splitProb T') = true)
      by (apply JSFacts.ltb_lt; pose proof output_0; lra).
    rewrite E, E'. reflexivity. }
  rewrite Hgd.
  destruct (splitGuard T size (enter x y size st)) as [[] s0] eqn:Eg; [|reflexivity].
  assert (H0 : rng s0 = 0%Z).
  { revert Eg. unfold splitGuard, enter, rand. simpl.
    destruct (JS.gtb size (minSize T)); [|discriminate].
    intros [= _ <-]. simpl. rewrite Hg. apply xorshift_0. }
  assert (Hstep : forall x y s s', rng s = 0%Z ->
            processCell T f x y (size / 2) s = Some s' -> rng s' = 0%Z).
  { intros x' y' s s' Hs E. apply processCell_trace in E as (tr & C & _ & _).
    exact (proj1 (CellTrace_zero _ _ _ _ _ _ _ Hp C Hs)). }
  rewrite (IH _ _ _ _ H0).
  destruct (processCell T f x y (size / 2) s0) as [s1|] eqn:E1; simpl; [|reflexivity].
  assert (H1 := Hstep _ _ _ _ H0 E1). rewrite (IH _ _ _ _ H1).
  destruct (processCell T f (x + size / 2) y (size / 2) s1) as [s2|] eqn:E2;
    simpl; [|reflexivity].
  assert (H2 := Hstep _ _ _ _ H1 E2). rewrite (IH _ _ _ _ H2).
  destruct (processCell T f x (y + size / 2) (size / 2) s2) as [s3|] eqn:E3;
    simpl; [|reflexivity].
  assert (H3 := Hstep _ _ _ _ H2 E3). apply IH, H3.
Qed.

Lemma cells_zero_indep T T' fuel width height seed :
  baseSize T' = baseSize T -> minSize T' = minSize T ->
  0 < splitProb T -> 0 < splitProb T' -> JS.toInt32 seed = 0%Z ->
  cells T' fuel width height seed = cells T fuel width height seed.
Proof.
  intros Hb Hm Hp Hp' Hseed. unfold cells. rewrite Hb.
  assert (Hcell : forall x y s r, rng s = 0%Z ->
            processCell T fuel x y (baseSize T) s = Some r -> rng r = 0%Z).
  { intros x y s r Hs E. apply processCell_trace in E as (tr & C & _ & _).
    exact (proj1 (CellTrace_zero _ _ _ _ _ _ _ Hp C Hs)). }
  apply (JSFacts.for_loop_ext_inv (fun s => rng s = 0%Z)); [| |exact Hseed].
  - intros y s r Hs. apply (JSFacts.for_loop_inv (fun s => rng s = 0%Z)); [|exact Hs].
    intros x s' r' Hs'. apply Hcell, Hs'.
  - intros y s Hs.
    apply (JSFacts.for_loop_ext_inv (fun s => rng s = 0%Z)); [| |exact Hs].
    + intros x s' r' Hs'. apply Hcell, Hs'.
    + intros x s' Hs'. apply processCell_zero_indep; assumption.
Qed.

(** *** Cells that cannot split *)

(** The events of a run in which every top-level cell is terminal. *)
Fixpoint terminalRun (T : t) (g : Z) (cs : list (Q * Q)) {struct cs} : list Event :=
  match cs with
  | [] => []
  | (x, y) :: cs' =>
      [ EvEnter x y (baseSize T);
        EvDraw (output (xorshift g));
        EvEmit (layoutOf (output (xorshift g))) x y (baseSize T) ]
      ++ terminalRun T (xorshift g) cs'
  end.

Lemma CellTrace_small T g x y size tr g' :
  size <= minSize T -> CellTrace T g x y size tr g' ->
  tr = [ EvEnter x y size; EvDraw (output (xorshift g));
         EvEmit (layoutOf (output (xorshift g))) x y size ]
  /\ g' = xorshift g.
Proof.
  intros Hs H. inversion H; subst; try lra. split; reflexivity.
Qed.

Lemma RunTrace_small T g cs tr g' :
  baseSize T <= minSize T -> RunTrace T g cs tr g' -> tr = terminalRun T g cs.
Proof.
  intros Hs. induction 1 as [|g x y cs tr g1 tr' g2 HC _ IH]; [reflexivity|].
  apply (CellTrace_small _ _ _ _ _ _ _ Hs) in HC as [-> ->]. rewrite IH. reflexivity.
Qed.

Lemma arcsOf_terminalRun_length T g cs :
  length (arcsOf (terminalRun T g cs)) = (2 * length cs)%nat.
Proof.
  revert g. induction cs as [|[x y] cs IH]; intros g; [reflexivity|].
  cbn [terminalRun app arcsOf]. rewrite length_app, tileArcs_length, IH. simpl. lia.
Qed.

Lemma grid_length (ys xs : list Q) : length (grid ys xs) = (length ys * length xs)%nat.
Proof.
  unfold grid. induction ys as [|y ys IH]; simpl; [reflexivity|].
  rewrite length_app, length_map, IH. reflexivity.
Qed.

(** *** Whole runs *)

(** The distance the final sort compares. *)
Definition arcDistance (M : JS.MathLib) (width height : Q) (a : Arc) : Q :=
  JS.hypot M (midX a - width / 2) (midY a - height / 2).

Section WholeRun.
Variable T : t.

Lemma processCell_stream fuel x y size g0 st st' :
  processCell T fuel x y size st = Some st' ->
  draws (log st) = stream g0 (length (draws (log st)))
  /\ rng st = advance g0 (length (draws (log st))) ->
  draws (log st') = stream g0 (length (draws (log st')))
  /\ rng st' = advance g0 (length (draws (log st'))).
Proof.
  intros E [D G]. apply processCell_trace in E as (tr & C & L & _).
  apply CellTrace_stream in C as [D1 G1].
  rewrite L, draws_app, length_app, stream_app, advance_app, <- G, <- D, <- D1, <- G1.
  split; reflexivity.
Qed.

(** The numbers drawn in a run are the first outputs of the generator
    started at [seed | 0], and the generator ends where they end. *)
Lemma cells_stream fuel width height seed st :
  cells T fuel width height seed = Some st ->
  draws (log st) = stream (JS.toInt32 seed) (length (draws (log st)))
  /\ rng st = advance (JS.toInt32 seed) (length (draws (log st))).
Proof.
  unfold cells.
  apply (JSFacts.for_loop_inv
           (fun s => draws (log s) = stream (JS.toInt32 seed) (length (draws (log s)))
                     /\ rng s = advance (JS.toInt32 seed) (length (draws (log s)))));
    [|split; reflexivity].
  intros y s r Hs.
  apply (JSFacts.for_loop_inv
           (fun s => draws (log s) = stream (JS.toInt32 seed) (length (draws (log s)))
                     /\ rng s = advance (JS.toInt32 seed) (length (draws (log s)))));
    [|exact Hs].
  intros x s' r' Hs' E. eapply processCell_stream; eassumption.
Qed.

Lemma cells_zero fuel width height seed st :
  0 < splitProb T -> JS.toInt32 seed = 0%Z ->
  cells T fuel width height seed = Some st ->
  rng st = 0%Z /\ Forall (zeroEvent T) (log st).
Proof.
  intros Hp Hseed. unfold cells.
  apply (JSFacts.for_loop_inv (fun s => rng s = 0%Z /\ Forall (zeroEvent T) (log s)));
    [|split; [exact Hseed | constructor]].
  intros y s r Hs.
  apply (JSFacts.for_loop_inv (fun s => rng s = 0%Z /\ Forall (zeroEvent T) (log s)));
    [|exact Hs].
  intros x s' r' [Hg HF] E. apply processCell_trace in E as (tr & C & L & _).
  destruct (CellTrace_zero _ _ _ _ _ _ _ Hp C Hg) as [Hg' HF'].
  split; [exact Hg'|]. rewrite L. apply Forall_app. split; assumption.
Qed.

Lemma generate_inv M fuel width height seed r :
  generate T M fuel width height seed = Some r ->
  exists st, cells T fuel width height seed = Some st
             /\ r = JS.sort (byDistance M (width / 2) (height / 2)) (cmds st).
Proof.
  unfold generate. destruct (cells T fuel width height seed) as [st|]; simpl;
    [|discriminate].
  intros [= <-]. eauto.
Qed.

Lemma generate_sorted M fuel width height seed r :
  generate T M fuel width height seed = Some r ->
  StronglySorted (fun a b => arcDistance M width height a <= arcDistance M width height b) r.
Proof.
  intros H. apply generate_inv in H as (st & _ & ->).
  apply (JSFacts.sort_strongly_sorted (arcDistance M width height)).
Qed.

Lemma generate_perm M fuel width height seed r :
  generate T M fuel width height seed = Some r ->
  exists st, cells T fuel width height seed = Some st /\ Permutation r (arcsOf (log st)).
Proof.
  intros H. destruct (generate_inv _ _ _ _ _ _ H) as (st & Hst & ->).
  exists st. split; [exact Hst|].
  destruct (cells_indices T _ _ _ _ _ Hst) as (ys & Hy & Hx).
  rewrite JSFacts.sort_perm.
  assert (E : cmds st = arcsOf (log st)); [|rewrite E; reflexivity].
  destruct Hx as [-> | [xs Hx]].
  - unfold cells in Hst. rewrite (JSFacts.for_loop_run_over _ _ _ _ _ _ [] Hy) in Hst.
    injection Hst as <-. reflexivity.
  - apply (cells_trace T _ _ _ _ _ _ _ Hy Hx Hst).
Qed.
End WholeRun.

End TruchetFacts.

(** ** HatTiling: the polygons placed *)

Module HatFacts.
Import HatTiling.

(** The image of one kite-grid vertex in a tile at [(cx, cy)] with
    orientation [o]: the function [_tilePoly] maps over [_kiteVerts]. *)
Definition vertexAt (T : t) (M : JS.MathLib) (cx cy : Q) (o : bool * Z) (uv : Q * Q)
    : Q * Q :=
  let '(px, py) := kiteToPixel T M (fst uv) (snd uv) (fst o) in
  let r := rotPt M px py (inject_Z (snd o) * (JS.PI / 3)) in
  (cx + Point.x r, cy + Point.y r).

(** A tile is the Hat outline placed at the tile's centre in one of the
    eight orientations. *)
Definition isHat (T : t) (M : JS.MathLib) (tl : Tile) : Prop :=
  exists o, In o orientations /\ poly tl = map (vertexAt T M (cx tl) (cy tl) o) kiteVerts.

(** The distance the sort compares. *)
Definition distance (M : JS.MathLib) (width height : Q) (tl : Tile) : Q :=
  JS.hypot M (cx tl - width / 2) (cy tl - height / 2).

Lemma toInt32_small (z : Z) : (- 2 ^ 31 <= z < 2 ^ 31)%Z -> JS.toInt32 z = z.
Proof.
  intros H. unfold JS.toInt32. rewrite Z.mod_small; lia.
Qed.

Lemma and32_255_range (v : Z) : (0 <= JS.and32 v 255 <= 255)%Z.
Proof.
  unfold JS.and32. rewrite (toInt32_small 255) by lia.
  assert (H : (0 <= Z.land (JS.toInt32 v) 255 < 2 ^ 8)%Z).
  { change 255%Z with (Z.ones 8). rewrite Z.land_ones by lia.
    apply Z.mod_pos_bound. lia. }
  rewrite toInt32_small; lia.
Qed.

Lemma orientIndex_range (T : t) (col row : Z) : (0 <= orientIndex T col row < 8)%Z.
Proof.
  unfold orientIndex. apply Z.rem_bound_pos; [|lia]. apply and32_255_range.
Qed.

Lemma tilePoly_spec (T : t) (M : JS.MathLib) (cx cy : Q) (idx : Z) :
  (0 <= idx)%Z ->
  exists o, In o orientations
            /\ tilePoly T M cx cy idx = Some (map (vertexAt T M cx cy o) kiteVerts).
Proof.
  intros Hidx. unfold tilePoly, JS.index.
  pose proof (Z.rem_bound_pos idx 8 Hidx ltac:(lia)) as Hr.
  destruct (Z.ltb_spec (Z.rem idx 8) 0) as [?|_]; [lia|].
  assert (Hn : (Z.to_nat (Z.rem idx 8) < length orientations)%nat) by (simpl; lia).
  destruct (lookup_lt_is_Some_2 _ _ Hn) as [[flipX rotSteps] Ho].
  exists (flipX, rotSteps). split.
  - apply list_elem_of_In. eapply list_elem_of_lookup_2, Ho.
  - rewrite Ho. simpl. f_equal.
Qed.

Section Place.
Variable T : t.
Variable M : JS.MathLib.

Lemma placeTiles_hats fuel width height tiles :
  placeTiles T M fuel width height = Some tiles -> Forall (isHat T M) tiles.
Proof.
  unfold placeTiles.
  apply (JSFacts.for_loop_inv (Forall (isHat T M))); [|constructor].
  intros row s r Hs. apply (JSFacts.for_loop_inv (Forall (isHat T M))); [|exact Hs].
  intros col s' r' Hs'.
  set (cx0 := inject_Z col * _ + _). set (cy0 := inject_Z row * _).
  destruct (tilePoly_spec T M cx0 cy0 (orientIndex T col row)) as (o & Ho & E);
    [apply orientIndex_range|].
  rewrite E. simpl. intros [= <-].
  apply Forall_app. split; [exact Hs'|].
  constructor; [|constructor]. exists o. split; [exact Ho | reflexivity].
Qed.

Lemma placeTiles_mono fuel fuel' width height tiles :
  (fuel <= fuel')%nat ->
  placeTiles T M fuel width height = Some tiles ->
  placeTiles T M fuel' width height = Some tiles.
Proof.
  intros Hle. unfold placeTiles. apply JSFacts.for_loop_mono; [exact Hle|].
  intros row s r. apply JSFacts.for_loop_mono; [exact Hle|]. trivial.
Qed.

Lemma generateTiles_mono fuel fuel' width height tiles :
  (fuel <= fuel')%nat ->
  generateTiles T M fuel width height = Some tiles ->
  generateTiles T M fuel' width height = Some tiles.
Proof.
  intros Hle. unfold generateTiles.
  destruct (placeTiles T M fuel width height) as [l|] eqn:E; simpl; [|discriminate].
  rewrite (placeTiles_mono _ _ _ _ _ Hle E). trivial.
Qed.

(** With a positive edge length (and a positive [Math.sqrt(3)]) both
    loops end. *)
Lemma placeTiles_total width height :
  0 < s T -> 0 < JS.sqrt M 3 ->
  exists fuel0, forall fuel, (fuel0 <= fuel)%nat ->
    is_Some (placeTiles T M fuel width height).
Proof.
  intros Hs H3. unfold placeTiles.
  set (h := s T * JS.sqrt M 3 / 2).
  set (colStep := s T * (9 / 2)). set (rowStep := h * 3).
  set (pad := JS.max colStep rowStep * 2).
  assert (Hh : 0 < h).
  { unfold h. apply Qlt_shift_div_l; [lra|]. rewrite Qmult_0_l.
    apply Qmult_lt_0_compat; assumption. }
  assert (Hrow : 0 < rowStep) by (unfold rowStep; lra).
  assert (Hcol : 0 < colStep)
    by (unfold colStep; apply Qmult_lt_0_compat; [exact Hs | reflexivity]).
  destruct (JSFacts.count_loop_total rowStep (height + pad) (-2) Hrow) as [nr Hr].
  destruct (JSFacts.count_loop_total colStep (width + pad) (-2) Hcol) as [nc Hc].
  exists (S (nr + nc)). intros fuel Hfuel.
  destruct (Hr fuel ltac:(lia)) as [rows Er].
  destruct (Hc fuel ltac:(lia)) as [cols Ec].
  rewrite (JSFacts.for_loop_run_over _ _ _ _ _ _ rows Er).
  apply TruchetFacts.run_over_total. intros row tiles.
  rewrite (JSFacts.for_loop_run_over _ _ _ _ _ _ cols Ec).
  apply TruchetFacts.run_over_total. intros col tiles'.
  set (cx0 := inject_Z col * _ + _). set (cy0 := inject_Z row * _).
  destruct (tilePoly_spec T M cx0 cy0 (orientIndex T col row)) as (o & Ho & E);
    [apply orientIndex_range|].
  rewrite E. simpl. eauto.
Qed.
End Place.

(** The outline as stored: thirteen points, the last a copy of the first,
    the first twelve distinct. *)
Lemma kiteVerts_closed :
  length kiteVerts = 13%nat
  /\ head kiteVerts = last kiteVerts
  /\ NoDup (removelast kiteVerts).
Proof.
  split; [reflexivity|]. split; [reflexivity|].
  unfold kiteVerts. cbn [removelast].
  repeat (apply NoDup_cons; split;
          [ intros Hin; repeat (apply elem_of_cons in Hin as [Hin|Hin]; [discriminate|]);
            inversion Hin | ]).
  apply NoDup_nil. trivial.
Qed.

Lemma isHat_closed (T : t) (M : JS.MathLib) (tl : Tile) :
  isHat T M tl ->
  length (poly tl) = 13%nat /\ head (poly tl) = last (poly tl).
Proof.
  intros (o & _ & ->). split; reflexivity.
Qed.

Lemma generateTiles_inv (T : t) (M : JS.MathLib) fuel width height tiles :
  generateTiles T M fuel width height = Some tiles ->
  exists placed, placeTiles T M fuel width height = Some placed
                 /\ tiles = JS.sort (byDistance M (width / 2) (height / 2)) placed.
Proof.
  unfold generateTiles. destruct (placeTiles T M fuel width height) as [l|]; simpl;
    [|discriminate].
  intros [= <-]. eauto.
Qed.

Lemma generateTiles_sorted (T : t) (M : JS.MathLib) fuel width height tiles :
  generateTiles T M fuel width height = Some tiles ->
  StronglySorted (fun a b => distance M width height a <= distance M width height b) tiles.
Proof.
  intros H. apply generateTiles_inv in H as (placed & _ & ->).
  apply (JSFacts.sort_strongly_sorted (distance M width height)).
Qed.

Lemma generateTiles_hats (T : t) (M : JS.MathLib) fuel width height tiles :
  generateTiles T M fuel width height = Some tiles -> Forall (isHat T M) tiles.
Proof.
  intros H. apply generateTiles_inv in H as (placed & Hp & ->).
  apply placeTiles_hats in Hp.
  eapply Permutation_Forall; [|exact Hp]. symmetry. apply JSFacts.sort_perm.
Qed.

(** A placed outline repeats its first point, so its points are not
    pairwise distinct. *)
Lemma isHat_repeats (T : t) (M : JS.MathLib) (tl : Tile) :
  isHat T M tl -> ~ NoDup (poly tl).
Proof.
  intros (o & _ & ->) Hnd. unfold kiteVerts in Hnd. cbn [map] in Hnd.
  apply NoDup_cons in Hnd as [Hnotin _]. apply Hnotin.
  do 11 (apply list_elem_of_further). apply list_elem_of_here.
Qed.

End HatFacts.

(** ** Geometry *)

Module GeometryFacts.

(** A point lies on the infinite line through [(x1, y1)] and [(x2, y2)]. *)
Definition onLine (p : Point.t) (x1 y1 x2 y2 : Q) : Prop :=
  (Point.x p - x1) * (y2 - y1) == (Point.y p - y1) * (x2 - x1).

Lemma tolerance_pos : 0 < tolerance.
Proof. reflexivity. Qed.

Lemma lineIntersect_none ax1 ay1 ax2 ay2 bx1 by1 bx2 by2 :
  lineIntersect ax1 ay1 ax2 ay2 bx1 by1 bx2 by2 = None
  <-> JS.abs (lineIntersect_denom ax1 ay1 ax2 ay2 bx1 by1 bx2 by2) < tolerance.
Proof.
  unfold lineIntersect, lineIntersect_denom. cbv zeta.
  destruct (JS.ltb _ tolerance) eqn:E.
  - apply JSFacts.ltb_lt in E. tauto.
  - apply JSFacts.ltb_ge in E. split; [discriminate|].
    intros H. exfalso. apply (Qlt_not_le _ _ H E).
Qed.

Lemma lineIntersect_some ax1 ay1 ax2 ay2 bx1 by1 bx2 by2 p :
  lineIntersect ax1 ay1 ax2 ay2 bx1 by1 bx2 by2 = Some p ->
  onLine p ax1 ay1 ax2 ay2 /\ onLine p bx1 by1 bx2 by2.
Proof.
  unfold lineIntersect, onLine. cbv zeta.
  set (denom := (ax2 - ax1) * (by2 - by1) - (ay2 - ay1) * (bx2 - bx1)).
  destruct (JS.ltb (JS.abs denom) tolerance) eqn:E; [discriminate|].
  apply JSFacts.ltb_ge in E.
  assert (Hd : ~ denom == 0).
  { intros H0. pose proof tolerance_pos as Ht.
    assert (Ha : JS.abs denom == 0).
    { unfold JS.abs. destruct (JS.ltb denom 0); rewrite H0; reflexivity. }
    rewrite Ha in E. apply (Qlt_not_le _ _ Ht E). }
  intros [= <-]. cbn [Point.x Point.y]. split.
  - ring.
  - unfold denom in *. field. exact Hd.
Qed.

End GeometryFacts.

(** ** Rosette: the seven phases *)

Module RosetteFacts.
Import Rosette.

Lemma index_nat {A : Type} (l : list A) (i : nat) : JS.index l (Z.of_nat i) = l !! i.
Proof.
  unfold JS.index. destruct (Z.ltb_spec (Z.of_nat i) 0) as [?|_]; [lia|].
  rewrite Nat2Z.id. reflexivity.
Qed.

Lemma index_in_range {A : Type} (l : list A) (k : Z) :
  (0 <= k < Z.of_nat (length l))%Z -> is_Some (JS.index l k).
Proof.
  intros H. unfold JS.index. destruct (Z.ltb_spec k 0) as [?|_]; [lia|].
  apply lookup_lt_is_Some. lia.
Qed.

Lemma mapM_length_eq {A B : Type} (f : A -> option B) (l : list A) (k : list B) :
  mapM f l = Some k -> length k = length l.
Proof.
  intros H. apply mapM_Some_1 in H. symmetry. eapply Forall2_length, H.
Qed.

Lemma mapM_seq_total {B : Type} (f : nat -> option B) (m : nat) :
  (forall i, (i < m)%nat -> is_Some (f i)) ->
  exists k, mapM f (seq 0 m) = Some k /\ length k = m.
Proof.
  intros H.
  destruct (mapM_is_Some_2 f (seq 0 m)) as [k Hk].
  - apply Forall_forall. intros i Hi. apply list_elem_of_In, in_seq in Hi.
    apply H. lia.
  - exists k. split; [exact Hk|]. rewrite (mapM_length_eq _ _ _ Hk). apply length_seq.
Qed.

Section Build.
Variable T : t.
Variable M : JS.MathLib.
Hypothesis skip_nonneg : (0 <= connectEveryN T)%Z.

Lemma circlePts_length cx cy rad : length (circlePts T M cx cy rad) = numPetals T.
Proof. unfold circlePts. rewrite length_map. apply length_seq. Qed.

(** Every index the loops of [build] compute is inside its array. *)
Lemma index_wrap {A : Type} (l : list A) (i : nat) (d : Z) :
  length l = numPetals T -> (i < numPetals T)%nat -> (0 <= d)%Z ->
  is_Some (JS.index l (Z.rem (Z.of_nat i + d) (Z.of_nat (numPetals T)))).
Proof.
  intros Hl Hi Hd. apply index_in_range. rewrite Hl.
  apply Z.rem_bound_pos; lia.
Qed.

Lemma index_direct {A : Type} (l : list A) (i : nat) :
  length l = numPetals T -> (i < numPetals T)%nat ->
  is_Some (JS.index l (Z.of_nat i)).
Proof. intros Hl Hi. apply index_in_range. lia. Qed.

Lemma outerLinesOf_total pts :
  length pts = numPetals T ->
  exists l, outerLinesOf T pts = Some l /\ length l = numPetals T.
Proof.
  intros Hl. apply mapM_seq_total. intros i Hi.
  destruct (index_direct pts i Hl Hi) as [a ->].
  destruct (index_wrap pts i (connectEveryN T) Hl Hi skip_nonneg) as [b ->].
  simpl. eauto.
Qed.

Lemma radialLinesOf_total cx cy pts :
  length pts = numPetals T ->
  exists l, radialLinesOf T cx cy pts = Some l /\ length l = numPetals T.
Proof.
  intros Hl. apply mapM_seq_total. intros i Hi.
  destruct (index_direct pts i Hl Hi) as [a ->]. simpl. eauto.
Qed.

Lemma diagLinesOf_total mid inn :
  length mid = numPetals T -> length inn = numPetals T ->
  exists l, diagLinesOf T mid inn = Some l /\ length l = (numPetals T + numPetals T)%nat.
Proof.
  intros Hm Hi. unfold diagLinesOf.
  destruct (mapM_seq_total
              (fun i : nat =>
                 m0 ← JS.index mid (Z.of_nat i);
                 i1 ← JS.index inn (Z.rem (Z.of_nat i + 1) (Z.of_nat (numPetals T)));
                 Some (mkLine (Point.x m0) (Point.y m0) (Point.x i1) (Point.y i1)))
              (numPetals T)) as (cw & -> & Lcw).
  { intros i Hlt. destruct (index_direct mid i Hm Hlt) as [a ->].
    destruct (index_wrap inn i 1 Hi Hlt ltac:(lia)) as [b ->]. simpl. eauto. }
  destruct (mapM_seq_total
              (fun i : nat =>
                 m1 ← JS.index mid (Z.rem (Z.of_nat i + 1) (Z.of_nat (numPetals T)));
                 i0 ← JS.index inn (Z.of_nat i);
                 Some (mkLine (Point.x m1) (Point.y m1) (Point.x i0) (Point.y i0)))
              (numPetals T)) as (ccw & -> & Lccw).
  { intros i Hlt. destruct (index_wrap mid i 1 Hm Hlt ltac:(lia)) as [a ->].
    destruct (index_direct inn i Hi Hlt) as [b ->]. simpl. eauto. }
  simpl. eexists. split; [reflexivity|]. rewrite length_app. lia.
Qed.

(** The shape of a petal: inner vertex, left middle point, the tip when
    one was picked, right middle point. *)
Definition petalShape (cx cy : Q) (mid : list Point.t) (diag : list Line)
    (ext : list Ext) (i : nat) (pts : list Point.t) : Prop :=
  exists cw ccw iv ml mr,
    diag !! i = Some cw /\ diag !! (numPetals T + i)%nat = Some ccw
    /\ lineIntersect (x1 cw) (y1 cw) (x2 cw) (y2 cw)
                     (x1 ccw) (y1 ccw) (x2 ccw) (y2 ccw) = Some iv
    /\ mid !! i = Some ml
    /\ JS.index mid (Z.rem (Z.of_nat i + 1) (Z.of_nat (numPetals T))) = Some mr
    /\ pts = [iv; Point.mk (Point.x ml) (Point.y ml)]
             ++ match pickTip T M cx cy
                        (dRad T * (inject_Z (Z.of_nat i) + 1 / 2)) ext with
                | Some tp => [tp]
                | None => []
                end
             ++ [Point.mk (Point.x mr) (Point.y mr)].

Lemma petalAt_total cx cy mid diag ext i :
  length mid = numPetals T -> length diag = (numPetals T + numPetals T)%nat ->
  (i < numPetals T)%nat ->
  is_Some (petalAt T M cx cy mid diag ext i).
Proof.
  intros Hm Hd Hi. unfold petalAt.
  rewrite (index_nat diag i).
  destruct (lookup_lt_is_Some_2 diag i ltac:(lia)) as [cw ->].
  rewrite <- Nat2Z.inj_add, (index_nat diag (numPetals T + i)).
  destruct (lookup_lt_is_Some_2 diag (numPetals T + i) ltac:(lia)) as [ccw ->].
  simpl. destruct (lineIntersect _ _ _ _ _ _ _ _); [|eauto].
  destruct (index_direct mid i Hm Hi) as [ml ->].
  destruct (index_wrap mid i 1 Hm Hi ltac:(lia)) as [mr ->].
  simpl. eauto.
Qed.

Lemma petalAt_shape cx cy mid diag ext i pts :
  petalAt T M cx cy mid diag ext i = Some (Some pts) ->
  petalShape cx cy mid diag ext i pts.
Proof.
  unfold petalAt, petalShape.
  rewrite (index_nat diag i), <- Nat2Z.inj_add, (index_nat diag (numPetals T + i)),
    (index_nat mid i).
  destruct (diag !! i) as [cw|]; simpl; [|discriminate].
  destruct (diag !! (numPetals T + i)%nat) as [ccw|]; simpl; [|discriminate].
  destruct (lineIntersect _ _ _ _ _ _ _ _) as [iv|] eqn:Eiv; [|discriminate].
  destruct (mid !! i) as [ml|]; simpl; [|discriminate].
  destruct (JS.index mid _) as [mr|] eqn:Emr; simpl; [|discriminate].
  intros [= <-]. exists cw, ccw, iv, ml, mr.
  repeat (split; [first [reflexivity | assumption]|]).
  destruct (pickTip _ _ _ _ _ _); reflexivity.
Qed.

Lemma petalShape_length cx cy mid diag ext i pts :
  petalShape cx cy mid diag ext i pts -> length pts = 3%nat \/ length pts = 4%nat.
Proof.
  intros (cw & ccw & iv & ml & mr & _ & _ & _ & _ & _ & ->).
  destruct (pickTip _ _ _ _ _ _); [right | left]; reflexivity.
Qed.

Lemma petalsOf_total cx cy mid diag ext :
  length mid = numPetals T -> length diag = (numPetals T + numPetals T)%nat ->
  is_Some (petalsOf T M cx cy mid diag ext).
Proof.
  intros Hm Hd. unfold petalsOf.
  destruct (mapM_seq_total (petalAt T M cx cy mid diag ext) (numPetals T))
    as (l & -> & _); [|simpl; eauto].
  intros i Hi. apply petalAt_total; assumption.
Qed.

(** Every petal kept has the shape above for some sector [i]. *)
Lemma petalsOf_shape cx cy mid diag ext petals :
  petalsOf T M cx cy mid diag ext = Some petals ->
  Forall (fun pts => exists i, (i < numPetals T)%nat
                               /\ petalShape cx cy mid diag ext i pts) petals.
Proof.
  unfold petalsOf.
  destruct (mapM _ (seq 0 (numPetals T))) as [l|] eqn:E; simpl; [|discriminate].
  intros [= <-]. apply mapM_Some_1 in E.
  apply Forall_forall. intros pts Hin.
  apply list_elem_of_omap in Hin as (o & Ho & Heq). simpl in Heq. subst o.
  apply list_elem_of_lookup in Ho as [k Hk].
  destruct (Forall2_lookup_r _ _ _ _ _ E Hk) as (i & Hi & Hf).
  exists i. split.
  - apply list_elem_of_lookup_2, list_elem_of_In, in_seq in Hi. lia.
  - apply petalAt_shape, Hf.
Qed.

Lemma diamondsOf_total cx cy inn :
  length inn = numPetals T ->
  exists l, diamondsOf T M cx cy inn = Some l /\ length l = numPetals T.
Proof.
  intros Hl. apply mapM_seq_total. intros i Hi. cbv zeta.
  destruct (index_direct inn i Hl Hi) as [a ->]. simpl. eauto.
Qed.
End Build.

Section BuildResult.
Variable T : t.
Variable M : JS.MathLib.

(** The arrays [build] works on at centre [(cx, cy)]. *)
Definition middlePtsAt (cx cy : Q) : list Point.t := circlePts T M cx cy (middleRadius T).

Lemma build_inv cx cy ph :
  build T M cx cy = Some ph ->
  exists outerLines radialLines diagLines petals diamonds,
    outerLinesOf T (circlePts T M cx cy (outerRadius T)) = Some outerLines
    /\ diagLinesOf T (middlePtsAt cx cy) (circlePts T M cx cy (innerRadius T))
       = Some diagLines
    /\ petalsOf T M cx cy (middlePtsAt cx cy) diagLines
                (omap (extendDiag M cx cy outerLines) diagLines) = Some petals
    /\ ph = [ [ Circle cx cy (outerRadius T) (6 / 100);
                Circle cx cy (middleRadius T) (6 / 100);
                Circle cx cy (innerRadius T) (6 / 100) ];
              map (fun l => LineCmd l None radial (12 / 100)) radialLines;
              map (fun l => LineCmd l None outer (55 / 100)) outerLines;
              map (fun l => LineCmd l None diagonal (35 / 100)) diagLines;
              map (fun e => LineCmd (line e) (Some (tip e)) extension (55 / 100))
                  (omap (extendDiag M cx cy outerLines) diagLines);
              map (fun pts => Petal pts (15 / 100)) petals;
              map (fun pts => Diamond pts (22 / 100)) diamonds ].
Proof.
  unfold build, middlePtsAt. cbv zeta.
  destruct (outerLinesOf _ _) as [ol|] eqn:E1; cbn [mbind option_bind]; [|discriminate].
  destruct (radialLinesOf _ _ _ _) as [rl|]; cbn [mbind option_bind]; [|discriminate].
  destruct (diagLinesOf _ _ _) as [dl|] eqn:E2; cbn [mbind option_bind]; [|discriminate].
  destruct (petalsOf _ _ _ _ _ _ _) as [pe|] eqn:E3; cbn [mbind option_bind];
    [|discriminate].
  destruct (diamondsOf _ _ _ _ _) as [di|]; cbn [mbind option_bind]; [|discriminate].
  intros [= <-]. exists ol, rl, dl, pe, di. repeat split; assumption.
Qed.

(** [build] always returns seven phases when it returns. *)
Lemma build_length cx cy ph : build T M cx cy = Some ph -> length ph = 7%nat.
Proof.
  intros H. apply build_inv in H as (ol & rl & dl & pe & di & _ & _ & _ & ->).
  reflexivity.
Qed.

(** With a non-negative [connectEveryN] no array access of [build] is out
    of range, so it returns. *)
Lemma build_total cx cy :
  (0 <= connectEveryN T)%Z -> is_Some (build T M cx cy).
Proof.
  intros Hs. unfold build. cbv zeta.
  destruct (outerLinesOf_total T Hs (circlePts T M cx cy (outerRadius T)))
    as (ol & -> & _); [apply circlePts_length|].
  destruct (radialLinesOf_total T cx cy (circlePts T M cx cy (outerRadius T)))
    as (rl & -> & _); [apply circlePts_length|].
  destruct (diagLinesOf_total T (circlePts T M cx cy (middleRadius T))
                              (circlePts T M cx cy (innerRadius T)))
    as (dl & -> & Ldl); [apply circlePts_length | apply circlePts_length |].
  cbn [mbind option_bind].
  destruct (petalsOf_total T M cx cy (circlePts T M cx cy (middleRadius T)) dl
              (omap (extendDiag M cx cy ol) dl)) as [pe ->];
    [apply circlePts_length | exact Ldl |].
  destruct (diamondsOf_total T M cx cy (circlePts T M cx cy (innerRadius T)))
    as (di & -> & _); [apply circlePts_length|].
  cbn [mbind option_bind]. eauto.
Qed.
End BuildResult.

(** *** The tip of a petal *)
Section Tip.
Variable T : t.
Variable M : JS.MathLib.
Variables cx cy anglePetal : Q.

(** The direction of a point from the centre lies within [tipTolerance]
    of the petal's axis. *)
Definition inSector (p : Point.t) : Prop :=
  angDelta (JS.atan2 M (Point.y p - cy) (Point.x p - cx)) anglePetal < tipTolerance T.

Definition fromCentre (p : Point.t) : Q :=
  JS.hypot M (Point.x p - cx) (Point.y p - cy).

(** What the tip loop has established after some extensions. *)
Definition tipInv (seen : list Ext) (acc : option Point.t * Q) : Prop :=
  (forall e, In e seen -> inSector (tip e) -> fromCentre (tip e) <= snd acc)
  /\ match fst acc with
     | Some tp => In tp (map tip seen) /\ inSector tp
                  /\ fromCentre tp = snd acc /\ 0 < snd acc
     | None => snd acc = 0
     end.

Lemma tipStep_inv seen acc e :
  tipInv seen acc -> tipInv (seen ++ [e]) (tipStep T M cx cy anglePetal acc e).
Proof.
  intros [Hmax Hacc]. unfold tipStep.
  destruct (JS.ltb _ (tipTolerance T)) eqn:Esec.
  - apply JSFacts.ltb_lt in Esec.
    destruct (JS.gtb _ (snd acc)) eqn:Efar.
    + apply JSFacts.gtb_gt in Efar. split; cbn [fst snd].
      * intros e' Hin Hsec. apply in_app_or in Hin as [Hin|[<-|[]]].
        -- specialize (Hmax e' Hin Hsec). unfold fromCentre in *. lra.
        -- apply Qle_refl.
      * split; [rewrite map_app; apply in_or_app; right; left; reflexivity|].
        split; [exact Esec|]. split; [reflexivity|].
        destruct (fst acc); [destruct Hacc as (_ & _ & _ & Hpos); lra|].
        rewrite Hacc in Efar. exact Efar.
    + apply JSFacts.gtb_le in Efar. split.
      * intros e' Hin Hsec. apply in_app_or in Hin as [Hin|[<-|[]]];
          [apply Hmax; assumption | exact Efar].
      * destruct (fst acc); [|exact Hacc].
        destruct Hacc as (Hin & H). split; [|exact H].
        rewrite map_app. apply in_or_app. left. exact Hin.
  - apply JSFacts.ltb_ge in Esec. split.
    + intros e' Hin Hsec. apply in_app_or in Hin as [Hin|[<-|[]]];
        [apply Hmax; assumption|].
      unfold inSector in Hsec. exfalso. apply (Qlt_not_le _ _ Hsec Esec).
    + destruct (fst acc); [|exact Hacc].
      destruct Hacc as (Hin & H). split; [|exact H].
      rewrite map_app. apply in_or_app. left. exact Hin.
Qed.

Lemma tipLoop_inv exts seen acc :
  tipInv seen acc ->
  tipInv (seen ++ exts) (fold_left (tipStep T M cx cy anglePetal) exts acc).
Proof.
  revert seen acc. induction exts as [|e exts IH]; intros seen acc H; simpl.
  - rewrite app_nil_r. exact H.
  - replace (seen ++ e :: exts) with ((seen ++ [e]) ++ exts)
      by (rewrite <- app_assoc; reflexivity).
    apply IH, tipStep_inv, H.
Qed.

(** The tip picked is an extension tip in the sector, at a positive
    distance that no other tip in the sector exceeds; none is picked
    exactly when no tip in the sector is at a positive distance. *)
Lemma pickTip_spec exts :
  match pickTip T M cx cy anglePetal exts with
  | Some tp =>
      In tp (map tip exts) /\ inSector tp /\ 0 < fromCentre tp
      /\ forall e, In e exts -> inSector (tip e) -> fromCentre (tip e) <= fromCentre tp
  | None =>
      forall e, In e exts -> inSector (tip e) -> fromCentre (tip e) <= 0
  end.
Proof.
  unfold pickTip.
  destruct (tipLoop_inv exts [] (None, 0)) as [Hmax Hacc].
  { split; [intros e []|reflexivity]. }
  simpl in Hmax.
  destruct (fst (fold_left _ exts (None, 0))) as [tp|].
  - destruct Hacc as (Hin & Hsec & Hd & Hpos).
    split; [exact Hin|]. split; [exact Hsec|]. rewrite Hd. split; [exact Hpos|exact Hmax].
  - rewrite Hacc in Hmax. exact Hmax.
Qed.
End Tip.

(** *** Merging the motifs of a tiling *)

(** With seven phases on both sides, [forEach] appends phase by phase. *)
Lemma mergeFrom_zip (phases merged : list (list Cmd)) :
  length phases = 7%nat -> length merged = 7%nat ->
  mergeFrom 0 phases merged = zip_with app merged phases.
Proof.
  intros Hp Hm.
  do 8 (destruct phases as [|? phases]; try discriminate).
  do 8 (destruct merged as [|? merged]; try discriminate).
  reflexivity.
Qed.

Lemma zip_with_app_nth (merged phases : list (list Cmd)) (pi : nat) :
  length phases = length merged ->
  nth pi (zip_with app merged phases) [] = nth pi merged [] ++ nth pi phases [].
Proof.
  revert phases pi. induction merged as [|m merged IH]; intros [|p phases] [|pi] H;
    simpl in *; try discriminate; try reflexivity.
  apply IH. lia.
Qed.

Section Tile.
Variable T : t.
Variable M : JS.MathLib.

(** The centres of the motifs placed, in loop order. *)
Definition centres (rows cols : list Z) : list (Q * Q) :=
  flat_map (fun row => map (fun col => centre T M row col) cols) rows.

Definition rowsOf (fuel : nat) (height : Q) : option (list Z) :=
  JS.loop_indices fuel (rowCond T M height) Z.succ (-1)%Z.

Definition colsOf (fuel : nat) (width : Q) : option (list Z) :=
  JS.loop_indices fuel (colCond T width) Z.succ (-1)%Z.

(** One motif: build it and merge its phases. *)
Definition place (c : Q * Q) (merged : list (list Cmd)) : option (list (list Cmd)) :=
  rose ← build T M (fst c) (snd c); Some (mergeFrom 0 rose merged).

(** [merged] after the motifs [builds]: seven phases, each the earlier
    content followed by that phase of every motif in order. *)
Definition mergedWith (m0 : list (list Cmd)) (builds : list (list (list Cmd)))
    (m : list (list Cmd)) : Prop :=
  length m = 7%nat
  /\ forall pi, nth pi m [] = nth pi m0 [] ++ concat (map (fun b => nth pi b []) builds).

Lemma place_over cs m0 m :
  length m0 = 7%nat ->
  JS.run_over place cs m0 = Some m ->
  exists builds,
    Forall2 (fun c b => build T M (fst c) (snd c) = Some b) cs builds
    /\ mergedWith m0 builds m.
Proof.
  revert m0. induction cs as [|c cs IH]; intros m0 H0; cbn [JS.run_over].
  - intros [= <-]. exists []. split; [constructor|]. split; [exact H0|].
    intros pi. simpl. rewrite app_nil_r. reflexivity.
  - destruct (place c m0) as [m1|] eqn:Ep; cbn [mbind option_bind]; [|discriminate].
    unfold place in Ep.
    destruct (build T M (fst c) (snd c)) as [b|] eqn:Eb; simpl in Ep; [|discriminate].
    injection Ep as <-.
    pose proof (build_length T M _ _ _ Eb) as Lb.
    rewrite (mergeFrom_zip b m0 Lb H0).
    intros H. apply IH in H as (builds & HF & Hlen & Hnth).
    2:{ rewrite length_zip_with. lia. }
    exists (b :: builds). split; [constructor; assumption|].
    split; [exact Hlen|]. intros pi. rewrite Hnth, zip_with_app_nth by lia.
    simpl. rewrite app_assoc. reflexivity.
Qed.

Lemma place_centre row col m :
  (let '(x, y) := centre T M row col in
   rose ← build T M x y; Some (mergeFrom 0 rose m))
  = place (centre T M row col) m.
Proof. unfold place. destruct (centre T M row col). reflexivity. Qed.

Lemma tile_run_over fuel width height rows cols :
  rowsOf fuel height = Some rows -> colsOf fuel width = Some cols ->
  tile T M fuel width height
  = JS.run_over place (centres rows cols) (replicate maxPhases []).
Proof.
  intros Hr Hc. unfold tile.
  rewrite (JSFacts.for_loop_run_over _ _ _ _ _ _ rows Hr). clear Hr.
  generalize (replicate maxPhases ([] : list Cmd)).
  unfold centres. induction rows as [|row rows IH]; intros m;
    cbn [JS.run_over flat_map]; [reflexivity|].
  rewrite (JSFacts.for_loop_run_over _ _ _ _ _ _ cols Hc).
  rewrite JSFacts.run_over_app.
  assert (E : forall m, JS.run_over
                (fun col merged => let '(x, y) := centre T M row col in
                                   rose ← build T M x y; Some (mergeFrom 0 rose merged))
                cols m
              = JS.run_over place (map (fun col => centre T M row col) cols) m).
  { clear. induction cols as [|col cols IHc]; intros m; cbn [JS.run_over map];
      [reflexivity|].
    rewrite place_centre.
    destruct (place (centre T M row col) m); cbn [mbind option_bind];
      [apply IHc | reflexivity]. }
  rewrite E. destruct (JS.run_over place _ m); cbn [mbind option_bind];
    [apply IH | reflexivity].
Qed.

(** The merged result of a tiling, phase by phase. *)
Lemma tile_merged fuel width height rows cols merged :
  rowsOf fuel height = Some rows -> colsOf fuel width = Some cols ->
  tile T M fuel width height = Some merged ->
  exists builds,
    Forall2 (fun c b => build T M (fst c) (snd c) = Some b) (centres rows cols) builds
    /\ mergedWith (replicate maxPhases []) builds merged.
Proof.
  intros Hr Hc H. rewrite (tile_run_over _ _ _ _ _ Hr Hc) in H.
  apply place_over in H; [exact H | reflexivity].
Qed.

Lemma tile_length fuel width height merged :
  tile T M fuel width height = Some merged -> length merged = 7%nat.
Proof.
  unfold tile.
  apply (JSFacts.for_loop_inv (fun m => length m = 7%nat)); [|reflexivity].
  intros row s r Hs. apply (JSFacts.for_loop_inv (fun m => length m = 7%nat)); [|exact Hs].
  intros col s' r' Hs'. destruct (centre T M row col) as [x y].
  destruct (build T M x y) as [b|] eqn:Eb; simpl; [|discriminate].
  intros [= <-]. rewrite (mergeFrom_zip b s' (build_length T M _ _ _ Eb) Hs').
  rewrite length_zip_with, (build_length T M _ _ _ Eb). lia.
Qed.

(** With a positive radius and a non-negative skip the tiling returns. *)
Lemma tile_total width height :
  0 < outerRadius T -> 0 < JS.sqrt M 3 -> (0 <= connectEveryN T)%Z ->
  exists fuel0, forall fuel, (fuel0 <= fuel)%nat ->
    exists rows cols merged,
      rowsOf fuel height = Some rows /\ colsOf fuel width = Some cols
      /\ tile T M fuel width height = Some merged.
Proof.
  intros Hr H3 Hs.
  assert (Hsp : 0 < spacing T).
  { unfold spacing. apply Qmult_lt_0_compat; [exact Hr | reflexivity]. }
  assert (Hrow : 0 < rowH T M).
  { unfold rowH. apply Qlt_shift_div_l; [reflexivity|]. rewrite Qmult_0_l.
    apply Qmult_lt_0_compat; assumption. }
  destruct (JSFacts.count_loop_total (rowH T M) (height + spacing T) (-1) Hrow) as [nr Hnr].
  destruct (JSFacts.count_loop_total (spacing T) (width + spacing T) (-1) Hsp) as [nc Hnc].
  exists (S (nr + nc)). intros fuel Hfuel.
  destruct (Hnr fuel ltac:(lia)) as [rows Er].
  destruct (Hnc fuel ltac:(lia)) as [cols Ec].
  assert (Hsome : is_Some (tile T M fuel width height)).
  { rewrite (tile_run_over fuel width height rows cols Er Ec).
    apply TruchetFacts.run_over_total. intros c m. unfold place.
    destruct (build_total T M (fst c) (snd c) Hs) as [b ->]. simpl. eauto. }
  destruct Hsome as [merged Hm]. exists rows, cols, merged. auto.
Qed.
End Tile.

Lemma petalAt_skip (T : t) (M : JS.MathLib) cx cy mid diag ext i cw ccw :
  diag !! i = Some cw -> diag !! (numPetals T + i)%nat = Some ccw ->
  lineIntersect (x1 cw) (y1 cw) (x2 cw) (y2 cw)
                (x1 ccw) (y1 ccw) (x2 ccw) (y2 ccw) = None ->
  petalAt T M cx cy mid diag ext i = Some None.
Proof.
  intros Hcw Hccw Hnone. unfold petalAt.
  rewrite (index_nat diag i), <- Nat2Z.inj_add, (index_nat diag (numPetals T + i)),
    Hcw, Hccw.
  simpl. rewrite Hnone. reflexivity.
Qed.

End RosetteFacts.

(** ** The driver: spawning a scene *)

Module DriverFacts.
Import Driver.

Section Spawn.
Context {U : Type}.
Implicit Types (sc : Scene U) (d : State U).

(** Two scenes that differ at most in the fields the spawn, hold and
    cross-fade sections write. *)
Definition sameUnits sc sc' : Prop :=
  map body (tiles sc') = map body (tiles sc)
  /\ tilesPerTick sc' = tilesPerTick sc
  /\ holdLimit sc' = holdLimit sc.

Lemma sameUnits_length sc sc' : sameUnits sc sc' -> length (tiles sc') = length (tiles sc).
Proof.
  intros (H & _). rewrite <- (length_map body (tiles sc')), H. apply length_map.
Qed.

Lemma sameUnits_refl sc : sameUnits sc sc.
Proof. repeat split. Qed.

Lemma sameUnits_trans sc1 sc2 sc3 :
  sameUnits sc1 sc2 -> sameUnits sc2 sc3 -> sameUnits sc1 sc3.
Proof.
  intros (A1 & B1 & C1) (A2 & B2 & C2). repeat split; congruence.
Qed.

Lemma map_body_alter frame i (l : list (Unit U)) :
  map body (alter (setBorn frame) i l) = map body l.
Proof.
  revert i. induction l as [|u l IH]; intros [|i]; simpl; try reflexivity.
  f_equal. apply IH.
Qed.

(** The spawn loop: the cursor advances by the iterations run, up to the
    number of units; [done] is set exactly when an iteration finds the
    cursor at the end. *)
Lemma spawnLoop_spec k frame sc :
  (spawnIdx sc <= length (tiles sc))%nat ->
  let sc' := spawnLoop k frame sc in
  sameUnits sc sc'
  /\ spawnIdx sc' = Nat.min (spawnIdx sc + k) (length (tiles sc))
  /\ done sc' = done sc || (length (tiles sc) - spawnIdx sc <? k)%nat
  /\ holdAge sc' = holdAge sc /\ alpha sc' = alpha sc /\ fadingOut sc' = fadingOut sc.
Proof.
  revert sc. induction k as [|k IH]; intros sc Hle; cbn [spawnLoop].
  - cbv zeta. split; [apply sameUnits_refl|]. split; [lia|].
    split; [|repeat split].
    rewrite orb_false_r. reflexivity.
  - destruct (Nat.leb_spec (length (tiles sc)) (spawnIdx sc)) as [Hend|Hlt].
    + cbv zeta. cbn [tiles spawnIdx done holdAge alpha fadingOut].
      split; [repeat split|]. split; [lia|]. split; [|repeat split].
      replace (length (tiles sc) - spawnIdx sc <? S k)%nat with true
        by (symmetry; apply Nat.ltb_lt; lia).
      rewrite orb_true_r. reflexivity.
    + set (sc1 := mkScene _ _ _ _ _ _ _ _ _ _).
      assert (Hlen : length (tiles sc1) = length (tiles sc))
        by (unfold sc1; cbn [tiles]; apply length_alter).
      destruct (IH sc1) as (Hs & Hi & Hd & Ha & Hal & Hf).
      { rewrite Hlen. unfold sc1. cbn [spawnIdx]. lia. }
      rewrite Hlen in Hi, Hd.
      change (spawnIdx sc1) with (S (spawnIdx sc)) in Hi, Hd.
      change (done sc1) with (done sc) in Hd.
      change (holdAge sc1) with (holdAge sc) in Ha.
      change (alpha sc1) with (alpha sc) in Hal.
      change (fadingOut sc1) with (fadingOut sc) in Hf.
      cbv zeta. split.
      * eapply sameUnits_trans; [|exact Hs].
        unfold sc1, sameUnits. cbn [tiles tilesPerTick holdLimit].
        split; [apply map_body_alter | split; reflexivity].
      * split; [rewrite Hi; lia|]. split; [|repeat split; assumption].
        rewrite Hd. f_equal.
        destruct (Nat.ltb_spec (length (tiles sc) - S (spawnIdx sc)) k);
          symmetry; [apply Nat.ltb_lt | apply Nat.ltb_ge]; lia.
Qed.
End Spawn.

Section Loop.
Context {U : Type}.
Variable mkUnits : option SceneType -> Z -> list U.
Implicit Types (sc : Scene U) (d : State U).

(** A run of frames, one [buildScene] seed per frame. *)
Definition frames (seeds : list Z) d : State U :=
  fold_left (fun d s => loop mkUnits s d) seeds d.

Lemma setAlpha_self sc : setAlpha (alpha sc) sc = sc.
Proof. destruct sc; reflexivity. Qed.

(** Unless the scene is replaced, the cross-fade only writes [alpha]. *)
Lemma crossFade_kept d sc :
  scene d = Some sc -> replaced sc = false ->
  exists a, crossFade d = mkState (Some (setAlpha a sc)) (nextScene d) (frame d).
Proof.
  intros Hsc Hrep. unfold crossFade, replaced in *. rewrite Hsc.
  destruct (fadingOut sc); simpl in Hrep.
  - cbv zeta. rewrite Hrep. eauto.
  - destruct (JS.ltb (alpha sc) 1); [eauto|].
    exists (alpha sc). rewrite setAlpha_self. destruct d; simpl in *. congruence.
Qed.

(** What the spawn section does to the current scene. *)
Definition stepped sc sc' : Prop :=
  sameUnits sc sc'
  /\ (spawnIdx sc <= spawnIdx sc' <= length (tiles sc))%nat
  /\ (done sc = true -> done sc' = true /\ spawnIdx sc' = spawnIdx sc)
  /\ (spawnIdx sc = length (tiles sc) -> done sc' = true)
  /\ (done sc = false -> (spawnIdx sc < length (tiles sc))%nat ->
      (spawnIdx sc < spawnIdx sc')%nat).

Lemma spawn_stepped seed d sc :
  scene d = Some sc ->
  (spawnIdx sc <= length (tiles sc))%nat -> (0 < tilesPerTick sc)%Z ->
  exists sc', scene (spawn mkUnits seed d) = Some sc' /\ stepped sc sc'.
Proof.
  intros Hsc Hle Htpt. unfold spawn. rewrite Hsc.
  destruct (done sc) eqn:Hdone; cbn [negb].
  - set (sc1 := mkScene _ _ _ _ _ _ _ _ _ _).
    assert (Hstep : stepped sc sc1).
    { unfold sc1, stepped, sameUnits.
      cbn [tiles tilesPerTick holdLimit spawnIdx done]. rewrite Hdone.
      repeat split; auto; lia. }
    assert (Hstep' : stepped sc
              (mkScene (type sc1) (tiles sc1) (tilesPerTick sc1) (holdLimit sc1)
                       (breatheSpeed sc1) (spawnIdx sc1) (done sc1) (holdAge sc1)
                       (alpha sc1) true)).
    { unfold sc1, stepped, sameUnits.
      cbn [tiles tilesPerTick holdLimit spawnIdx done]. rewrite Hdone.
      repeat split; auto; lia. }
    cbv zeta. fold sc1.
    destruct (_ && _); [|exists sc1; split; [reflexivity | exact Hstep]].
    unfold triggerNewScene. cbn [scene nextScene frame].
    destruct (_ && _); cbn [scene]; eauto.
  - cbn [scene].
    destruct (spawnLoop_spec (Z.to_nat (tilesPerTick sc)) (frame d) sc Hle)
      as (Hs & Hi & Hd & _).
    eexists. split; [reflexivity|]. unfold stepped.
    split; [exact Hs|]. rewrite Hi, Hd, Hdone. cbn [orb].
    split; [lia|]. split; [discriminate|]. split.
    + intros Heq. apply Nat.ltb_lt. lia.
    + intros _ Hlt. lia.
Qed.

(** One frame of a scene that is not replaced on it. *)
Lemma loop_stepped seed d sc :
  scene d = Some sc -> replaced sc = false ->
  (spawnIdx sc <= length (tiles sc))%nat -> (0 < tilesPerTick sc)%Z ->
  exists sc', scene (loop mkUnits seed d) = Some sc' /\ stepped sc sc'.
Proof.
  intros Hsc Hrep Hle Htpt. unfold loop. cbv zeta.
  destruct (crossFade_kept (mkState (scene d) (nextScene d) (frame d + 1)) sc Hsc Hrep)
    as [a Ha].
  rewrite Ha. cbn [scene].
  destruct (spawn_stepped seed
              (mkState (Some (setAlpha a sc)) (nextScene d) (frame d + 1))
              (setAlpha a sc) eq_refl Hle Htpt) as (sc' & Hsc' & Hst).
  exists sc'. split; [exact Hsc'|]. exact Hst.
Qed.

(** A scene that is spawning and not fading out completes: within
    [length tiles - spawnIdx + 1] frames [done] is set, with every unit
    spawned. *)
Lemma frames_complete m :
  forall d sc seeds,
    scene d = Some sc -> fadingOut sc = false -> done sc = false ->
    (spawnIdx sc <= length (tiles sc))%nat -> (0 < tilesPerTick sc)%Z ->
    (length (tiles sc) - spawnIdx sc <= m)%nat -> (m < length seeds)%nat ->
    exists n sc',
      (n <= length seeds)%nat
      /\ scene (frames (take n seeds) d) = Some sc'
      /\ done sc' = true
      /\ spawnIdx sc' = length (tiles sc')
      /\ sameUnits sc sc'.
Proof.
  induction m as [|m IH]; intros d sc seeds Hsc Hfade Hdone Hle Htpt Hm Hlen;
    (destruct seeds as [|s seeds]; [simpl in Hlen; lia|]).
  all: assert (Hrep : replaced sc = false) by (unfold replaced; rewrite Hfade; reflexivity).
  all: destruct (crossFade_kept (mkState (scene d) (nextScene d) (frame d + 1)) sc Hsc Hrep)
         as [a Ha].
  all: destruct (spawnLoop_spec (Z.to_nat (tilesPerTick sc)) (frame d + 1)
                   (setAlpha a sc) Hle) as (Hs & Hi & Hd & _ & _ & Hf).
  all: cbn [setAlpha tiles spawnIdx done fadingOut tilesPerTick] in Hi, Hd, Hf.
  all: assert (Hloop : loop mkUnits s d
               = mkState (Some (spawnLoop (Z.to_nat (tilesPerTick sc)) (frame d + 1)
                                  (setAlpha a sc)))
                         (nextScene d) (frame d + 1))
         by (unfold loop; cbv zeta; rewrite Ha; cbn [scene]; unfold spawn;
             cbn [scene setAlpha done nextScene frame tilesPerTick];
             rewrite Hdone; reflexivity).
  all: set (sc1 := spawnLoop _ _ _) in *.
  all: assert (Hs1 : sameUnits sc sc1) by exact Hs.
  all: pose proof (sameUnits_length _ _ Hs1) as Hl1.
  - exists 1%nat, sc1. split; [simpl; lia|]. cbn [take frames fold_left].
    rewrite Hloop. cbn [scene]. split; [reflexivity|].
    rewrite Hd, Hdone, Hi, Hl1. cbn [orb].
    split; [apply Nat.ltb_lt; lia|]. split; [lia | exact Hs1].
  - destruct (done sc1) eqn:Hd1.
    + exists 1%nat, sc1. split; [simpl; lia|]. cbn [take frames fold_left].
      rewrite Hloop. cbn [scene]. split; [reflexivity|]. split; [exact Hd1|].
      rewrite Hdone in Hd. cbn [orb] in Hd. symmetry in Hd. apply Nat.ltb_lt in Hd.
      rewrite Hi, Hl1. split; [lia | exact Hs1].
    + rewrite Hdone in Hd. cbn [orb] in Hd. symmetry in Hd. apply Nat.ltb_ge in Hd.
      destruct (IH (loop mkUnits s d) sc1 seeds) as (n & sc' & Hn & Hrun & Hdn & Hidx & Hsame).
      * rewrite Hloop. reflexivity.
      * rewrite Hf. exact Hfade.
      * exact Hd1.
      * rewrite Hi, Hl1. lia.
      * destruct Hs1 as (_ & -> & _). exact Htpt.
      * rewrite Hi, Hl1. lia.
      * simpl in Hlen. lia.
      * exists (S n), sc'. split; [simpl; lia|].
        split; [exact Hrun|]. split; [exact Hdn|]. split; [exact Hidx|].
        eapply sameUnits_trans; eassumption.
Qed.

(** *** A freshly built scene *)
Lemma next_nonneg x : 0 <= fst (next x).
Proof.
  unfold next. cbv zeta. cbn [fst].
  apply Qle_shift_div_l; [reflexivity|]. rewrite Qmult_0_l.
  change 0 with (inject_Z 0). rewrite <- Zle_Qle. apply Z.mod_pos_bound. reflexivity.
Qed.

Lemma buildScene_fresh seed :
  let sc := buildScene mkUnits seed in
  spawnIdx sc = 0%nat /\ done sc = false /\ alpha sc = 0 /\ fadingOut sc = false
  /\ holdAge sc = 0%Z /\ (2 <= tilesPerTick sc)%Z
  /\ Forall (fun u => born u = (-1)%Z) (tiles sc).
Proof.
  unfold buildScene. cbv zeta.
  destruct (next (makeRng seed)) as [u1 x1].
  destruct (next x1) as [u2 x2]. destruct (next x2) as [u3 x3].
  destruct (next x3) as [u4 x4] eqn:E4. destruct (next x4) as [u5 x5].
  cbn [spawnIdx done alpha fadingOut holdAge tilesPerTick tiles].
  repeat (split; [reflexivity|]). split.
  - pose proof (next_nonneg x3) as H. rewrite E4 in H. cbn [fst] in H.
    assert (H0 : (0 <= JS.floor (u4 * 8))%Z).
    { unfold JS.floor. change 0%Z with (Qfloor 0). apply Qfloor_resp_le.
      apply Qmult_le_0_compat; [exact H | discriminate]. }
    lia.
  - apply Forall_forall. intros u Hu.
    apply list_elem_of_In, in_map_iff in Hu as (b & <- & _). reflexivity.
Qed.
End Loop.

End DriverFacts.

(** * The specification's claims *)

(** Concrete inputs used below. *)
Definition demoTruchet : Truchet.t := Truchet.mk 60 30 (6 / 10).
Definition scenarioTruchet : Truchet.t := Truchet.mk 60 60 1.

Definition demoRows : list Q :=
  default [] (TruchetFacts.rowsOf demoTruchet 10 10).
Definition demoCols : list Q :=
  default [] (TruchetFacts.colsOf demoTruchet 10 10).
Definition demoState : Truchet.State :=
  default (Truchet.initial 42) (Truchet.cells demoTruchet 10 10 10 42).

Lemma Forall_one_forallb (l : list nat) :
  Forall (fun k => k = 1%nat) l -> forallb (Nat.eqb 1) l = true.
Proof.
  induction 1 as [|k l -> _ IH]; [reflexivity|]. simpl. exact IH.
Qed.

(** C1 (as amended).  In a run of [Truchet.generate] the events of every
    cell follow [CellTrace]: a cell larger than [minSize] consumes exactly
    one generator output for the split decision, then either its four
    quadrants follow in the order top-left, top-right, bottom-left,
    bottom-right, or it consumes a second output for the layout and pushes
    its two arcs; a cell not larger than [minSize] makes no split draw and
    consumes only the layout's output.  The arcs pushed are those of the
    log, and the numbers drawn are the outputs of the xorshift generator
    started at [seed | 0]: draws and geometry are a function of the seed. *)
Theorem truchet_draw_order (T : Truchet.t) (fuel : nat) (width height : Q) (seed : Z)
    (ys xs : list Q) (st : Truchet.State) :
  TruchetFacts.rowsOf T fuel height = Some ys ->
  TruchetFacts.colsOf T fuel width = Some xs ->
  Truchet.cells T fuel width height seed = Some st ->
  TruchetFacts.RunTrace T (JS.toInt32 seed) (TruchetFacts.grid ys xs)
                        (Truchet.log st) (Truchet.rng st)
  /\ Truchet.cmds st = TruchetFacts.arcsOf (Truchet.log st)
  /\ TruchetFacts.draws (Truchet.log st)
     = TruchetFacts.stream (JS.toInt32 seed)
                           (length (TruchetFacts.draws (Truchet.log st))).
Proof.
  intros Hy Hx Hst.
  destruct (TruchetFacts.cells_trace T _ _ _ _ _ _ _ Hy Hx Hst) as [Hrun Hcmds].
  split; [exact Hrun|]. split; [exact Hcmds|].
  apply (TruchetFacts.RunTrace_stream _ _ _ _ _ Hrun).
Qed.

Lemma truchet_draw_order_witness :
  TruchetFacts.RunTrace demoTruchet (JS.toInt32 42) (TruchetFacts.grid demoRows demoCols)
                        (Truchet.log demoState) (Truchet.rng demoState)
  /\ Truchet.cmds demoState = TruchetFacts.arcsOf (Truchet.log demoState)
  /\ TruchetFacts.draws (Truchet.log demoState)
     = TruchetFacts.stream (JS.toInt32 42)
                           (length (TruchetFacts.draws (Truchet.log demoState))).
Proof.
  apply (truchet_draw_order demoTruchet 10 10 10 42 demoRows demoCols demoState);
    vm_compute; reflexivity.
Defined.

(** C1 as stated fails.  With [baseSize = 60], [minSize = 30],
    [splitProb = 0.6], seed 42 on a 10 x 10 viewport some cell consumes two
    outputs between its entry and its arcs; and the guard of a cell of size
    15 (not above [minSize]) returns without advancing the generator. *)
Lemma truchet_one_draw_per_cell_fails :
  exists st,
    Truchet.cells demoTruchet 10 10 10 42 = Some st
    /\ ~ Forall (fun k => k = 1%nat) (TruchetFacts.drawsAfterEntry (Truchet.log st))
    /\ Truchet.splitGuard demoTruchet 15 st = (false, st).
Proof.
  exists demoState. split; [vm_compute; reflexivity|]. split.
  - intros H. apply Forall_one_forallb in H. vm_compute in H. discriminate.
  - reflexivity.
Qed.

(** C2 (as amended).  When [minSize >= baseSize] (and [baseSize > 0]) a run
    of [Truchet.generate] returns, without error, for every large enough
    fuel; every top-level cell of the overscanned grid is terminal (the log
    is one entry, one layout draw and one emission per grid cell, at size
    [baseSize]), and the result holds exactly two arcs per grid cell. *)
Theorem truchet_min_ge_base (T : Truchet.t) (M : JS.MathLib) (width height : Q) (seed : Z) :
  0 < Truchet.baseSize T ->
  Truchet.baseSize T <= Truchet.minSize T ->
  exists fuel0, forall fuel, (fuel0 <= fuel)%nat ->
    exists ys xs st r,
      TruchetFacts.rowsOf T fuel height = Some ys
      /\ TruchetFacts.colsOf T fuel width = Some xs
      /\ Truchet.cells T fuel width height seed = Some st
      /\ Truchet.generate T M fuel width height seed = Some r
      /\ Truchet.log st
         = TruchetFacts.terminalRun T (JS.toInt32 seed) (TruchetFacts.grid ys xs)
      /\ Permutation r (TruchetFacts.arcsOf (Truchet.log st))
      /\ length r = (2 * (length ys * length xs))%nat.
Proof.
  intros Hbase Hmin.
  assert (Hpos : 0 < Truchet.minSize T) by lra.
  destruct (TruchetFacts.cells_total T Hbase Hpos width height seed) as [fuel0 Htot].
  exists fuel0. intros fuel Hfuel.
  destruct (Htot fuel Hfuel) as (ys & xs & st & Hy & Hx & Hst).
  destruct (TruchetFacts.cells_trace T _ _ _ _ _ _ _ Hy Hx Hst) as [Hrun Hcmds].
  pose proof (TruchetFacts.RunTrace_small _ _ _ _ _ Hmin Hrun) as Hlog.
  exists ys, xs, st, (JS.sort (Truchet.byDistance M (width / 2) (height / 2)) (Truchet.cmds st)).
  split; [exact Hy|]. split; [exact Hx|]. split; [exact Hst|].
  split; [unfold Truchet.generate; rewrite Hst; reflexivity|].
  split; [exact Hlog|].
  assert (Hperm : Permutation
                    (JS.sort (Truchet.byDistance M (width / 2) (height / 2)) (Truchet.cmds st))
                    (TruchetFacts.arcsOf (Truchet.log st))).
  { rewrite JSFacts.sort_perm, Hcmds. reflexivity. }
  split; [exact Hperm|].
  rewrite (Permutation_length Hperm), Hlog, TruchetFacts.arcsOf_terminalRun_length,
    TruchetFacts.grid_length.
  reflexivity.
Qed.

Lemma truchet_min_ge_base_witness :
  exists fuel0, forall fuel, (fuel0 <= fuel)%nat ->
    exists ys xs st r,
      TruchetFacts.rowsOf scenarioTruchet fuel 60 = Some ys
      /\ TruchetFacts.colsOf scenarioTruchet fuel 60 = Some xs
      /\ Truchet.cells scenarioTruchet fuel 60 60 1 = Some st
      /\ Truchet.generate scenarioTruchet RefMath.lib fuel 60 60 1 = Some r
      /\ Truchet.log st
         = TruchetFacts.terminalRun scenarioTruchet (JS.toInt32 1) (TruchetFacts.grid ys xs)
      /\ Permutation r (TruchetFacts.arcsOf (Truchet.log st))
      /\ length r = (2 * (length ys * length xs))%nat.
Proof.
  apply (truchet_min_ge_base scenarioTruchet RefMath.lib 60 60 1); simpl; lra.
Defined.

(** C2 as stated fails.  For [baseSize = minSize = 60], [splitProb = 1],
    seed 1 on a 60 x 60 viewport the grid has the rows and columns
    -60, 0, 60 (one cell of overscan on each side): nine terminal cells and
    eighteen arcs, not one cell and two arcs. *)
Lemma truchet_scenario_has_18_arcs :
  exists r,
    Truchet.generate scenarioTruchet RefMath.lib 10 60 60 1 = Some r
    /\ TruchetFacts.rowsOf scenarioTruchet 10 60 = Some [-60; -60 + 60; -60 + 60 + 60]
    /\ TruchetFacts.colsOf scenarioTruchet 10 60 = Some [-60; -60 + 60; -60 + 60 + 60]
    /\ length r = 18%nat
    /\ length r <> 2%nat.
Proof.
  destruct (Truchet.generate scenarioTruchet RefMath.lib 10 60 60 1) as [r|] eqn:E;
    [|vm_compute in E; discriminate].
  exists r. split; [reflexivity|]. split; [reflexivity|]. split; [reflexivity|].
  assert (Hlen : option_map (@length _) (Truchet.generate scenarioTruchet RefMath.lib 10 60 60 1)
                 = Some 18%nat) by (vm_compute; reflexivity).
  rewrite E in Hlen. injection Hlen as Hlen. rewrite Hlen. split; [reflexivity | discriminate].
Qed.



Definition demoHat : HatTiling.t := HatTiling.mk 28 0.
Definition demoTiles : list HatTiling.Tile :=
  default [] (HatTiling.generateTiles demoHat RefMath.lib 10 10 10).
Definition demoCmds : list Truchet.Arc :=
  default [] (Truchet.generate demoTruchet RefMath.lib 10 10 10 42).

(** C3.  Both generators are deterministic.  A call is a function of the
    object's fields and its arguments; the only freedom the model leaves a
    run is its fuel, and two runs that return agree whatever their fuel:
    [generateTiles] gives the same tiles in the same order, [generate] the
    same commands in the same order.  The numbers [generate] draws are
    exactly the successive outputs of the xorshift generator started at
    [seed | 0], and the generator ends in the state reached after as many
    steps. *)
Theorem generators_deterministic (H : HatTiling.t) (T : Truchet.t) (M : JS.MathLib)
    (width height : Q) (seed : Z) (fuel1 fuel2 : nat)
    (tiles1 tiles2 : list HatTiling.Tile) (cmds1 cmds2 : list Truchet.Arc)
    (st : Truchet.State) :
  HatTiling.generateTiles H M fuel1 width height = Some tiles1 ->
  HatTiling.generateTiles H M fuel2 width height = Some tiles2 ->
  Truchet.generate T M fuel1 width height seed = Some cmds1 ->
  Truchet.generate T M fuel2 width height seed = Some cmds2 ->
  Truchet.cells T fuel1 width height seed = Some st ->
  tiles1 = tiles2
  /\ cmds1 = cmds2
  /\ TruchetFacts.draws (Truchet.log st)
     = TruchetFacts.stream (JS.toInt32 seed) (length (TruchetFacts.draws (Truchet.log st)))
  /\ Truchet.rng st
     = TruchetFacts.advance (JS.toInt32 seed) (length (TruchetFacts.draws (Truchet.log st))).
Proof.
  intros Ht1 Ht2 Hc1 Hc2 Hst.
  split; [|split].
  - destruct (Nat.le_ge_cases fuel1 fuel2) as [Hle|Hle].
    + pose proof (HatFacts.generateTiles_mono H M _ _ _ _ _ Hle Ht1) as E. congruence.
    + pose proof (HatFacts.generateTiles_mono H M _ _ _ _ _ Hle Ht2) as E. congruence.
  - destruct (Nat.le_ge_cases fuel1 fuel2) as [Hle|Hle].
    + pose proof (TruchetFacts.generate_mono T M _ _ _ _ _ _ Hle Hc1) as E. congruence.
    + pose proof (TruchetFacts.generate_mono T M _ _ _ _ _ _ Hle Hc2) as E. congruence.
  - apply (TruchetFacts.cells_stream T _ _ _ _ _ Hst).
Qed.

Lemma generators_deterministic_witness :
  demoTiles = demoTiles
  /\ demoCmds = demoCmds
  /\ TruchetFacts.draws (Truchet.log demoState)
     = TruchetFacts.stream (JS.toInt32 42)
                           (length (TruchetFacts.draws (Truchet.log demoState)))
  /\ Truchet.rng demoState
     = TruchetFacts.advance (JS.toInt32 42)
                            (length (TruchetFacts.draws (Truchet.log demoState))).
Proof.
  apply (generators_deterministic demoHat demoTruchet RefMath.lib 10 10 42 10 11
                                  demoTiles demoTiles demoCmds demoCmds demoState);
    vm_compute; reflexivity.
Defined.

(** C7.  The tiles [generateTiles] returns are in ascending order of
    [Math.hypot(cx - width/2, cy - height/2)], the distance of the tile's
    centre from the viewport centre, and the commands [generate] returns in
    ascending order of the same distance of each arc's [(midX, midY)]:
    every element is at most as far as every later one. *)
Theorem outputs_sorted_by_distance (H : HatTiling.t) (T : Truchet.t) (M : JS.MathLib)
    (width height : Q) (seed : Z) (fuel : nat)
    (tiles : list HatTiling.Tile) (cmds : list Truchet.Arc) :
  HatTiling.generateTiles H M fuel width height = Some tiles ->
  Truchet.generate T M fuel width height seed = Some cmds ->
  StronglySorted (fun a b => HatFacts.distance M width height a
                             <= HatFacts.distance M width height b) tiles
  /\ StronglySorted (fun a b => TruchetFacts.arcDistance M width height a
                                <= TruchetFacts.arcDistance M width height b) cmds.
Proof.
  intros Ht Hc. split.
  - eapply HatFacts.generateTiles_sorted, Ht.
  - eapply TruchetFacts.generate_sorted, Hc.
Qed.

Lemma outputs_sorted_by_distance_witness :
  StronglySorted (fun a b => HatFacts.distance RefMath.lib 10 10 a
                             <= HatFacts.distance RefMath.lib 10 10 b) demoTiles
  /\ StronglySorted (fun a b => TruchetFacts.arcDistance RefMath.lib 10 10 a
                                <= TruchetFacts.arcDistance RefMath.lib 10 10 b) demoCmds.
Proof.
  apply (outputs_sorted_by_distance demoHat demoTruchet RefMath.lib 10 10 42 10);
    vm_compute; reflexivity.
Defined.

(** C9 (as amended).  Every tile [generateTiles] returns is the fixed Hat
    outline placed at the tile's centre in one of the eight orientations:
    thirteen stored points of which the last is a copy of the first.  The
    closing point is stored, not implied, so the points of a tile are not
    pairwise distinct; the outline has twelve distinct kite-grid vertices. *)
Theorem hat_tiles_store_closing_point (H : HatTiling.t) (M : JS.MathLib) (fuel : nat)
    (width height : Q) (tiles : list HatTiling.Tile) :
  HatTiling.generateTiles H M fuel width height = Some tiles ->
  Forall (fun tl => HatFacts.isHat H M tl
                    /\ length (HatTiling.poly tl) = 13%nat
                    /\ head (HatTiling.poly tl) = last (HatTiling.poly tl)
                    /\ ~ NoDup (HatTiling.poly tl)) tiles
  /\ length (removelast HatTiling.kiteVerts) = 12%nat
  /\ NoDup (removelast HatTiling.kiteVerts).
Proof.
  intros Ht. split; [|split; [reflexivity | apply HatFacts.kiteVerts_closed]].
  eapply Forall_impl; [apply (HatFacts.generateTiles_hats _ _ _ _ _ _ Ht)|].
  intros tl Hhat. cbv beta.
  destruct (HatFacts.isHat_closed H M tl Hhat) as [Hlen Hclosed].
  split; [exact Hhat|]. split; [exact Hlen|]. split; [exact Hclosed|].
  apply (HatFacts.isHat_repeats H M tl Hhat).
Qed.

Lemma hat_tiles_store_closing_point_witness :
  Forall (fun tl => HatFacts.isHat demoHat RefMath.lib tl
                    /\ length (HatTiling.poly tl) = 13%nat
                    /\ head (HatTiling.poly tl) = last (HatTiling.poly tl)
                    /\ ~ NoDup (HatTiling.poly tl)) demoTiles
  /\ length (removelast HatTiling.kiteVerts) = 12%nat
  /\ NoDup (removelast HatTiling.kiteVerts).
Proof.
  apply (hat_tiles_store_closing_point demoHat RefMath.lib 10 10 10).
  vm_compute; reflexivity.
Defined.

(** C9 as stated fails.  The first tile of [HatTiling(28, 0)] on a 10 x 10
    viewport stores thirteen points whose last equals its first: its
    points are not thirteen distinct vertices with the closure implied. *)
Lemma hat_tile_points_not_distinct :
  exists tl rest,
    HatTiling.generateTiles demoHat RefMath.lib 10 10 10 = Some (tl :: rest)
    /\ length (HatTiling.poly tl) = 13%nat
    /\ head (HatTiling.poly tl) = last (HatTiling.poly tl)
    /\ ~ NoDup (HatTiling.poly tl).
Proof.
  assert (Hgen : HatTiling.generateTiles demoHat RefMath.lib 10 10 10 = Some demoTiles)
    by (vm_compute; reflexivity).
  assert (Hne : exists tl rest, demoTiles = tl :: rest)
    by (eexists; eexists; vm_compute; reflexivity).
  destruct Hne as (tl & rest & Hd). rewrite Hd in Hgen.
  exists tl, rest. split; [exact Hgen|].
  pose proof (HatFacts.generateTiles_hats _ _ _ _ _ _ Hgen) as HF.
  apply Forall_cons in HF as [Hhat _].
  destruct (HatFacts.isHat_closed _ _ _ Hhat) as [Hlen Hclosed].
  split; [exact Hlen|]. split; [exact Hclosed|].
  apply (HatFacts.isHat_repeats _ _ _ Hhat).
Qed.



Definition demoRosette : Rosette.t := Rosette.mk 8 3 100.

(** C5.  For a valid configuration ([numPetals >= 3], [connectEveryN >= 1],
    [outerRadius > 0]) [build] returns, at every centre, exactly seven
    phases.  Whenever [tile] returns, it returns seven merged phases, and
    each merged phase has as many elements as the same phase of all placed
    motifs together (it is their concatenation in placement order).  With a
    positive [Math.sqrt(3)] the loops of [tile] end, so it does return. *)
Theorem rosette_seven_phases (T : Rosette.t) (M : JS.MathLib) :
  (3 <= Rosette.numPetals T)%nat ->
  (1 <= Rosette.connectEveryN T)%Z ->
  0 < Rosette.outerRadius T ->
  (forall cx cy, exists ph, Rosette.build T M cx cy = Some ph /\ length ph = 7%nat)
  /\ (forall fuel width height rows cols merged,
        RosetteFacts.rowsOf T M fuel height = Some rows ->
        RosetteFacts.colsOf T fuel width = Some cols ->
        Rosette.tile T M fuel width height = Some merged ->
        length merged = 7%nat
        /\ exists builds,
             Forall2 (fun c b => Rosette.build T M (fst c) (snd c) = Some b)
                     (RosetteFacts.centres T M rows cols) builds
             /\ forall pi,
                  nth pi merged [] = concat (map (fun b => nth pi b []) builds)
                  /\ length (nth pi merged [])
                     = sum_list (map (fun b => length (nth pi b [])) builds))
  /\ (0 < JS.sqrt M 3 ->
      forall width height, exists fuel, is_Some (Rosette.tile T M fuel width height)).
Proof.
  intros Hn Hk Hr. split; [|split].
  - intros cx cy. destruct (RosetteFacts.build_total T M cx cy ltac:(lia)) as [ph Hph].
    exists ph. split; [exact Hph | apply (RosetteFacts.build_length T M _ _ _ Hph)].
  - intros fuel width height rows cols merged Hrows Hcols Ht.
    split; [apply (RosetteFacts.tile_length T M _ _ _ _ Ht)|].
    destruct (RosetteFacts.tile_merged T M _ _ _ _ _ _ Hrows Hcols Ht)
      as (builds & HF & _ & Hnth).
    exists builds. split; [exact HF|]. intros pi.
    assert (E : nth pi merged [] = concat (map (fun b => nth pi b []) builds)).
    { rewrite Hnth. destruct pi as [|[|[|[|[|[|[|pi]]]]]]]; try reflexivity.
      cbn [replicate Rosette.maxPhases nth]. destruct pi; reflexivity. }
    split; [exact E|]. rewrite E, length_concat.
    f_equal. unfold fmap, list_fmap. rewrite map_map. reflexivity.
  - intros H3 width height.
    destruct (RosetteFacts.tile_total T M width height Hr H3 ltac:(lia)) as [fuel0 Hf].
    exists fuel0. destruct (Hf fuel0 (Nat.le_refl _)) as (rows & cols & merged & _ & _ & E).
    rewrite E. eauto.
Qed.

Lemma rosette_seven_phases_witness :
  (forall cx cy, exists ph,
      Rosette.build demoRosette RefMath.lib cx cy = Some ph /\ length ph = 7%nat)
  /\ (forall fuel width height rows cols merged,
        RosetteFacts.rowsOf demoRosette RefMath.lib fuel height = Some rows ->
        RosetteFacts.colsOf demoRosette fuel width = Some cols ->
        Rosette.tile demoRosette RefMath.lib fuel width height = Some merged ->
        length merged = 7%nat
        /\ exists builds,
             Forall2 (fun c b => Rosette.build demoRosette RefMath.lib (fst c) (snd c) = Some b)
                     (RosetteFacts.centres demoRosette RefMath.lib rows cols) builds
             /\ forall pi,
                  nth pi merged [] = concat (map (fun b => nth pi b []) builds)
                  /\ length (nth pi merged [])
                     = sum_list (map (fun b => length (nth pi b [])) builds))
  /\ (0 < JS.sqrt RefMath.lib 3 ->
      forall width height,
        exists fuel, is_Some (Rosette.tile demoRosette RefMath.lib fuel width height)).
Proof.
  apply (rosette_seven_phases demoRosette RefMath.lib); [simpl; lia | simpl; lia | reflexivity].
Defined.

Definition demoExt : Rosette.Ext :=
  Rosette.mkExt (Rosette.mkLine 0 0 77 64) (Point.mk 77 64).




(** A scene builder for the examples: five units whatever the type. *)
Definition demoUnits (ty : option Driver.SceneType) (x : Z) : list unit :=
  [tt; tt; tt; tt; tt].



(** * Further properties of the code *)

(** ** The xorshift generator (patterns.js, lines 329-332; render-pattern.js,
    lines 53-56) *)

Module Xorshift.

Local Open Scope Z_scope.

(** The two states from which the next state is 0. *)
Definition stuck : Z := 0.
Definition collapsing : Z := -67100673.

Lemma toInt32_range (z : Z) : - 2 ^ 31 <= JS.toInt32 z < 2 ^ 31.
Proof.
  unfold JS.toInt32. pose proof (Z.mod_pos_bound (z + 2 ^ 31) (2 ^ 32) ltac:(lia)). lia.
Qed.

Lemma toInt32_mod (z : Z) : JS.toInt32 z mod 2 ^ 32 = z mod 2 ^ 32.
Proof.
  unfold JS.toInt32.
  rewrite <- Zminus_mod_idemp_l, Z.mod_mod by lia.
  rewrite Zminus_mod_idemp_l. f_equal. lia.
Qed.

Lemma toInt32_idem (z : Z) : JS.toInt32 (JS.toInt32 z) = JS.toInt32 z.
Proof. apply HatFacts.toInt32_small, toInt32_range. Qed.

(** Two 32-bit integers that agree modulo [2^32] are equal. *)
Lemma int32_mod_inj (a b : Z) :
  - 2 ^ 31 <= a < 2 ^ 31 -> - 2 ^ 31 <= b < 2 ^ 31 ->
  a mod 2 ^ 32 = b mod 2 ^ 32 -> a = b.
Proof.
  intros Ha Hb H.
  pose proof (Z.div_mod a (2 ^ 32) ltac:(lia)) as Da.
  pose proof (Z.div_mod b (2 ^ 32) ltac:(lia)) as Db.
  pose proof (Z.mod_pos_bound a (2 ^ 32) ltac:(lia)).
  pose proof (Z.mod_pos_bound b (2 ^ 32) ltac:(lia)).
  rewrite H in Da. nia.
Qed.

Lemma toInt32_congr (a b : Z) :
  a mod 2 ^ 32 = b mod 2 ^ 32 -> JS.toInt32 a = JS.toInt32 b.
Proof.
  intros H. apply int32_mod_inj; try apply toInt32_range.
  rewrite !toInt32_mod. exact H.
Qed.

Lemma lxor_mod (a b n : Z) :
  0 <= n -> Z.lxor a b mod 2 ^ n = Z.lxor (a mod 2 ^ n) (b mod 2 ^ n).
Proof.
  intros Hn. apply Z.bits_inj'. intros i Hi.
  rewrite Z.lxor_spec.
  destruct (Z.lt_ge_cases i n) as [Hlt|Hge].
  - rewrite !Z.mod_pow2_bits_low by lia. apply Z.lxor_spec.
  - rewrite !Z.mod_pow2_bits_high by lia. reflexivity.
Qed.

(** [x ^ y] modulo [2^32]. *)
Lemma xor32_mod (x y : Z) :
  JS.xor32 x y mod 2 ^ 32 = Z.lxor (x mod 2 ^ 32) (y mod 2 ^ 32).
Proof.
  unfold JS.xor32. rewrite toInt32_mod, lxor_mod, !toInt32_mod by lia. reflexivity.
Qed.

(** [x << k] modulo [2^32]. *)
Lemma shl32_mod (x k : Z) :
  0 <= k -> JS.shl32 x k mod 2 ^ 32 = (x * 2 ^ k) mod 2 ^ 32.
Proof.
  intros Hk. unfold JS.shl32. rewrite toInt32_mod, Z.shiftl_mul_pow2 by lia.
  rewrite <- Zmult_mod_idemp_l, toInt32_mod, Zmult_mod_idemp_l. reflexivity.
Qed.

(** The map [x ^ (x << k)], on residues. *)
Definition mix (k x : Z) : Z := Z.lxor (x mod 2 ^ 32) ((x * 2 ^ k) mod 2 ^ 32).

Lemma step_shl_mod (x k : Z) :
  0 <= k -> JS.xor32 x (JS.shl32 x k) mod 2 ^ 32 = mix k x.
Proof.
  intros Hk. rewrite xor32_mod, shl32_mod by lia. reflexivity.
Qed.

Lemma odd_multiple (c z : Z) :
  Z.gcd (2 ^ 32) c = 1 -> (c * z) mod 2 ^ 32 = 0 -> z mod 2 ^ 32 = 0.
Proof.
  intros Hc H. apply Z.mod_divide in H; [|lia].
  apply Z.mod_divide; [lia|]. eapply Z.gauss; eassumption.
Qed.

(** [mix k] has no fixed residue but 0, and is one to one. *)
Lemma mix_zero (k x : Z) : k = 5 \/ k = 13 -> mix k x = 0 -> x mod 2 ^ 32 = 0.
Proof.
  intros Hk H. unfold mix in H. apply Z.lxor_eq in H.
  apply (odd_multiple (2 ^ k - 1)); [destruct Hk as [-> | ->]; reflexivity|].
  replace ((2 ^ k - 1) * x) with (x * 2 ^ k - x) by ring.
  rewrite Zminus_mod, <- H, Z.sub_diag. reflexivity.
Qed.

Lemma mix_lxor (k x y : Z) :
  0 <= k -> Z.lxor (mix k x) (mix k y) = mix k (Z.lxor x y).
Proof.
  intros Hk. unfold mix.
  rewrite <- !Z.shiftl_mul_pow2 by lia.
  rewrite Z.shiftl_lxor, !lxor_mod by lia.
  set (a := x mod 2 ^ 32). set (b := Z.shiftl x k mod 2 ^ 32).
  set (c := y mod 2 ^ 32). set (d := Z.shiftl y k mod 2 ^ 32).
  rewrite !Z.lxor_assoc. f_equal.
  rewrite <- !Z.lxor_assoc. f_equal. apply Z.lxor_comm.
Qed.

Lemma mix_inj (k x y : Z) :
  k = 5 \/ k = 13 -> mix k x = mix k y -> x mod 2 ^ 32 = y mod 2 ^ 32.
Proof.
  intros Hk H.
  assert (H0 : mix k (Z.lxor x y) = 0).
  { rewrite <- mix_lxor by lia. rewrite H. apply Z.lxor_nilpotent. }
  apply mix_zero in H0; [|exact Hk].
  rewrite lxor_mod in H0 by lia. apply Z.lxor_eq in H0. exact H0.
Qed.

(** [x ^ (x >> 17)] on a 32-bit integer: never negative, and 0 only for
    0 and -1. *)
Lemma sar_range (a : Z) : - 2 ^ 31 <= a < 2 ^ 31 -> - 2 ^ 14 <= Z.shiftr a 17 < 2 ^ 14.
Proof.
  intros Ha. rewrite Z.shiftr_div_pow2 by lia.
  change (2 ^ 17) with 131072. change (2 ^ 31) with 2147483648 in Ha.
  change (2 ^ 14) with 16384.
  pose proof (Z.div_mod a 131072 ltac:(lia)).
  pose proof (Z.mod_pos_bound a 131072 ltac:(lia)). lia.
Qed.

Lemma lxor_bound (a b : Z) :
  0 <= a < 2 ^ 31 -> 0 <= b < 2 ^ 31 -> 0 <= Z.lxor a b < 2 ^ 31.
Proof.
  intros Ha Hb.
  assert (H0 : 0 <= Z.lxor a b) by (apply Z.lxor_nonneg; lia).
  split; [exact H0|].
  destruct (Z.eq_dec (Z.lxor a b) 0) as [->|Hne]; [lia|].
  apply Z.log2_lt_pow2; [lia|].
  pose proof (Z.log2_lxor a b ltac:(lia) ltac:(lia)) as Hl.
  assert (La : Z.log2 a < 31).
  { destruct (Z.eq_dec a 0) as [->|]; [simpl; lia|]. apply Z.log2_lt_pow2; lia. }
  assert (Lb : Z.log2 b < 31).
  { destruct (Z.eq_dec b 0) as [->|]; [simpl; lia|]. apply Z.log2_lt_pow2; lia. }
  lia.
Qed.

Lemma lnot_eq (a : Z) : Z.lnot a = - a - 1.
Proof. unfold Z.lnot. lia. Qed.

Lemma lxor_same_sign (a b : Z) :
  - 2 ^ 31 <= a < 2 ^ 31 -> - 2 ^ 31 <= b < 2 ^ 31 -> (0 <= a <-> 0 <= b) ->
  0 <= Z.lxor a b < 2 ^ 31.
Proof.
  intros Ha Hb Hs. destruct (Z.le_gt_cases 0 a) as [H0|H0].
  - apply lxor_bound; lia.
  - rewrite <- Z.lxor_lnot_lnot. apply lxor_bound; rewrite lnot_eq; lia.
Qed.

Definition step_sar (a : Z) : Z := JS.xor32 a (JS.sar32 a 17).

Lemma step_sar_eq (a : Z) :
  - 2 ^ 31 <= a < 2 ^ 31 -> step_sar a = Z.lxor a (Z.shiftr a 17).
Proof.
  intros Ha. unfold step_sar, JS.xor32, JS.sar32.
  rewrite (HatFacts.toInt32_small a Ha).
  pose proof (sar_range a Ha) as Hs.
  rewrite (HatFacts.toInt32_small (Z.shiftr a 17)) by lia.
  apply HatFacts.toInt32_small.
  assert (0 <= Z.lxor a (Z.shiftr a 17) < 2 ^ 31); [|lia].
  apply lxor_same_sign; [exact Ha | lia |].
  rewrite Z.shiftr_nonneg. reflexivity.
Qed.

Lemma step_sar_nonneg (a : Z) : - 2 ^ 31 <= a < 2 ^ 31 -> 0 <= step_sar a < 2 ^ 31.
Proof.
  intros Ha. rewrite (step_sar_eq a Ha).
  apply lxor_same_sign; [exact Ha | pose proof (sar_range a Ha); lia |].
  rewrite Z.shiftr_nonneg. reflexivity.
Qed.

Lemma step_sar_zero (a : Z) :
  - 2 ^ 31 <= a < 2 ^ 31 -> step_sar a = 0 -> a = 0 \/ a = -1.
Proof.
  intros Ha H. rewrite (step_sar_eq a Ha) in H. apply Z.lxor_eq in H.
  rewrite Z.shiftr_div_pow2 in H by lia. change (2 ^ 17) with 131072 in H.
  pose proof (Z.div_mod a 131072 ltac:(lia)).
  pose proof (Z.mod_pos_bound a 131072 ltac:(lia)). lia.
Qed.

(** The generator's step, in its three parts.  For this one equation
    the step is unfolded before the 32-bit operators. *)
#[local] Strategy -1000 [Truchet.xorshift step_sar].

Lemma xorshift_parts (x : Z) :
  Truchet.xorshift x
  = JS.xor32 (step_sar (JS.xor32 x (JS.shl32 x 13)))
             (JS.shl32 (step_sar (JS.xor32 x (JS.shl32 x 13))) 5).
Proof. unfold Truchet.xorshift, step_sar. cbv zeta. reflexivity. Qed.

(** [makeRng]'s closure steps the same generator. *)
Lemma next_eq (x : Z) :
  Driver.next x = (Truchet.output (Truchet.xorshift x), Truchet.xorshift x).
Proof. unfold Driver.next, Truchet.xorshift, Truchet.output. cbv zeta. reflexivity. Qed.

#[local] Strategy 1000 [Truchet.xorshift].
#[local] Strategy 0 [step_sar].

Lemma xor32_range (x y : Z) : - 2 ^ 31 <= JS.xor32 x y < 2 ^ 31.
Proof. apply toInt32_range. Qed.

Lemma xorshift_range (x : Z) : - 2 ^ 31 <= Truchet.xorshift x < 2 ^ 31.
Proof. rewrite xorshift_parts. apply xor32_range. Qed.

(** The next state is 0 exactly from the states 0 and [collapsing]. *)
Lemma xorshift_zero_iff (x : Z) :
  Truchet.xorshift x = 0 <-> JS.toInt32 x = stuck \/ JS.toInt32 x = collapsing.
Proof.
  rewrite xorshift_parts.
  set (x1 := JS.xor32 x (JS.shl32 x 13)).
  assert (R1 : - 2 ^ 31 <= x1 < 2 ^ 31) by apply xor32_range.
  set (x2 := step_sar x1).
  assert (R2 : 0 <= x2 < 2 ^ 31) by apply (step_sar_nonneg x1 R1).
  assert (M1 : x1 mod 2 ^ 32 = mix 13 x) by (apply step_shl_mod; lia).
  assert (M3 : JS.xor32 x2 (JS.shl32 x2 5) mod 2 ^ 32 = mix 5 x2) by (apply step_shl_mod; lia).
  split.
  - intros H3. rewrite H3 in M3. symmetry in M3. apply mix_zero in M3; [|lia].
    rewrite Z.mod_small in M3 by lia.
    destruct (step_sar_zero x1 R1 M3) as [E1|E1]; rewrite E1 in M1; symmetry in M1.
    + left. apply mix_zero in M1; [|lia].
      apply int32_mod_inj; [apply toInt32_range | unfold stuck; lia |].
      rewrite toInt32_mod. exact M1.
    + right. change (-1 mod 2 ^ 32) with (mix 13 collapsing) in M1.
      apply mix_inj in M1; [|lia].
      apply int32_mod_inj; [apply toInt32_range | unfold collapsing; lia |].
      rewrite toInt32_mod. exact M1.
  - intros H.
    assert (E1 : x1 = 0 \/ x1 = -1).
    { destruct H as [H|H]; [left|right];
        (apply int32_mod_inj; [exact R1 | lia |]); rewrite M1;
        unfold mix; rewrite <- (toInt32_mod x), <- (Zmult_mod_idemp_l x),
          <- (toInt32_mod x), H; reflexivity. }
    assert (E2 : x2 = 0) by (unfold x2; destruct E1 as [->| ->]; reflexivity).
    rewrite E2. reflexivity.
Qed.

(** The residue that [mix 5] sends to [collapsing]: its bit 31 is set. *)
Definition unreachable : Z := 2993921055.

(** No state has [collapsing] as its next state. *)
Lemma xorshift_not_collapsing (x : Z) : Truchet.xorshift x <> collapsing.
Proof.
  rewrite xorshift_parts.
  set (x1 := JS.xor32 x (JS.shl32 x 13)).
  assert (R1 : - 2 ^ 31 <= x1 < 2 ^ 31) by apply xor32_range.
  set (x2 := step_sar x1).
  assert (R2 : 0 <= x2 < 2 ^ 31) by apply (step_sar_nonneg x1 R1).
  assert (M3 : JS.xor32 x2 (JS.shl32 x2 5) mod 2 ^ 32 = mix 5 x2) by (apply step_shl_mod; lia).
  intros H. rewrite H in M3.
  change (collapsing mod 2 ^ 32) with (mix 5 unreachable) in M3.
  apply mix_inj in M3; [|lia].
  rewrite (Z.mod_small x2) in M3 by lia.
  change (unreachable mod 2 ^ 32) with 2993921055 in M3. lia.
Qed.

(** From a state other than the two, the generator never reaches 0. *)
Lemma advance_nonzero (k : nat) (g : Z) :
  JS.toInt32 g <> stuck -> JS.toInt32 g <> collapsing ->
  TruchetFacts.advance g (S k) <> 0.
Proof.
  revert g. induction k as [|k IH]; intros g H0 H1.
  - cbn [TruchetFacts.advance]. rewrite xorshift_zero_iff. tauto.
  - change (TruchetFacts.advance g (S (S k)))
      with (TruchetFacts.advance (Truchet.xorshift g) (S k)).
    apply IH; rewrite (HatFacts.toInt32_small _ (xorshift_range g)).
    + unfold stuck. rewrite xorshift_zero_iff. tauto.
    + apply xorshift_not_collapsing.
Qed.

(** The residue that [mix 5] sends to all ones: its bit 31 is set. *)
Definition unreachable_ones : Z := 3253763103.

(** No state has -1 as its next state: [rand] never returns 1. *)
Lemma xorshift_not_ones (x : Z) : Truchet.xorshift x <> -1.
Proof.
  rewrite xorshift_parts.
  set (x1 := JS.xor32 x (JS.shl32 x 13)).
  assert (R1 : - 2 ^ 31 <= x1 < 2 ^ 31) by apply xor32_range.
  set (x2 := step_sar x1).
  assert (R2 : 0 <= x2 < 2 ^ 31) by apply (step_sar_nonneg x1 R1).
  assert (M3 : JS.xor32 x2 (JS.shl32 x2 5) mod 2 ^ 32 = mix 5 x2) by (apply step_shl_mod; lia).
  intros H. rewrite H in M3.
  change (-1 mod 2 ^ 32) with (mix 5 unreachable_ones) in M3.
  apply mix_inj in M3; [|lia].
  rewrite (Z.mod_small x2) in M3 by lia.
  change (unreachable_ones mod 2 ^ 32) with 3253763103 in M3. lia.
Qed.

Lemma output_range (x : Z) : (0 <= Truchet.output x <= 1)%Q.
Proof.
  unfold Truchet.output, JS.toUint32.
  pose proof (Z.mod_pos_bound x (2 ^ 32) ltac:(lia)) as [H0 H1].
  set (u := x mod 2 ^ 32) in *. clearbody u.
  assert (Hu0 : (0 <= inject_Z u)%Q)
    by (change 0%Q with (inject_Z 0); rewrite <- Zle_Qle; exact H0).
  assert (Hu1 : (inject_Z u <= 4294967295)%Q).
  { change 4294967295%Q with (inject_Z 4294967295). rewrite <- Zle_Qle.
    change (2 ^ 32) with 4294967296 in H1. lia. }
  split.
  - apply Qle_shift_div_l; [reflexivity | lra].
  - apply Qle_shift_div_r; [reflexivity | lra].
Qed.

(** The number [rand] returns is below 1. *)
Lemma rand_lt_1 (x : Z) : (Truchet.output (Truchet.xorshift x) < 1)%Q.
Proof.
  pose proof (xorshift_range x) as Hr. pose proof (xorshift_not_ones x) as Hn.
  set (y := Truchet.xorshift x) in *. clearbody y.
  unfold Truchet.output, JS.toUint32.
  pose proof (Z.mod_pos_bound y (2 ^ 32) ltac:(lia)) as [H0 H1].
  assert (Hm : y mod 2 ^ 32 <> 2 ^ 32 - 1).
  { intros E. apply Hn. apply int32_mod_inj; [exact Hr | lia | rewrite E; reflexivity]. }
  apply Qlt_shift_div_r; [reflexivity|]. rewrite Qmult_1_l.
  change 4294967295%Q with (inject_Z 4294967295). rewrite <- Zlt_Qlt.
  change (2 ^ 32) with 4294967296 in *. lia.
Qed.

Lemma advance_range (k : nat) (g : Z) :
  - 2 ^ 31 <= TruchetFacts.advance g (S k) < 2 ^ 31.
Proof.
  revert g. induction k as [|k IH]; intros g.
  - apply xorshift_range.
  - change (TruchetFacts.advance g (S (S k)))
      with (TruchetFacts.advance (Truchet.xorshift g) (S k)). apply IH.
Qed.

Lemma advance_succ (k : nat) (g : Z) :
  TruchetFacts.advance g (S k) = Truchet.xorshift (TruchetFacts.advance g k).
Proof.
  revert g. induction k as [|k IH]; intros g; [reflexivity|].
  change (TruchetFacts.advance g (S (S k)))
    with (TruchetFacts.advance (Truchet.xorshift g) (S k)).
  rewrite IH. reflexivity.
Qed.

(** A state other than 0 gives a positive number. *)
Lemma output_pos (x : Z) :
  - 2 ^ 31 <= x < 2 ^ 31 -> x <> 0 -> (0 < Truchet.output x)%Q.
Proof.
  intros Hx Hne. unfold Truchet.output, JS.toUint32.
  pose proof (Z.mod_pos_bound x (2 ^ 32) ltac:(lia)) as [H0 H1].
  assert (Hm : x mod 2 ^ 32 <> 0).
  { intros E. apply Hne. apply int32_mod_inj; [exact Hx | lia | exact E]. }
  apply Qlt_shift_div_l; [reflexivity|]. rewrite Qmult_0_l.
  change 0%Q with (inject_Z 0). rewrite <- Zlt_Qlt. lia.
Qed.

Lemma stream_advance (g : Z) (k : nat) :
  TruchetFacts.stream g k
  = map (fun i => Truchet.output (TruchetFacts.advance g (S i))) (seq 0 k).
Proof.
  revert g. induction k as [|k IH]; intros g; [reflexivity|].
  cbn [TruchetFacts.stream seq map]. f_equal.
  rewrite IH, <- seq_shift, map_map. reflexivity.
Qed.

Lemma stream_pos (g : Z) (k : nat) :
  JS.toInt32 g <> stuck -> JS.toInt32 g <> collapsing ->
  Forall (fun u => (0 < u)%Q) (TruchetFacts.stream g k).
Proof.
  intros H0 H1. rewrite stream_advance. apply Forall_forall. intros u Hu.
  apply list_elem_of_In, in_map_iff in Hu as (i & <- & _).
  apply output_pos; [apply advance_range | apply advance_nonzero; assumption].
Qed.

(** The states of the closure [makeRng(seed)] returns, call after call. *)
Definition state (seed : Z) (k : nat) : Z :=
  Nat.iter k (fun x => snd (Driver.next x)) (Driver.makeRng seed).

Lemma state_advance (seed : Z) (k : nat) :
  state seed k = TruchetFacts.advance (Driver.makeRng seed) k.
Proof.
  unfold state. induction k as [|k IH]; [reflexivity|].
  rewrite Nat.iter_succ, IH, next_eq, advance_succ. reflexivity.
Qed.

Lemma makeRng_int32 (seed : Z) : JS.toInt32 (Driver.makeRng seed) = Driver.makeRng seed.
Proof.
  unfold Driver.makeRng. destruct (JS.toInt32 seed =? 0); [reflexivity | apply toInt32_idem].
Qed.

Lemma makeRng_nonzero (seed : Z) : Driver.makeRng seed <> 0.
Proof.
  unfold Driver.makeRng. destruct (Z.eqb_spec (JS.toInt32 seed) 0); [discriminate | assumption].
Qed.

Lemma makeRng_collapsing (seed : Z) :
  Driver.makeRng seed = collapsing <-> JS.toInt32 seed = collapsing.
Proof.
  unfold Driver.makeRng. destruct (Z.eqb_spec (JS.toInt32 seed) 0) as [E|E].
  - rewrite E. split; discriminate.
  - reflexivity.
Qed.

(** Once 0, always 0. *)
Lemma advance_zero (k : nat) : TruchetFacts.advance 0 k = 0.
Proof.
  induction k as [|k IH]; [reflexivity|].
  rewrite advance_succ, IH. apply TruchetFacts.xorshift_0.
Qed.

End Xorshift.
(** ** Truchet: the terminal cells and their arcs *)

Module TruchetCells.
Import Truchet TruchetFacts.

#[local] Arguments xorshift : simpl never.
#[local] Arguments output : simpl never.
#[local] Arguments JS.ltb : simpl never.
#[local] Arguments JS.gtb : simpl never.

(** A terminal cell: its corner and its side. *)
Record Cell : Type := mkCell { cellX : Q; cellY : Q; side : Q }.

(** The terminal cells of a log, in the order they pushed their arcs. *)
Fixpoint emitted (l : list Event) : list Cell :=
  match l with
  | [] => []
  | EvEmit _ x y size :: l' => mkCell x y size :: emitted l'
  | _ :: l' => emitted l'
  end.

Definition sumQ (l : list Q) : Q := fold_right Qplus 0 l.

(** The area of a list of cells, and the sum of the squared diameters of a
    list of arcs. *)
Definition area (cs : list Cell) : Q := sumQ (map (fun c => side c * side c) cs).
Definition diameters (l : list Arc) : Q := sumQ (map (fun a => (2 * r a) * (2 * r a)) l).

(** An arc of the cell [c]: a quarter circle of radius half the side,
    centred on a corner, that carries the centre of the cell as
    [(midX, midY)]. *)
Definition arcOf (c : Cell) (a : Arc) : Prop :=
  r a == side c / 2
  /\ midX a == cellX c + side c / 2 /\ midY a == cellY c + side c / 2
  /\ (cx a == cellX c \/ cx a == cellX c + side c)
  /\ (cy a == cellY c \/ cy a == cellY c + side c).

(** The cell [c] lies in the square of side [size] at [(x, y)]. *)
Definition inside (x y size : Q) (c : Cell) : Prop :=
  x <= cellX c /\ cellX c + side c <= x + size
  /\ y <= cellY c /\ cellY c + side c <= y + size
  /\ 0 <= side c.

(** The side of [c] is [size] halved some number of times, and more than
    half of [minSize] unless it was never halved. *)
Definition sized (T : t) (size : Q) (c : Cell) : Prop :=
  exists k, side c == size / inject_Z (2 ^ Z.of_nat k)
            /\ (k = 0%nat \/ minSize T / 2 < side c).

Lemma emitted_app l1 l2 : emitted (l1 ++ l2) = emitted l1 ++ emitted l2.
Proof.
  induction l1 as [|[] l1 IH]; simpl; rewrite ?IH; reflexivity.
Qed.

Lemma sumQ_app l1 l2 : sumQ (l1 ++ l2) == sumQ l1 + sumQ l2.
Proof.
  induction l1 as [|q l1 IH]; simpl; [ring|]. rewrite IH. ring.
Qed.

Lemma sumQ_perm l1 l2 : Permutation l1 l2 -> sumQ l1 == sumQ l2.
Proof.
  induction 1 as [|q l1 l2 _ IH|p q l|l1 l2 l3 _ IH1 _ IH2]; simpl.
  - reflexivity.
  - rewrite IH. reflexivity.
  - ring.
  - rewrite IH1. exact IH2.
Qed.

Lemma area_app l1 l2 : area (l1 ++ l2) == area l1 + area l2.
Proof. unfold area. rewrite map_app. apply sumQ_app. Qed.

Lemma diameters_app l1 l2 : diameters (l1 ++ l2) == diameters l1 + diameters l2.
Proof. unfold diameters. rewrite map_app. apply sumQ_app. Qed.

Lemma diameters_perm l1 l2 : Permutation l1 l2 -> diameters l1 == diameters l2.
Proof. intros H. unfold diameters. apply sumQ_perm, Permutation_map, H. Qed.

(** The two arcs of a cell have the cell's side as their diameter. *)
Lemma diameters_tileArcs ty x y size :
  diameters (tileArcs ty x y size) == 2 * (size * size).
Proof.
  destruct ty; unfold diameters; simpl; field.
Qed.

Lemma diameters_arcsOf tr : diameters (arcsOf tr) == 2 * area (emitted tr).
Proof.
  induction tr as [|[x y size|u|ty x y size] tr IH]; cbn [arcsOf emitted].
  - reflexivity.
  - exact IH.
  - exact IH.
  - rewrite diameters_app, diameters_tileArcs, IH.
    change (area (mkCell x y size :: emitted tr))
      with (size * size + area (emitted tr)). ring.
Qed.

Lemma arcsOf_length tr : length (arcsOf tr) = (2 * length (emitted tr))%nat.
Proof.
  induction tr as [|[x y size|u|ty x y size] tr IH]; cbn [arcsOf emitted]; try exact IH.
  - reflexivity.
  - rewrite length_app, tileArcs_length, IH. simpl. lia.
Qed.

(** Every arc pushed belongs to a terminal cell of the log. *)
Lemma arcsOf_arcOf tr :
  Forall (fun a => exists c, In c (emitted tr) /\ arcOf c a) (arcsOf tr).
Proof.
  induction tr as [|[x y size|u|ty x y size] tr IH]; cbn [arcsOf emitted]; try exact IH.
  - constructor.
  - apply Forall_app. split.
    + assert (H : Forall (arcOf (mkCell x y size)) (tileArcs ty x y size)).
      { destruct ty; unfold tileArcs;
          repeat (constructor;
                  [unfold arcOf; simpl; repeat split; try reflexivity;
                   ((left; reflexivity) || (right; reflexivity))|]);
          constructor. }
      eapply Forall_impl; [exact H|]. intros a Ha. exists (mkCell x y size).
      split; [left; reflexivity | exact Ha].
    + eapply Forall_impl; [exact IH|]. intros a (c & Hc & Ha). exists c.
      split; [right; exact Hc | exact Ha].
Qed.

Section Cells.
Variable T : t.

(** The terminal cells of a cell have, together, the cell's area. *)
Lemma CellTrace_area g x y size tr g' :
  CellTrace T g x y size tr g' -> area (emitted tr) == size * size.
Proof.
  induction 1 as [g g0 x y size t1 t2 t3 t4 g1 g2 g3 g4 _ _ _ _ IH1 _ IH2 _ IH3 _ IH4 | |].
  - cbn [emitted]. rewrite !emitted_app, !area_app, IH1, IH2, IH3, IH4. field.
  - unfold area. simpl. ring.
  - unfold area. simpl. ring.
Qed.

Lemma RunTrace_area g cs tr g' :
  RunTrace T g cs tr g' ->
  area (emitted tr) == inject_Z (Z.of_nat (length cs)) * (baseSize T * baseSize T).
Proof.
  induction 1 as [|g x y cs tr g1 tr' g2 HC _ IH].
  - unfold area. simpl. ring.
  - rewrite emitted_app, area_app, IH, (CellTrace_area _ _ _ _ _ _ HC).
    cbn [length]. rewrite Nat2Z.inj_succ. unfold Z.succ. rewrite inject_Z_plus.
    change (inject_Z 1) with 1. ring.
Qed.

(** They lie inside it. *)
Lemma CellTrace_inside g x y size tr g' :
  CellTrace T g x y size tr g' -> 0 <= size -> Forall (inside x y size) (emitted tr).
Proof.
  induction 1 as [g g0 x y size t1 t2 t3 t4 g1 g2 g3 g4 _ _ _ _ IH1 _ IH2 _ IH3 _ IH4 | |];
    intros Hs.
  - assert (Hh : 0 <= size / 2) by (apply Qle_shift_div_l; lra).
    assert (E : size / 2 + size / 2 == size) by field.
    set (hf := size / 2) in *. clearbody hf.
    cbn [emitted]. rewrite !emitted_app.
    repeat (apply Forall_app; split);
      [ eapply Forall_impl; [apply IH1, Hh|]
      | eapply Forall_impl; [apply IH2, Hh|]
      | eapply Forall_impl; [apply IH3, Hh|]
      | eapply Forall_impl; [apply IH4, Hh|] ];
      intros c (H1 & H2 & H3 & H4 & H5); unfold inside; repeat split; lra.
  - repeat constructor; simpl; lra.
  - repeat constructor; simpl; lra.
Qed.

Lemma halve_pow (size : Q) (k : nat) :
  size / 2 / inject_Z (2 ^ Z.of_nat k) == size / inject_Z (2 ^ Z.of_nat (S k)).
Proof.
  rewrite Nat2Z.inj_succ, Z.pow_succ_r by lia.
  rewrite inject_Z_mult. change (inject_Z 2) with 2.
  assert (Hp : ~ inject_Z (2 ^ Z.of_nat k) == 0).
  { change 0 with (inject_Z 0). rewrite inject_Z_injective.
    pose proof (Z.pow_pos_nonneg 2 (Z.of_nat k) ltac:(lia) ltac:(lia)). lia. }
  field. exact Hp.
Qed.

(** Their sides are the cell's side halved; a cell that came from a split
    is wider than half of [minSize]. *)
Lemma CellTrace_sized g x y size tr g' :
  CellTrace T g x y size tr g' -> Forall (sized T size) (emitted tr).
Proof.
  induction 1 as [g g0 x y size t1 t2 t3 t4 g1 g2 g3 g4 Hm _ _ _ IH1 _ IH2 _ IH3 _ IH4 | |].
  - assert (Hstep : forall c, sized T (size / 2) c -> sized T size c).
    { intros c (k & Hk & Hd). exists (S k). split.
      - rewrite Hk. apply halve_pow.
      - right. destruct Hd as [-> | Hd]; [|exact Hd].
        rewrite Hk. change (inject_Z (2 ^ Z.of_nat 0)) with 1.
        assert (E : size / 2 / 1 == size / 2) by field. rewrite E.
        apply Qlt_shift_div_l; [reflexivity|].
        assert (E2 : minSize T / 2 * 2 == minSize T) by field. rewrite E2. exact Hm. }
    cbn [emitted]. rewrite !emitted_app.
    repeat (apply Forall_app; split); (eapply Forall_impl; [eassumption | exact Hstep]).
  - repeat constructor. exists 0%nat. split; [|left; reflexivity].
    simpl. change (inject_Z (2 ^ Z.of_nat 0)) with 1. field.
  - repeat constructor. exists 0%nat. split; [|left; reflexivity].
    simpl. change (inject_Z (2 ^ Z.of_nat 0)) with 1. field.
Qed.

(** A cell has at least one terminal cell. *)
Lemma CellTrace_emits g x y size tr g' :
  CellTrace T g x y size tr g' -> (1 <= length (emitted tr))%nat.
Proof.
  induction 1 as [g g0 x y size t1 t2 t3 t4 g1 g2 g3 g4 _ _ _ _ IH1 _ _ _ _ _ _ | |].
  - cbn [emitted]. rewrite emitted_app, length_app. lia.
  - simpl. lia.
  - simpl. lia.
Qed.

Lemma RunTrace_emits g cs tr g' :
  RunTrace T g cs tr g' -> (length cs <= length (emitted tr))%nat.
Proof.
  induction 1 as [|g x y cs tr g1 tr' g2 HC _ IH]; [simpl; lia|].
  apply CellTrace_emits in HC. rewrite emitted_app, length_app. simpl. lia.
Qed.

(** Every terminal cell of a run lies in one of the top-level cells. *)
Lemma RunTrace_inside g cs tr g' :
  RunTrace T g cs tr g' -> 0 <= baseSize T ->
  Forall (fun c => sized T (baseSize T) c
                   /\ exists top, In top cs /\ inside (fst top) (snd top) (baseSize T) c)
         (emitted tr).
Proof.
  intros H Hb. induction H as [|g x y cs tr g1 tr' g2 HC _ IH]; [constructor|].
  rewrite emitted_app. apply Forall_app. split.
  - pose proof (CellTrace_inside _ _ _ _ _ _ HC Hb) as H1.
    pose proof (CellTrace_sized _ _ _ _ _ _ HC) as H2.
    rewrite Forall_forall in H1, H2. apply Forall_forall. intros c Hc.
    split; [apply H2, Hc|]. exists (x, y). split; [left; reflexivity | apply H1, Hc].
  - eapply Forall_impl; [exact IH|]. intros c (Hs & top & Ht & Hi).
    split; [exact Hs|]. exists top. split; [right; exact Ht | exact Hi].
Qed.
End Cells.

(** What [generate] returns, as a run over the grid. *)
Lemma generate_run T M fuel width height seed cmds :
  generate T M fuel width height seed = Some cmds ->
  exists st ys cs,
    cells T fuel width height seed = Some st
    /\ rowsOf T fuel height = Some ys
    /\ (ys = [] /\ cs = [] \/ exists xs, colsOf T fuel width = Some xs /\ cs = grid ys xs)
    /\ RunTrace T (JS.toInt32 seed) cs (log st) (rng st)
    /\ Permutation cmds (arcsOf (log st)).
Proof.
  intros H. destruct (generate_inv _ _ _ _ _ _ _ H) as (st & Hst & ->).
  destruct (cells_indices T _ _ _ _ _ Hst) as (ys & Hy & Hx).
  destruct Hx as [-> | [xs Hx]].
  - exists st, [], []. split; [exact Hst|]. split; [exact Hy|].
    split; [left; split; reflexivity|].
    unfold cells in Hst. rewrite (JSFacts.for_loop_run_over _ _ _ _ _ _ [] Hy) in Hst.
    injection Hst as <-. split; [constructor|]. rewrite JSFacts.sort_perm. reflexivity.
  - exists st, ys, (grid ys xs). split; [exact Hst|]. split; [exact Hy|].
    split; [right; exists xs; split; [exact Hx | reflexivity]|].
    destruct (cells_trace T _ _ _ _ _ _ _ Hy Hx Hst) as [HR HA].
    split; [exact HR|]. rewrite JSFacts.sort_perm, HA. reflexivity.
Qed.

End TruchetCells.
Module TruchetRange.
Import Truchet TruchetFacts TruchetCells.

#[local] Arguments xorshift : simpl never.
#[local] Arguments JS.ltb : simpl never.
#[local] Arguments JS.gtb : simpl never.

Section Extremes.
Variable T : t.

(** With [splitProb <= 0] no cell splits. *)
Lemma CellTrace_never_splits g x y size tr g' :
  splitProb T <= 0 -> CellTrace T g x y size tr g' -> emitted tr = [mkCell x y size].
Proof.
  intros Hp H. inversion H; subst; [|reflexivity|reflexivity].
  pose proof (Xorshift.output_range (xorshift g)). lra.
Qed.

Lemma RunTrace_never_splits g cs tr g' :
  splitProb T <= 0 -> RunTrace T g cs tr g' ->
  emitted tr = map (fun c => mkCell (fst c) (snd c) (baseSize T)) cs.
Proof.
  intros Hp. induction 1 as [|g x y cs tr g1 tr' g2 HC _ IH]; [reflexivity|].
  rewrite emitted_app, (CellTrace_never_splits _ _ _ _ _ _ Hp HC), IH. reflexivity.
Qed.

(** With [splitProb >= 1] every cell wider than [minSize] splits. *)
Lemma CellTrace_always_splits g x y size tr g' :
  1 <= splitProb T -> CellTrace T g x y size tr g' ->
  Forall (fun c => side c <= minSize T) (emitted tr).
Proof.
  intros Hp. induction 1 as [g g0 x y size t1 t2 t3 t4 g1 g2 g3 g4 _ _ _
                               _ IH1 _ IH2 _ IH3 _ IH4 | g x y size _ Hk | g x y size Hs].
  - cbn [emitted]. rewrite !emitted_app. repeat (apply Forall_app; split); assumption.
  - pose proof (Xorshift.rand_lt_1 g). lra.
  - repeat constructor. exact Hs.
Qed.

Lemma RunTrace_always_splits g cs tr g' :
  1 <= splitProb T -> RunTrace T g cs tr g' ->
  Forall (fun c => side c <= minSize T) (emitted tr).
Proof.
  intros Hp. induction 1 as [|g x y cs tr g1 tr' g2 HC _ IH]; [constructor|].
  rewrite emitted_app. apply Forall_app. split; [|exact IH].
  apply (CellTrace_always_splits _ _ _ _ _ _ Hp HC).
Qed.
End Extremes.

(** A state whose successor is 0 behaves as state 0 does. *)
Lemma CellTrace_collapse T g x y size tr g' :
  0 < splitProb T -> CellTrace T g x y size tr g' -> xorshift g = 0%Z ->
  g' = 0%Z /\ Forall (zeroEvent T) tr.
Proof.
  intros Hp H Hg. inversion H as [g_ g0 x_ y_ size_ t1 t2 t3 t4 g1 g2 g3 g4 Hm Hg0 Ho
                                    C1 C2 C3 C4 | g_ x_ y_ size_ Hm Hk | g_ x_ y_ size_ Hs];
    subst.
  - rewrite Hg in *.
    destruct (CellTrace_zero _ _ _ _ _ _ _ Hp C1 eq_refl) as [-> F1].
    destruct (CellTrace_zero _ _ _ _ _ _ _ Hp C2 eq_refl) as [-> F2].
    destruct (CellTrace_zero _ _ _ _ _ _ _ Hp C3 eq_refl) as [-> F3].
    destruct (CellTrace_zero _ _ _ _ _ _ _ Hp C4 eq_refl) as [-> F4].
    split; [reflexivity|].
    constructor; [exact I|]. constructor; [reflexivity|].
    repeat (apply Forall_app; split); assumption.
  - rewrite Hg in Hk. pose proof output_0. lra.
  - rewrite Hg. split; [reflexivity|].
    constructor; [exact I|]. constructor; [reflexivity|].
    constructor; [|constructor]. split; [reflexivity | exact Hs].
Qed.

Lemma RunTrace_collapse T g cs tr g' :
  0 < splitProb T -> RunTrace T g cs tr g' -> xorshift g = 0%Z ->
  Forall (zeroEvent T) tr.
Proof.
  intros Hp H Hg. destruct H as [|g x y cs tr g1 tr' g2 HC HR]; [constructor|].
  destruct (CellTrace_collapse _ _ _ _ _ _ _ Hp HC Hg) as [-> F1].
  destruct (RunTrace_zero _ _ _ _ _ Hp HR eq_refl) as [_ F2].
  apply Forall_app. split; assumption.
Qed.

(** A loop that steps by a positive amount from below its bound runs at
    least twice when the bound is more than one step away. *)
Lemma loop_twice fuel (step bound x0 : Q) l :
  x0 + step < bound -> 0 <= step ->
  JS.loop_indices fuel (fun x => JS.ltb x bound) (fun x => x + step) x0 = Some l ->
  (2 <= length l)%nat.
Proof.
  intros Hb Hs. destruct fuel as [|[|f]]; simpl; try discriminate.
  - assert (E : JS.ltb x0 bound = true) by (apply JSFacts.ltb_lt; lra).
    rewrite E. discriminate.
  - assert (E : JS.ltb x0 bound = true) by (apply JSFacts.ltb_lt; lra).
    assert (E' : JS.ltb (x0 + step) bound = true) by (apply JSFacts.ltb_lt; lra).
    rewrite E, E'.
    destruct (JS.loop_indices f _ _ _) as [l'|]; simpl; [|discriminate].
    intros [= <-]. simpl. lia.
Qed.

(** [generate] returns at least two arcs for each top-level cell. *)
Lemma generate_count T M fuel width height seed ys xs cmds :
  rowsOf T fuel height = Some ys ->
  colsOf T fuel width = Some xs ->
  generate T M fuel width height seed = Some cmds ->
  exists k, length cmds = (2 * k)%nat /\ (length ys * length xs <= k)%nat.
Proof.
  intros Hy Hx Hg.
  destruct (generate_inv _ _ _ _ _ _ _ Hg) as (st & Hst & ->).
  destruct (cells_trace T _ _ _ _ _ _ _ Hy Hx Hst) as [HR HA].
  exists (length (emitted (log st))). split.
  - rewrite (Permutation_length (JSFacts.sort_perm _ _)), HA. apply arcsOf_length.
  - pose proof (RunTrace_emits _ _ _ _ _ HR) as H.
    rewrite grid_length in H. exact H.
Qed.

End TruchetRange.

Module TruchetRuns.
Import Truchet TruchetFacts TruchetCells.

(** What [cells] leaves: a run over the top-level cells visited. *)
Lemma cells_run T fuel width height seed st :
  cells T fuel width height seed = Some st ->
  exists cs, RunTrace T (JS.toInt32 seed) cs (log st) (rng st)
             /\ cmds st = arcsOf (log st).
Proof.
  intros Hst.
  destruct (cells_indices T _ _ _ _ _ Hst) as (ys & Hy & Hx).
  destruct Hx as [-> | [xs Hx]].
  - exists []. unfold cells in Hst.
    rewrite (JSFacts.for_loop_run_over _ _ _ _ _ _ [] Hy) in Hst.
    injection Hst as <-. split; [constructor | reflexivity].
  - exists (grid ys xs). apply (cells_trace T _ _ _ _ _ _ _ Hy Hx Hst).
Qed.

(** The arcs returned are those of the terminal cells of the log. *)
Lemma generate_arcs T M fuel width height seed cmds (P : Arc -> Prop) :
  generate T M fuel width height seed = Some cmds ->
  (forall st, cells T fuel width height seed = Some st -> Forall P (arcsOf (log st))) ->
  Forall P cmds.
Proof.
  intros Hg HP.
  destruct (generate_inv _ _ _ _ _ _ _ Hg) as (st & Hst & ->).
  destruct (cells_run _ _ _ _ _ _ Hst) as (cs & _ & HA).
  eapply Permutation_Forall; [symmetry; apply JSFacts.sort_perm|].
  rewrite HA. apply HP, Hst.
Qed.

Lemma arcsOf_sides (P : Q -> Prop) tr :
  (forall q q', q == q' -> P q -> P q') ->
  Forall (fun c => P (side c)) (emitted tr) ->
  Forall (fun a => P (2 * r a)) (arcsOf tr).
Proof.
  intros Hext H. pose proof (arcsOf_arcOf tr) as HA.
  rewrite Forall_forall in H. eapply Forall_impl; [exact HA|].
  intros a (c & Hc & Hr & _).
  apply (Hext (side c)); [rewrite Hr; field|]. apply H, list_elem_of_In, Hc.
Qed.

End TruchetRuns.
(** ** HatTiling: the lattice of centres *)

Module HatLattice.
Import HatTiling HatFacts.

Lemma and32_255_mod (v : Z) : JS.and32 v 255 = (v mod 256)%Z.
Proof.
  unfold JS.and32. rewrite (toInt32_small 255) by lia.
  change 255%Z with (Z.ones 8). rewrite Z.land_ones by lia.
  change (2 ^ 8)%Z with 256%Z.
  assert (Hd : (256 | 2 ^ 32)%Z) by (exists (2 ^ 24)%Z; reflexivity).
  rewrite <- (Z.mod_mod_divide (JS.toInt32 v) _ _ Hd), Xorshift.toInt32_mod,
    (Z.mod_mod_divide v _ _ Hd).
  apply toInt32_small.
  pose proof (Z.mod_pos_bound v 256 ltac:(lia)). lia.
Qed.

(** The orientation of a cell is [3 col + 5 row + orientSeed] modulo 8. *)
Lemma orientIndex_mod (T : t) (col row : Z) :
  orientIndex T col row = ((col * 3 + row * 5 + orientSeed T) mod 8)%Z.
Proof.
  unfold orientIndex. rewrite and32_255_mod.
  rewrite Z.rem_mod_nonneg; [|apply Z.mod_pos_bound; lia | lia].
  apply Z.mod_mod_divide. exists 32%Z. reflexivity.
Qed.

Section Lattice.
Variable T : t.
Variable M : JS.MathLib.

Definition colStep : Q := s T * (9 / 2).
Definition rowStep : Q := s T * JS.sqrt M 3 / 2 * 3.
Definition pad : Q := JS.max colStep rowStep * 2.

(** The rows and columns the two loops visit. *)
Definition rowsOf (fuel : nat) (height : Q) : option (list Z) :=
  JS.loop_indices fuel (fun row => JS.ltb (inject_Z row * rowStep) (height + pad)) Z.succ (-2)%Z.
Definition colsOf (fuel : nat) (width : Q) : option (list Z) :=
  JS.loop_indices fuel (fun col => JS.ltb (inject_Z col * colStep) (width + pad)) Z.succ (-2)%Z.

(** The tile placed at grid position [(row, col)]. *)
Definition tileAt (row col : Z) : Tile :=
  let cx := inject_Z col * colStep + inject_Z (Z.rem row 2) * colStep * (1 / 2) in
  let cy := inject_Z row * rowStep in
  let o := nth (Z.to_nat ((col * 3 + row * 5 + orientSeed T) mod 8)) orientations (false, 0%Z) in
  mkTile (map (vertexAt T M cx cy o) kiteVerts) cx cy.

Definition lattice (rows cols : list Z) : list Tile :=
  flat_map (fun row => map (tileAt row) cols) rows.

Lemma tilePoly_tileAt row col :
  tilePoly T M (cx (tileAt row col)) (cy (tileAt row col)) (orientIndex T col row)
  = Some (poly (tileAt row col)).
Proof.
  unfold tilePoly, JS.index. rewrite orientIndex_mod.
  pose proof (Z.mod_pos_bound (col * 3 + row * 5 + orientSeed T) 8 ltac:(lia)) as Hb.
  set (k := ((col * 3 + row * 5 + orientSeed T) mod 8)%Z) in *.
  rewrite Z.rem_mod_nonneg by lia. rewrite (Z.mod_small k 8) by lia.
  destruct (Z.ltb_spec k 0) as [?|_]; [lia|].
  assert (Hn : (Z.to_nat k < length orientations)%nat) by (simpl; lia).
  destruct (lookup_lt_is_Some_2 _ _ Hn) as [[flipX rotSteps] Ho].
  rewrite Ho. cbn [mbind option_bind]. cbn [tileAt poly cx cy]. fold k.
  rewrite (nth_lookup_Some _ _ _ _ Ho). f_equal.
Qed.

Lemma row_run_over row cols tiles :
  JS.run_over
    (fun col tiles =>
       let cx := inject_Z col * (s T * (9 / 2))
                 + inject_Z (Z.rem row 2) * (s T * (9 / 2)) * (1 / 2) in
       let cy := inject_Z row * (s T * JS.sqrt M 3 / 2 * 3) in
       p ← tilePoly T M cx cy (orientIndex T col row);
       Some (tiles ++ [mkTile p cx cy]))
    cols tiles
  = Some (tiles ++ map (tileAt row) cols).
Proof.
  revert tiles. induction cols as [|col cols IH]; intros tiles; cbn [JS.run_over map].
  - rewrite app_nil_r. reflexivity.
  - pose proof (tilePoly_tileAt row col) as E. cbn [tileAt cx cy poly] in E.
    unfold colStep, rowStep in E. cbv zeta. rewrite E. cbn [mbind option_bind].
    rewrite IH, <- app_assoc. reflexivity.
Qed.

(** The two loops place the lattice, row by row. *)
Lemma placeTiles_lattice fuel width height rows cols :
  rowsOf fuel height = Some rows ->
  colsOf fuel width = Some cols ->
  placeTiles T M fuel width height = Some (lattice rows cols).
Proof.
  intros Hr Hc. unfold placeTiles.
  rewrite (JSFacts.for_loop_run_over _ _ _ _ _ _ rows Hr).
  assert (H : forall tiles,
            JS.run_over
              (fun row tiles =>
                 JS.for_loop fuel
                   (fun col => JS.ltb (inject_Z col * (s T * (9 / 2)))
                                      (width + JS.max (s T * (9 / 2))
                                                      (s T * JS.sqrt M 3 / 2 * 3) * 2))
                   Z.succ
                   (fun col tiles =>
                      let cx := inject_Z col * (s T * (9 / 2))
                                + inject_Z (Z.rem row 2) * (s T * (9 / 2)) * (1 / 2) in
                      let cy := inject_Z row * (s T * JS.sqrt M 3 / 2 * 3) in
                      p ← tilePoly T M cx cy (orientIndex T col row);
                      Some (tiles ++ [mkTile p cx cy]))
                   (-2)%Z tiles)
              rows tiles
            = Some (tiles ++ lattice rows cols)); [|apply (H [])].
  clear Hr. induction rows as [|row rows IH]; intros tiles; cbn [JS.run_over lattice flat_map].
  - rewrite app_nil_r. reflexivity.
  - rewrite (JSFacts.for_loop_run_over _ _ _ _ _ _ cols Hc), row_run_over.
    cbn [mbind option_bind]. rewrite IH, <- app_assoc. reflexivity.
Qed.

Lemma lattice_length rows cols : length (lattice rows cols) = (length rows * length cols)%nat.
Proof.
  unfold lattice. induction rows as [|row rows IH]; simpl; [reflexivity|].
  rewrite length_app, length_map, IH. reflexivity.
Qed.
End Lattice.

(** A counting loop takes the values on which its test holds. *)
Lemma loop_indices_cons fuel (cond : Z -> bool) i l :
  JS.loop_indices fuel cond Z.succ i = Some l -> cond i = true ->
  exists l', l = i :: l' /\ JS.loop_indices fuel cond Z.succ (Z.succ i) = Some l'.
Proof.
  destruct fuel as [|f]; simpl; [discriminate|]. intros H Hc. rewrite Hc in H.
  destruct (JS.loop_indices f cond Z.succ (Z.succ i)) as [l'|] eqn:E; simpl in H;
    [|discriminate].
  injection H as <-. exists l'. split; [reflexivity|].
  apply (JSFacts.loop_indices_mono f (S f)); [lia | exact E].
Qed.

Lemma loop_from_minus_2 fuel (step bound : Q) l :
  0 < step -> 2 * step <= bound ->
  JS.loop_indices fuel (fun i => JS.ltb (inject_Z i * step) bound) Z.succ (-2)%Z = Some l ->
  (4 <= length l)%nat.
Proof.
  intros Hs Hb H.
  apply loop_indices_cons in H as (l1 & -> & H);
    [|apply JSFacts.ltb_lt; change (inject_Z (-2)) with (-2 # 1); lra].
  apply loop_indices_cons in H as (l2 & -> & H);
    [|apply JSFacts.ltb_lt; change (inject_Z (Z.succ (-2))) with (-1 # 1); lra].
  apply loop_indices_cons in H as (l3 & -> & H);
    [|apply JSFacts.ltb_lt; change (inject_Z (Z.succ (Z.succ (-2)))) with 0; lra].
  apply loop_indices_cons in H as (l4 & -> & H);
    [|apply JSFacts.ltb_lt; change (inject_Z (Z.succ (Z.succ (Z.succ (-2))))) with 1; lra].
  simpl. lia.
Qed.

Lemma loop_from_minus_1 fuel (step bound : Q) l :
  0 <= step -> 0 < bound ->
  JS.loop_indices fuel (fun i => JS.ltb (inject_Z i * step) bound) Z.succ (-1)%Z = Some l ->
  (2 <= length l)%nat.
Proof.
  intros Hs Hb H.
  apply loop_indices_cons in H as (l1 & -> & H);
    [|apply JSFacts.ltb_lt; change (inject_Z (-1)) with (-1 # 1); lra].
  apply loop_indices_cons in H as (l2 & -> & H);
    [|apply JSFacts.ltb_lt; change (inject_Z (Z.succ (-1))) with 0; lra].
  simpl. lia.
Qed.

Lemma max_ge_l (x y : Q) : x <= JS.max x y.
Proof.
  unfold JS.max. destruct (JS.ltb x y) eqn:E; [apply JSFacts.ltb_lt in E; lra | lra].
Qed.

Lemma max_ge_r (x y : Q) : y <= JS.max x y.
Proof.
  unfold JS.max. destruct (JS.ltb x y) eqn:E; [lra | apply JSFacts.ltb_ge in E; lra].
Qed.


(** *** Translations of a tile *)

(** [b] is [a] moved by [(dx, dy)]. *)
Definition translated (dx dy : Q) (a b : Tile) : Prop :=
  cx b == cx a + dx /\ cy b == cy a + dy
  /\ Forall2 (fun p q => fst q == fst p + dx /\ snd q == snd p + dy) (poly a) (poly b).

Lemma vertexAt_shift T M cx cy cx' cy' dx dy o uv :
  cx' == cx + dx -> cy' == cy + dy ->
  fst (vertexAt T M cx' cy' o uv) == fst (vertexAt T M cx cy o uv) + dx
  /\ snd (vertexAt T M cx' cy' o uv) == snd (vertexAt T M cx cy o uv) + dy.
Proof.
  intros Hx Hy. unfold vertexAt.
  destruct (kiteToPixel T M (fst uv) (snd uv) (fst o)) as [px py].
  cbn [fst snd]. rewrite Hx, Hy. split; ring.
Qed.

Lemma rem_2_shift (row b : Z) :
  (0 <= row)%Z -> (0 <= row + b)%Z -> (b mod 2 = 0)%Z -> Z.rem (row + b) 2 = Z.rem row 2.
Proof.
  intros H0 H1 Hb. rewrite !Z.rem_mod_nonneg by lia.
  rewrite (Zplus_mod row b), Hb, Z.add_0_r. apply Z.mod_mod. lia.
Qed.

Lemma tileAt_translated T M row col a b :
  (0 <= row)%Z -> (0 <= row + b)%Z -> (b mod 2 = 0)%Z -> ((3 * a + 5 * b) mod 8 = 0)%Z ->
  translated (inject_Z a * colStep T) (inject_Z b * rowStep T M)
             (tileAt T M row col) (tileAt T M (row + b) (col + a)).
Proof.
  intros H0 H1 Hb Hab. unfold tileAt. cbv zeta.
  rewrite (rem_2_shift row b H0 H1 Hb).
  replace (((col + a) * 3 + (row + b) * 5 + orientSeed T) mod 8)%Z
    with ((col * 3 + row * 5 + orientSeed T) mod 8)%Z.
  2:{ replace ((col + a) * 3 + (row + b) * 5 + orientSeed T)%Z
        with ((col * 3 + row * 5 + orientSeed T) + (3 * a + 5 * b))%Z by ring.
      rewrite (Zplus_mod (col * 3 + row * 5 + orientSeed T) (3 * a + 5 * b)), Hab, Z.add_0_r.
      symmetry. apply Z.mod_mod. lia. }
  set (o := nth _ orientations _).
  assert (Ex : inject_Z (col + a) * colStep T + inject_Z (Z.rem row 2) * colStep T * (1 / 2)
               == inject_Z col * colStep T + inject_Z (Z.rem row 2) * colStep T * (1 / 2)
                  + inject_Z a * colStep T)
    by (rewrite inject_Z_plus; ring).
  assert (Ey : inject_Z (row + b) * rowStep T M
               == inject_Z row * rowStep T M + inject_Z b * rowStep T M)
    by (rewrite inject_Z_plus; ring).
  unfold translated. cbn [cx cy poly].
  split; [exact Ex|]. split; [exact Ey|].
  induction kiteVerts as [|uv l IH]; cbn [map]; constructor; [|exact IH].
  apply vertexAt_shift; assumption.
Qed.

(** *** The seed of the orientations *)
Lemma generateTiles_seed (e : Q) (seed seed' : Z) M fuel width height :
  (seed mod 8 = seed' mod 8)%Z ->
  generateTiles (mk e seed) M fuel width height
  = generateTiles (mk e seed') M fuel width height.
Proof.
  intros Hs. unfold generateTiles. f_equal. unfold placeTiles.
  apply (JSFacts.for_loop_ext_inv (fun _ => True)); [trivial | | exact I].
  intros row tiles _.
  apply (JSFacts.for_loop_ext_inv (fun _ => True)); [trivial | | exact I].
  intros col tiles' _. cbv zeta.
  replace (orientIndex (mk e seed') col row) with (orientIndex (mk e seed) col row);
    [reflexivity|].
  rewrite !orientIndex_mod. cbn [orientSeed].
  rewrite (Zplus_mod _ seed), (Zplus_mod _ seed'), Hs. reflexivity.
Qed.

End HatLattice.

(** ** Geometry: the point of intersection *)

Module GeometryMore.
Import GeometryFacts.

Lemma abs_opp (d d' : Q) : d' == - d -> JS.abs d' == JS.abs d.
Proof.
  intros E. unfold JS.abs.
  destruct (JS.ltb d' 0) eqn:E1; destruct (JS.ltb d 0) eqn:E2;
    try apply JSFacts.ltb_lt in E1; try apply JSFacts.ltb_ge in E1;
    try apply JSFacts.ltb_lt in E2; try apply JSFacts.ltb_ge in E2; lra.
Qed.

Lemma denom_nonzero ax1 ay1 ax2 ay2 bx1 by1 bx2 by2 p :
  lineIntersect ax1 ay1 ax2 ay2 bx1 by1 bx2 by2 = Some p ->
  ~ lineIntersect_denom ax1 ay1 ax2 ay2 bx1 by1 bx2 by2 == 0.
Proof.
  intros H H0.
  assert (Hn : lineIntersect ax1 ay1 ax2 ay2 bx1 by1 bx2 by2 = None).
  { apply lineIntersect_none. rewrite (abs_opp 0 _); [reflexivity|]. rewrite H0. reflexivity. }
  congruence.
Qed.

(** Two lines whose determinant is not 0 have one common point. *)
Lemma common_point_unique ax1 ay1 ax2 ay2 bx1 by1 bx2 by2 p q :
  ~ lineIntersect_denom ax1 ay1 ax2 ay2 bx1 by1 bx2 by2 == 0 ->
  onLine p ax1 ay1 ax2 ay2 -> onLine p bx1 by1 bx2 by2 ->
  onLine q ax1 ay1 ax2 ay2 -> onLine q bx1 by1 bx2 by2 ->
  Point.x q == Point.x p /\ Point.y q == Point.y p.
Proof.
  unfold lineIntersect_denom, onLine. cbv zeta.
  destruct p as [px py], q as [qx qy]. cbn [Point.x Point.y].
  intros Hd Pa Pb Qa Qb.
  set (bvx := ax2 - ax1) in *. set (bvy := ay2 - ay1) in *.
  set (dvx := bx2 - bx1) in *. set (dvy := by2 - by1) in *.
  assert (E1 : (qx - px) * bvy == (qy - py) * bvx).
  { assert (E : (qx - px) * bvy == (qx - ax1) * bvy - (px - ax1) * bvy) by ring.
    rewrite E, Qa, Pa. ring. }
  assert (E2 : (qx - px) * dvy == (qy - py) * dvx).
  { assert (E : (qx - px) * dvy == (qx - bx1) * dvy - (px - bx1) * dvy) by ring.
    rewrite E, Qb, Pb. ring. }
  assert (Hx : (bvx * dvy - bvy * dvx) * (qx - px) == 0).
  { assert (E : (bvx * dvy - bvy * dvx) * (qx - px)
                == bvx * ((qx - px) * dvy) - dvx * ((qx - px) * bvy)) by ring.
    rewrite E, E1, E2. ring. }
  assert (Hy : (bvx * dvy - bvy * dvx) * (qy - py) == 0).
  { assert (E : (bvx * dvy - bvy * dvx) * (qy - py)
                == dvy * ((qy - py) * bvx) - bvy * ((qy - py) * dvx)) by ring.
    rewrite E, <- E1, <- E2. ring. }
  apply Qmult_integral_l in Hx; [|exact Hd].
  apply Qmult_integral_l in Hy; [|exact Hd].
  split; lra.
Qed.

Lemma lineIntersect_none_sym ax1 ay1 ax2 ay2 bx1 by1 bx2 by2 :
  lineIntersect ax1 ay1 ax2 ay2 bx1 by1 bx2 by2 = None ->
  lineIntersect bx1 by1 bx2 by2 ax1 ay1 ax2 ay2 = None.
Proof.
  rewrite !lineIntersect_none. intros H.
  rewrite (abs_opp (lineIntersect_denom ax1 ay1 ax2 ay2 bx1 by1 bx2 by2)); [exact H|].
  unfold lineIntersect_denom. ring.
Qed.

Lemma lineIntersect_none_rev ax1 ay1 ax2 ay2 bx1 by1 bx2 by2 :
  lineIntersect ax1 ay1 ax2 ay2 bx1 by1 bx2 by2 = None ->
  lineIntersect ax2 ay2 ax1 ay1 bx1 by1 bx2 by2 = None.
Proof.
  rewrite !lineIntersect_none. intros H.
  rewrite (abs_opp (lineIntersect_denom ax1 ay1 ax2 ay2 bx1 by1 bx2 by2)); [exact H|].
  unfold lineIntersect_denom. ring.
Qed.

Lemma onLine_rev p x1 y1 x2 y2 : onLine p x1 y1 x2 y2 -> onLine p x2 y2 x1 y1.
Proof.
  unfold onLine. intros H.
  assert (E : (Point.x p - x2) * (y1 - y2)
              == (Point.y p - y2) * (x1 - x2)
                 + ((Point.y p - y1) * (x2 - x1) - (Point.x p - x1) * (y2 - y1))) by ring.
  rewrite E, H. ring.
Qed.

End GeometryMore.

(** ** Rosette: sizes, failures, extensions *)

Module RosetteMore.
Import Rosette RosetteFacts.

Lemma omap_length_le {A B : Type} (f : A -> option B) (l : list A) :
  (length (omap f l) <= length l)%nat.
Proof.
  induction l as [|a l IH]; [reflexivity|].
  cbn [omap list_omap]. destruct (f a); simpl; lia.
Qed.

Section Sizes.
Variable T : t.
Variable M : JS.MathLib.

(** The number of commands in each phase of one motif. *)
Lemma build_sizes cx cy ph :
  build T M cx cy = Some ph ->
  exists e p, (e <= 2 * numPetals T)%nat /\ (p <= numPetals T)%nat
              /\ map length ph
                 = [3%nat; numPetals T; numPetals T; (2 * numPetals T)%nat; e; p; numPetals T].
Proof.
  unfold build. cbv zeta.
  destruct (outerLinesOf _ _) as [ol|] eqn:E1; cbn [mbind option_bind]; [|discriminate].
  destruct (radialLinesOf _ _ _ _) as [rl|] eqn:E2; cbn [mbind option_bind]; [|discriminate].
  destruct (diagLinesOf _ _ _) as [dl|] eqn:E3; cbn [mbind option_bind]; [|discriminate].
  destruct (petalsOf _ _ _ _ _ _ _) as [pe|] eqn:E4; cbn [mbind option_bind];
    [|discriminate].
  destruct (diamondsOf _ _ _ _ _) as [di|] eqn:E5; cbn [mbind option_bind]; [|discriminate].
  intros [= <-].
  apply mapM_length_eq in E1, E2, E5. rewrite length_seq in E1, E2, E5.
  assert (Hdl : length dl = (2 * numPetals T)%nat).
  { unfold diagLinesOf in E3.
    destruct (mapM _ _) as [ccw|] eqn:Eccw in E3;
      [|destruct (mapM _ _) in E3; discriminate E3].
    destruct (mapM _ _) as [cw|] eqn:Ecw in E3; cbn [mbind option_bind] in E3;
      [|discriminate E3].
    injection E3 as <-. apply mapM_length_eq in Ecw, Eccw.
    rewrite length_seq in Ecw, Eccw. rewrite length_app. lia. }
  assert (Hpe : (length pe <= numPetals T)%nat).
  { unfold petalsOf in E4.
    destruct (mapM _ _) as [l|] eqn:El in E4; cbn [mbind option_bind] in E4;
      [|discriminate E4].
    injection E4 as <-. apply mapM_length_eq in El. rewrite length_seq in El.
    rewrite <- El. apply omap_length_le. }
  exists (length (omap (extendDiag M cx cy ol) dl)), (length pe).
  split; [rewrite <- Hdl; apply omap_length_le|]. split; [exact Hpe|].
  cbn [map]. rewrite !length_map, E1, E2, E5, Hdl. reflexivity.
Qed.

(** With a negative [connectEveryN] and at least two petals the index
    [(i + skip) % n] is negative for [i = 0] or [i = 1]: the element is
    [undefined] and reading its [x] throws. *)
Lemma outerLinesOf_negative_skip pts :
  (2 <= numPetals T)%nat -> (connectEveryN T < 0)%Z -> outerLinesOf T pts = None.
Proof.
  intros Hn Hs. unfold outerLinesOf. apply mapM_None_2.
  assert (Hneg : forall i : nat,
            (Z.rem (Z.of_nat i + connectEveryN T) (Z.of_nat (numPetals T)) < 0)%Z ->
            (a ← JS.index pts (Z.of_nat i);
             b ← JS.index pts (Z.rem (Z.of_nat i + connectEveryN T) (Z.of_nat (numPetals T)));
             Some (mkLine (Point.x a) (Point.y a) (Point.x b) (Point.y b))) = None).
  { intros i Hi. destruct (JS.index pts (Z.of_nat i)); [|reflexivity].
    cbn [mbind option_bind]. unfold JS.index at 1.
    destruct (Z.ltb_spec (Z.rem (Z.of_nat i + connectEveryN T) (Z.of_nat (numPetals T))) 0);
      [reflexivity | lia]. }
  set (n := Z.of_nat (numPetals T)) in *.
  assert (Hrem : forall a, (a < 0)%Z -> (Z.rem a n < 0)%Z \/ (n | a)%Z).
  { intros a Ha. pose proof (Z.rem_nonpos a n ltac:(lia) ltac:(lia)) as H.
    destruct (Z.eq_dec (Z.rem a n) 0%Z) as [E|E]; [right|left; lia].
    apply Z.rem_divide in E; [exact E | lia]. }
  destruct (Hrem (connectEveryN T) Hs) as [H0|H0].
  - apply Exists_exists. exists 0%nat. split.
    + apply list_elem_of_In, in_seq. lia.
    + apply Hneg. exact H0.
  - apply Exists_exists. exists 1%nat. split.
    + apply list_elem_of_In, in_seq. lia.
    + apply Hneg. change (Z.of_nat 1) with 1%Z.
      assert (Hn2 : (2 <= n)%Z) by (unfold n; lia).
      clearbody n.
      assert (Hlt : (1 + connectEveryN T < 0)%Z).
      { destruct H0 as [k Hk]. assert (k <= -1)%Z by nia. nia. }
      destruct (Hrem (1 + connectEveryN T)%Z Hlt) as [H1|H1]; [exact H1|].
      exfalso. destruct H0 as [k Hk], H1 as [k' Hk'].
      assert (E : (1 = (k' - k) * n)%Z) by lia.
      assert (0 < k' - k)%Z by nia. nia.
Qed.

Lemma build_negative_skip cx cy :
  (2 <= numPetals T)%nat -> (connectEveryN T < 0)%Z -> build T M cx cy = None.
Proof.
  intros Hn Hs. unfold build. cbv zeta.
  rewrite (outerLinesOf_negative_skip _ Hn Hs). reflexivity.
Qed.
End Sizes.

(** *** The extension of a diagonal *)
Section Extension.
Variable M : JS.MathLib.
Variables cx cy : Q.

(** The end of a diagonal farther from the centre, and the other end. *)
Definition farEnd (dl : Line) : Q * Q :=
  if JS.gtb (JS.hypot M (x1 dl - cx) (y1 dl - cy)) (JS.hypot M (x2 dl - cx) (y2 dl - cy))
  then (x1 dl, y1 dl) else (x2 dl, y2 dl).
Definition nearEnd (dl : Line) : Q * Q :=
  if JS.gtb (JS.hypot M (x1 dl - cx) (y1 dl - cy)) (JS.hypot M (x2 dl - cx) (y2 dl - cy))
  then (x2 dl, y2 dl) else (x1 dl, y1 dl).

(** Where the line of the diagonal meets an outer line, if it does. *)
Definition crossing (dl ol : Line) : option Point.t :=
  lineIntersect (fst (nearEnd dl)) (snd (nearEnd dl)) (fst (farEnd dl)) (snd (farEnd dl))
                (x1 ol) (y1 ol) (x2 ol) (y2 ol).

Definition fromFar (dl : Line) (p : Point.t) : Q :=
  JS.hypot M (Point.x p - fst (farEnd dl)) (Point.y p - snd (farEnd dl)).

Definition extStep (dl : Line) (acc : option Q * option Point.t) (ol : Line)
    : option Q * option Point.t :=
  match crossing dl ol with
  | None => acc
  | Some pt => if closer (fromFar dl pt) (fst acc) then (Some (fromFar dl pt), Some pt) else acc
  end.

Lemma extendDiag_fold dl outerLines :
  extendDiag M cx cy outerLines dl
  = match snd (fold_left (extStep dl) outerLines (None, None)) with
    | Some p => Some (mkExt (mkLine (fst (farEnd dl)) (snd (farEnd dl)) (Point.x p) (Point.y p)) p)
    | None => None
    end.
Proof.
  unfold extendDiag, extStep, crossing, fromFar, farEnd, nearEnd. cbv zeta.
  destruct (JS.gtb _ _); reflexivity.
Qed.

(** What the loop over the outer lines has found after the lines [seen]. *)
Definition extInv (dl : Line) (seen : list Line) (acc : option Q * option Point.t) : Prop :=
  match acc with
  | (Some d, Some p) =>
      d = fromFar dl p
      /\ (exists ol, In ol seen /\ crossing dl ol = Some p)
      /\ forall ol q, In ol seen -> crossing dl ol = Some q -> fromFar dl p <= fromFar dl q
  | (None, None) => forall ol, In ol seen -> crossing dl ol = None
  | _ => False
  end.

Lemma extStep_inv dl seen acc ol :
  extInv dl seen acc -> extInv dl (seen ++ [ol]) (extStep dl acc ol).
Proof.
  intros H. unfold extStep.
  destruct (crossing dl ol) as [pt|] eqn:E.
  - destruct acc as [[d|] [p|]]; cbn [extInv fst closer] in *; try contradiction.
    + destruct H as (-> & (ol0 & Hin & Hc) & Hmin).
      destruct (JS.ltb (fromFar dl pt) (fromFar dl p)) eqn:El.
      * apply JSFacts.ltb_lt in El. cbn [extInv]. split; [reflexivity|]. split.
        -- exists ol. split; [apply in_or_app; right; left; reflexivity | exact E].
        -- intros ol' q Hin' Hq. apply in_app_or in Hin' as [Hin'|[<-|[]]].
           ++ specialize (Hmin ol' q Hin' Hq). lra.
           ++ rewrite E in Hq. injection Hq as <-. lra.
      * apply JSFacts.ltb_ge in El. cbn [extInv]. split; [reflexivity|]. split.
        -- exists ol0. split; [apply in_or_app; left; exact Hin | exact Hc].
        -- intros ol' q Hin' Hq. apply in_app_or in Hin' as [Hin'|[<-|[]]].
           ++ apply (Hmin ol' q Hin' Hq).
           ++ rewrite E in Hq. injection Hq as <-. exact El.
    + cbn [extInv]. split; [reflexivity|]. split.
      * exists ol. split; [apply in_or_app; right; left; reflexivity | exact E].
      * intros ol' q Hin' Hq. apply in_app_or in Hin' as [Hin'|[<-|[]]].
        -- rewrite (H ol' Hin') in Hq. discriminate.
        -- rewrite E in Hq. injection Hq as <-. lra.
  - destruct acc as [[d|] [p|]]; cbn [extInv] in *; try contradiction.
    + destruct H as (-> & (ol0 & Hin & Hc) & Hmin). split; [reflexivity|]. split.
      * exists ol0. split; [apply in_or_app; left; exact Hin | exact Hc].
      * intros ol' q Hin' Hq. apply in_app_or in Hin' as [Hin'|[<-|[]]].
        -- apply (Hmin ol' q Hin' Hq).
        -- rewrite E in Hq. discriminate.
    + intros ol' Hin'. apply in_app_or in Hin' as [Hin'|[<-|[]]]; [apply H, Hin' | exact E].
Qed.

Lemma extLoop_inv dl ols seen acc :
  extInv dl seen acc -> extInv dl (seen ++ ols) (fold_left (extStep dl) ols acc).
Proof.
  revert seen acc. induction ols as [|ol ols IH]; intros seen acc H; cbn [fold_left].
  - rewrite app_nil_r. exact H.
  - replace (seen ++ ol :: ols) with ((seen ++ [ol]) ++ ols)
      by (rewrite <- app_assoc; reflexivity).
    apply IH, extStep_inv, H.
Qed.

(** The extension of a diagonal starts at its far end and stops at the
    crossing with an outer line that is nearest to that end; there is
    none exactly when no outer line is crossed. *)
Lemma extendDiag_spec dl outerLines :
  match extendDiag M cx cy outerLines dl with
  | Some e =>
      line e = mkLine (fst (farEnd dl)) (snd (farEnd dl)) (Point.x (tip e)) (Point.y (tip e))
      /\ (exists ol, In ol outerLines /\ crossing dl ol = Some (tip e))
      /\ forall ol q, In ol outerLines -> crossing dl ol = Some q ->
                      fromFar dl (tip e) <= fromFar dl q
  | None => forall ol, In ol outerLines -> crossing dl ol = None
  end.
Proof.
  rewrite extendDiag_fold.
  pose proof (extLoop_inv dl outerLines [] (None, None)) as H.
  cbn [app] in H.
  destruct (fold_left (extStep dl) outerLines (None, None)) as [[d|] [p|]];
    cbn [snd extInv] in *.
  - destruct H as (_ & Hex & Hmin); [intros ol []|].
    cbn [line tip]. split; [reflexivity|]. split; assumption.
  - destruct H. intros ol [].
  - destruct H. intros ol [].
  - apply H. intros ol [].
Qed.
End Extension.

(** *** The angular distance *)

Lemma trunc_floor (q : Q) : 0 <= q -> JS.trunc q = Qfloor q.
Proof.
  intros Hq. unfold JS.trunc. destruct q as [n d]. cbn [Qnum Qden Qfloor].
  apply Z.quot_div_nonneg; [|lia].
  unfold Qle in Hq. simpl in Hq. lia.
Qed.

(** [x % y] for [x >= 0] and [y > 0] lies in [[0, y)]. *)
Lemma rem_range (x y : Q) : 0 <= x -> 0 < y -> 0 <= JS.rem x y /\ JS.rem x y < y.
Proof.
  intros Hx Hy. unfold JS.rem.
  assert (Hq : 0 <= x / y) by (apply Qle_shift_div_l; [exact Hy | lra]).
  rewrite (trunc_floor _ Hq).
  pose proof (Qfloor_le (x / y)) as H1. pose proof (Qlt_floor (x / y)) as H2.
  rewrite inject_Z_plus in H2. change (inject_Z 1) with 1 in H2.
  set (k := inject_Z (Qfloor (x / y))) in *. clearbody k.
  assert (E : x == x / y * y) by (field; lra).
  assert (A : k * y <= x / y * y) by (apply Qmult_le_compat_r; lra).
  assert (B : x / y * y < (k + 1) * y) by (apply Qmult_lt_compat_r; lra).
  set (z := x / y * y) in *. clearbody z.
  split; [lra|]. 
  assert (E2 : (k + 1) * y == y * k + y) by ring. lra.
Qed.

Lemma PI_pos : 0 < JS.PI.
Proof. reflexivity. Qed.

Lemma angDelta_range (a anglePetal : Q) :
  0 <= a - anglePetal + JS.PI * 3 ->
  0 <= angDelta a anglePetal /\ angDelta a anglePetal <= JS.PI.
Proof.
  intros H. unfold angDelta.
  pose proof PI_pos as Hpi.
  assert (H2 : 0 < TWO_PI) by (unfold TWO_PI; lra).
  destruct (rem_range _ _ H H2) as [R0 R1].
  set (m := JS.rem _ _) in *. clearbody m. unfold TWO_PI in R1.
  unfold JS.abs. destruct (JS.ltb (m - JS.PI) 0) eqn:E;
    [apply JSFacts.ltb_lt in E | apply JSFacts.ltb_ge in E]; split; lra.
Qed.

(** *** The motifs of a tiling *)
Section Counts.
Variable T : t.
Variable M : JS.MathLib.

Lemma centres_length rows cols :
  length (centres T M rows cols) = (length rows * length cols)%nat.
Proof.
  unfold centres. induction rows as [|row rows IH]; simpl; [reflexivity|].
  rewrite length_app, length_map, IH. reflexivity.
Qed.

Lemma sum_constant {A : Type} (f : A -> nat) (c : nat) (l : list A) :
  Forall (fun b => f b = c) l -> sum_list (map f l) = (c * length l)%nat.
Proof.
  induction 1 as [|b l Hb _ IH]; simpl; [lia|]. rewrite Hb, IH. lia.
Qed.

Lemma sum_bounded {A : Type} (f : A -> nat) (c : nat) (l : list A) :
  Forall (fun b => (f b <= c)%nat) l -> (sum_list (map f l) <= c * length l)%nat.
Proof.
  induction 1 as [|b l Hb _ IH]; simpl; [lia|]. lia.
Qed.

(** The sizes of the merged phases of a tiling of [k] motifs. *)
Lemma tile_sizes fuel width height rows cols merged :
  rowsOf T M fuel height = Some rows -> colsOf T fuel width = Some cols ->
  tile T M fuel width height = Some merged ->
  let k := (length rows * length cols)%nat in
  exists e p, (e <= 2 * numPetals T * k)%nat /\ (p <= numPetals T * k)%nat
              /\ map length merged
                 = [(3 * k)%nat; (numPetals T * k)%nat; (numPetals T * k)%nat;
                    (2 * numPetals T * k)%nat; e; p; (numPetals T * k)%nat].
Proof.
  intros Hr Hc Ht k.
  destruct (tile_merged T M _ _ _ _ _ _ Hr Hc Ht) as (builds & HF & Hlen & Hnth).
  assert (Hk : length builds = k).
  { unfold k. rewrite <- centres_length. symmetry. eapply Forall2_length, HF. }
  assert (Hb : Forall (fun b => exists e p, (e <= 2 * numPetals T)%nat
                                            /\ (p <= numPetals T)%nat
                                            /\ map length b
                                               = [3%nat; numPetals T; numPetals T;
                                                  (2 * numPetals T)%nat; e; p; numPetals T])
                      builds).
  { clear -HF. induction HF as [|c b cs bs Hcb _ IH]; constructor; [|exact IH].
    apply (build_sizes T M _ _ _ Hcb). }
  assert (Hsum : forall pi, length (nth pi merged [])
                            = sum_list (map (fun b => length (nth pi b [])) builds)).
  { intros pi. rewrite Hnth.
    assert (E0 : nth pi (replicate maxPhases ([] : list Cmd)) [] = [])
      by (destruct pi as [|[|[|[|[|[|[|pi]]]]]]]; try reflexivity;
          cbn [replicate maxPhases nth]; destruct pi; reflexivity).
    rewrite E0. cbn [app]. rewrite length_concat. f_equal.
    unfold fmap, list_fmap. rewrite map_map. reflexivity. }
  assert (Hfix : forall pi c,
            Forall (fun b => length (nth pi b []) = c) builds ->
            length (nth pi merged []) = (c * k)%nat).
  { intros pi c H. rewrite Hsum, (sum_constant _ c _ H), Hk. reflexivity. }
  assert (Hle : forall pi c,
            Forall (fun b => (length (nth pi b []) <= c)%nat) builds ->
            (length (nth pi merged []) <= c * k)%nat).
  { intros pi c H. rewrite Hsum, <- Hk. apply sum_bounded, H. }
  assert (Hnthlen : forall (b : list (list Cmd)) pi,
            length (nth pi b []) = nth pi (map length b) 0%nat).
  { intros b pi. rewrite <- (map_nth (@length Cmd)). reflexivity. }
  exists (length (nth 4 merged [])), (length (nth 5 merged [])).
  split; [|split].
  - apply Hle. eapply Forall_impl; [exact Hb|]. intros b (e & p & He & Hp & E).
    rewrite Hnthlen, E. exact He.
  - apply Hle. eapply Forall_impl; [exact Hb|]. intros b (e & p & He & Hp & E).
    rewrite Hnthlen, E. exact Hp.
  - assert (H0 := Hfix 0%nat 3%nat). assert (H1 := Hfix 1%nat (numPetals T)).
    assert (H2 := Hfix 2%nat (numPetals T)). assert (H3 := Hfix 3%nat (2 * numPetals T)%nat).
    assert (H6 := Hfix 6%nat (numPetals T)).
    destruct merged as [|m0 [|m1 [|m2 [|m3 [|m4 [|m5 [|m6 [|m7 rest]]]]]]]];
      try discriminate Hlen.
    cbn [nth map] in *.
    rewrite H0, H1, H2, H3, H6; [reflexivity | | | | |];
      (eapply Forall_impl; [exact Hb|]); intros b (e & p & He & Hp & E);
      rewrite Hnthlen, E; reflexivity.
Qed.
End Counts.

End RosetteMore.

(** ** The page: what every reachable state satisfies *)

Module PageFacts.
Import Driver Page DriverFacts.

Section Invariant.
Context {U : Type}.
Implicit Types (sc n : Scene U) (d : State U).

(** A scene as [buildScene] returns it. *)
Definition fresh n : Prop :=
  spawnIdx n = 0%nat /\ done n = false /\ alpha n = 0 /\ fadingOut n = false
  /\ (2 <= tilesPerTick n)%Z /\ Forall (fun u => born u = (-1)%Z) (tiles n).

(** The units before the cursor carry the frame on which they were
    spawned, in non-decreasing order; the others still carry -1. *)
Definition stamped (f : Z) sc : Prop :=
  (spawnIdx sc <= length (tiles sc))%nat
  /\ (forall i u, tiles sc !! i = Some u ->
        if (i <? spawnIdx sc)%nat then (1 <= born u <= f)%Z else born u = (-1)%Z)
  /\ (forall i j u v, (i <= j)%nat -> (j < spawnIdx sc)%nat ->
        tiles sc !! i = Some u -> tiles sc !! j = Some v -> (born u <= born v)%Z).

(** The invariant of the page. *)
Definition wf d : Prop :=
  (0 <= frame d)%Z
  /\ exists sc, scene d = Some sc
       /\ 0 <= alpha sc /\ alpha sc <= 1
       /\ stamped (frame d) sc
       /\ (0 < tilesPerTick sc)%Z
       /\ match nextScene d with
          | Some n => fadingOut sc = true /\ fresh n
          | None => fadingOut sc = false
          end.

Lemma buildScene_is_fresh mk seed : fresh (buildScene (U := U) mk seed).
Proof.
  destruct (buildScene_fresh mk seed) as (A & B & C & D & _ & E & F).
  repeat split; assumption.
Qed.

Lemma fresh_stamped f n : fresh n -> stamped f n.
Proof.
  intros (Hi & _ & _ & _ & _ & Hb). unfold stamped. rewrite Hi.
  split; [lia|]. split.
  - intros i u Hu. cbn. rewrite Forall_forall in Hb. apply Hb.
    eapply list_elem_of_lookup_2, Hu.
  - intros i j u v _ Hj. lia.
Qed.

Lemma stamped_mono f f' sc : (f <= f')%Z -> stamped f sc -> stamped f' sc.
Proof.
  intros Hf (A & B & C). split; [exact A|]. split; [|exact C].
  intros i u Hu. specialize (B i u Hu). destruct (i <? spawnIdx sc)%nat; lia.
Qed.

Lemma stamped_setAlpha f a sc : stamped f sc -> stamped f (setAlpha a sc).
Proof. intros H. exact H. Qed.

(** One stamp. *)
Lemma stamped_step f frame sc :
  stamped f sc -> (f <= frame)%Z -> (1 <= frame)%Z ->
  (spawnIdx sc < length (tiles sc))%nat ->
  stamped frame
    (mkScene (type sc) (alter (setBorn frame) (spawnIdx sc) (tiles sc))
             (tilesPerTick sc) (holdLimit sc) (breatheSpeed sc)
             (S (spawnIdx sc)) (done sc) (holdAge sc) (alpha sc) (fadingOut sc)).
Proof.
  intros (A & B & C) Hf H1 Hlt. unfold stamped. cbn [tiles spawnIdx].
  rewrite length_alter. split; [lia|].
  assert (Hlook : forall i u,
            alter (setBorn frame) (spawnIdx sc) (tiles sc) !! i = Some u ->
            (i = spawnIdx sc /\ born u = frame)
            \/ (i <> spawnIdx sc /\ tiles sc !! i = Some u)).
  { intros i u Hu. destruct (Nat.eq_dec i (spawnIdx sc)) as [->|Hne].
    - left. split; [reflexivity|]. rewrite list_lookup_alter in Hu.
      destruct (decide (spawnIdx sc = spawnIdx sc)) as [_|Hne]; [|congruence].
      destruct (tiles sc !! spawnIdx sc) as [u0|]; [|discriminate Hu].
      injection Hu as <-. reflexivity.
    - right. split; [exact Hne|]. rewrite list_lookup_alter_ne in Hu by congruence.
      exact Hu. }
  split.
  - intros i u Hu. destruct (Hlook i u Hu) as [[-> Hb]|[Hne Hold]].
    + replace (spawnIdx sc <? S (spawnIdx sc))%nat with true
        by (symmetry; apply Nat.ltb_lt; lia). lia.
    + specialize (B i u Hold).
      destruct (Nat.ltb_spec i (spawnIdx sc)); destruct (Nat.ltb_spec i (S (spawnIdx sc)));
        lia.
  - intros i j u v Hij Hj Hu Hv.
    destruct (Hlook j v Hv) as [[-> Hb]|[Hne Hold]].
    + rewrite Hb. destruct (Hlook i u Hu) as [[_ Hb']|[Hne' Hold']]; [lia|].
      specialize (B i u Hold').
      destruct (Nat.ltb_spec i (spawnIdx sc)); lia.
    + destruct (Hlook i u Hu) as [[-> _]|[Hne' Hold']]; [lia|].
      apply (C i j u v Hij ltac:(lia) Hold' Hold).
Qed.

Lemma spawnLoop_stamped k f frame sc :
  stamped f sc -> (f <= frame)%Z -> (1 <= frame)%Z ->
  stamped frame (spawnLoop k frame sc).
Proof.
  revert f sc. induction k as [|k IH]; intros f sc Hs Hf H1; cbn [spawnLoop].
  - apply (stamped_mono f); assumption.
  - destruct (Nat.leb_spec (length (tiles sc)) (spawnIdx sc)) as [Hend|Hlt].
    + apply (stamped_mono f); [exact Hf|]. exact Hs.
    + apply (IH frame); [|lia|exact H1]. apply (stamped_step f); assumption.
Qed.

Lemma spawnLoop_fields k frame sc :
  alpha (spawnLoop k frame sc) = alpha sc
  /\ fadingOut (spawnLoop k frame sc) = fadingOut sc
  /\ tilesPerTick (spawnLoop k frame sc) = tilesPerTick sc.
Proof.
  revert sc. induction k as [|k IH]; intros sc; cbn [spawnLoop]; [repeat split|].
  destruct (_ <=? _)%nat; [repeat split|].
  destruct (IH (mkScene (type sc) (alter (setBorn frame) (spawnIdx sc) (tiles sc))
                        (tilesPerTick sc) (holdLimit sc) (breatheSpeed sc)
                        (S (spawnIdx sc)) (done sc) (holdAge sc) (alpha sc) (fadingOut sc)))
    as (A & B & C).
  repeat split; assumption.
Qed.

Lemma wf_start mk seed : wf (start mk seed).
Proof.
  pose proof (buildScene_is_fresh mk seed) as Hf.
  split; [cbn; lia|]. exists (buildScene mk seed).
  split; [reflexivity|].
  destruct Hf as (A & B & C & D & E & F) eqn:Efresh. clear Efresh.
  rewrite C. split; [lra|]. split; [lra|].
  split; [apply fresh_stamped; repeat split; assumption|].
  split; [lia|]. exact D.
Qed.

Lemma wf_click mk seed d : wf d -> wf (triggerNewScene mk seed d).
Proof.
  intros (Hfr & sc & Hsc & Ha0 & Ha1 & Hst & Htpt & Hnext).
  unfold triggerNewScene. rewrite Hsc.
  destruct (nextScene d) as [n|] eqn:En.
  - destruct Hnext as [Hfo Hn]. rewrite Hfo. cbn [negb andb].
    split; [exact Hfr|]. exists sc. try rewrite En. auto 10.
  - rewrite Hnext. cbn [negb andb]. rewrite bool_decide_false by (intros [? ?]; discriminate).
    cbn [negb]. split; [exact Hfr|].
    eexists. split; [reflexivity|]. cbn [alpha tilesPerTick nextScene frame fadingOut].
    split; [exact Ha0|]. split; [exact Ha1|]. split; [exact Hst|].
    split; [exact Htpt|]. split; [reflexivity | apply buildScene_is_fresh].
Qed.

Lemma max_0_range a : 0 <= JS.max 0 a /\ (a <= 1 -> JS.max 0 a <= 1).
Proof.
  unfold JS.max. destruct (JS.ltb 0 a) eqn:E;
    [apply JSFacts.ltb_lt in E | apply JSFacts.ltb_ge in E]; split; intros; lra.
Qed.

Lemma min_1_range a : 0 <= a -> 0 <= JS.min 1 a /\ JS.min 1 a <= 1.
Proof.
  intros Ha. unfold JS.min. destruct (JS.ltb a 1) eqn:E;
    [apply JSFacts.ltb_lt in E | apply JSFacts.ltb_ge in E]; split; lra.
Qed.

(** The cross-fade keeps the invariant, whatever the frame counter. *)
Lemma wf_crossFade d : wf d -> wf (crossFade d).
Proof.
  intros (Hfr & sc & Hsc & Ha0 & Ha1 & Hst & Htpt & Hnext).
  unfold crossFade. rewrite Hsc.
  destruct (fadingOut sc) eqn:Hfo.
  - destruct (nextScene d) as [n|] eqn:En; [|discriminate Hnext].
    destruct Hnext as [_ Hn]. cbv zeta.
    destruct (max_0_range (alpha sc - SCENE_FADE)) as [M0 M1].
    destruct (Qle_bool _ 0) eqn:Ez.
    + cbn [option_map]. split; [exact Hfr|]. exists (setAlpha 0 n).
      split; [reflexivity|]. cbn [alpha setAlpha nextScene frame].
      split; [lra|]. split; [lra|].
      split; [apply stamped_setAlpha, fresh_stamped, Hn|].
      destruct Hn as (_ & _ & _ & Hfn & Ht & _).
      split; [cbn [setAlpha tilesPerTick]; lia|]. exact Hfn.
    + split; [exact Hfr|]. eexists. split; [reflexivity|].
      cbn [alpha setAlpha nextScene frame]. try rewrite En.
      split; [exact M0|]. split; [apply M1; change SCENE_FADE with (15 # 1000); lra|].
      split; [exact Hst|]. split; [exact Htpt|]. split; [exact Hfo | exact Hn].
  - destruct (nextScene d) as [n|] eqn:En; [destruct Hnext; discriminate|].
    destruct (JS.ltb (alpha sc) 1) eqn:El.
    + destruct (min_1_range (alpha sc + SCENE_FADE)) as [M0 M1];
        [change SCENE_FADE with (15 # 1000); lra|].
      split; [exact Hfr|]. eexists. split; [reflexivity|].
      cbn [alpha setAlpha nextScene frame]. try rewrite En.
      split; [exact M0|]. split; [exact M1|].
      split; [exact Hst|]. split; [exact Htpt|]. exact Hfo.
    + split; [exact Hfr|]. exists sc. try rewrite En. auto 10.
Qed.

(** The spawn section keeps it when the frame counter is positive. *)
Lemma wf_spawn mk seed d : wf d -> (1 <= frame d)%Z -> wf (spawn mk seed d).
Proof.
  intros (Hfr & sc & Hsc & Ha0 & Ha1 & Hst & Htpt & Hnext) H1.
  unfold spawn. rewrite Hsc.
  destruct (done sc) eqn:Hd; cbn [negb].
  - cbv zeta.
    set (sc' := mkScene _ _ _ _ _ _ _ _ _ _).
    assert (Hwf : wf (mkState (Some sc') (nextScene d) (frame d))).
    { split; [exact Hfr|]. exists sc'. split; [reflexivity|].
      cbn [nextScene frame]. auto 10. }
    destruct (_ && _); [apply wf_click, Hwf | exact Hwf].
  - destruct (spawnLoop_fields (Z.to_nat (tilesPerTick sc)) (frame d) sc) as (A & B & C).
    split; [exact Hfr|]. eexists. split; [reflexivity|].
    cbn [nextScene frame]. rewrite A, B, C.
    split; [exact Ha0|]. split; [exact Ha1|].
    split; [apply (spawnLoop_stamped _ (frame d)); [exact Hst | lia | exact H1]|].
    split; [exact Htpt | exact Hnext].
Qed.

Lemma wf_tick d : wf d -> wf (mkState (scene d) (nextScene d) (frame d + 1)).
Proof.
  intros (Hfr & sc & Hsc & Ha0 & Ha1 & Hst & Htpt & Hnext).
  split; [cbn; lia|]. exists sc. cbn [scene nextScene frame].
  split; [exact Hsc|]. split; [exact Ha0|]. split; [exact Ha1|].
  split; [apply (stamped_mono (frame d)); [lia | exact Hst]|].
  split; [exact Htpt | exact Hnext].
Qed.

Lemma crossFade_frame d : frame (crossFade d) = frame d.
Proof.
  unfold crossFade. destruct (scene d) as [sc|]; [|reflexivity].
  destruct (fadingOut sc).
  - cbv zeta. destruct (Qle_bool _ 0); reflexivity.
  - destruct (JS.ltb (alpha sc) 1); reflexivity.
Qed.

Lemma wf_loop mk seed d : wf d -> wf (loop mk seed d).
Proof.
  intros H. unfold loop. cbv zeta.
  pose proof (wf_crossFade _ (wf_tick d H)) as Hc.
  pose proof (crossFade_frame (mkState (scene d) (nextScene d) (frame d + 1))) as Hf.
  cbn [frame] in Hf.
  destruct (scene (crossFade _)) eqn:Es; [|exact Hc].
  apply wf_spawn; [exact Hc|]. rewrite Hf. destruct H as [H0 _]. lia.
Qed.

Lemma wf_act d a : wf d -> wf (act d a).
Proof.
  intros H. destruct a as [mk seed|mk seed|mk seed]; cbn [act].
  - apply wf_loop, H.
  - apply wf_click, H.
  - apply wf_start.
Qed.

(** Every state the page reaches satisfies the invariant. *)
Lemma wf_run l d : wf d -> wf (run l d).
Proof.
  unfold run. revert d. induction l as [|a l IH]; intros d H; cbn [fold_left]; [exact H|].
  apply IH, wf_act, H.
Qed.

(** *** What is drawn *)

Lemma filter_prefix (l : list (Unit U)) (k : nat) :
  (k <= length l)%nat ->
  (forall i u, l !! i = Some u -> Styling.isDrawn u = (i <? k)%nat) ->
  List.filter Styling.isDrawn l = take k l.
Proof.
  revert k. induction l as [|u l IH]; intros k Hk H.
  - destruct k; reflexivity.
  - cbn [List.filter]. rewrite (H 0%nat u eq_refl).
    destruct k as [|k].
    + cbn [Nat.ltb Nat.leb take].
      assert (E : List.filter Styling.isDrawn l = take 0 l).
      { apply IH; [lia|]. intros i v Hv. rewrite (H (S i) v Hv). reflexivity. }
      rewrite E. destruct l; reflexivity.
    + cbn [Nat.ltb Nat.leb take]. f_equal. apply IH; [simpl in Hk; lia|].
      intros i v Hv. rewrite (H (S i) v Hv). reflexivity.
Qed.

Lemma stamped_drawn f sc : stamped f sc -> Styling.drawn sc = take (spawnIdx sc) (tiles sc).
Proof.
  intros (A & B & _). unfold Styling.drawn. apply filter_prefix; [exact A|].
  intros i u Hu. specialize (B i u Hu). unfold Styling.isDrawn.
  destruct (i <? spawnIdx sc)%nat.
  - destruct (Z.ltb_spec (born u) 0); [lia | reflexivity].
  - rewrite B. reflexivity.
Qed.

Lemma fadeIn_range (frame born : Z) :
  (0 <= born <= frame)%Z -> 0 <= Styling.fadeIn frame born /\ Styling.fadeIn frame born <= 1.
Proof.
  intros H. unfold Styling.fadeIn, FADE_FRAMES. cbv zeta.
  assert (Hage : 0 <= inject_Z (frame - born))
    by (change 0 with (inject_Z 0); rewrite <- Zle_Qle; lia).
  set (age := inject_Z (frame - born)) in *. clearbody age.
  destruct (JS.ltb age 30) eqn:E; [apply JSFacts.ltb_lt in E | split; lra].
  split.
  - apply Qle_shift_div_l; [reflexivity | lra].
  - apply Qle_shift_div_r; [reflexivity | lra].
Qed.
End Invariant.

End PageFacts.

(** ** The page: a staged scene takes over *)

Module FadeFacts.
Import Driver Page DriverFacts PageFacts.

Section Fade.
Context {U : Type}.
Variable mk : option SceneType -> Z -> list U.
Implicit Types (sc n : Scene U) (d : State U).

(** The [alpha] the cross-fade gives a scene that is fading out. *)
Definition faded sc : Q := JS.max 0 (alpha sc - SCENE_FADE).

(** One frame of a fade-out: the staged scene takes over when [faded]
    is 0, and stays staged otherwise. *)
Lemma loop_fading seed d sc n :
  wf d -> scene d = Some sc -> nextScene d = Some n ->
  (Qle_bool (faded sc) 0 = true ->
   exists sc', scene (loop mk seed d) = Some sc'
               /\ nextScene (loop mk seed d) = None
               /\ map body (tiles sc') = map body (tiles n)
               /\ alpha sc' = 0)
  /\ (Qle_bool (faded sc) 0 = false ->
      exists sc1, scene (loop mk seed d) = Some sc1
                  /\ nextScene (loop mk seed d) = Some n
                  /\ alpha sc1 = faded sc).
Proof.
  intros (Hfr & sc0 & Hsc0 & Ha0 & Ha1 & Hst & Htpt & Hnext) Hsc Hn.
  rewrite Hsc in Hsc0. injection Hsc0 as <-. rewrite Hn in Hnext.
  destruct Hnext as [Hfo Hfresh].
  unfold loop. cbv zeta. unfold crossFade. cbn [scene nextScene frame].
  rewrite Hsc, Hfo, Hn. cbv zeta. fold (faded sc). split; intros Hz; rewrite Hz.
  - cbn [option_map scene]. unfold spawn. cbn [scene nextScene frame setAlpha done].
    destruct Hfresh as (Hi & Hd & _ & _ & _ & _). rewrite Hd. cbn [negb].
    eexists. split; [reflexivity|]. split; [reflexivity|].
    destruct (spawnLoop_spec (Z.to_nat (tilesPerTick n)) (frame d + 1) (setAlpha 0 n))
      as ((Hb & _) & _ & _ & _ & Hal & _).
    { cbn [setAlpha spawnIdx tiles]. rewrite Hi. lia. }
    cbn [setAlpha tiles alpha tilesPerTick] in *. split; [exact Hb | exact Hal].
  - cbn [scene]. unfold spawn. cbn [scene nextScene frame].
    destruct (done (setAlpha (faded sc) sc)) eqn:Hd; cbn [negb].
    + cbv zeta. rewrite bool_decide_true by eauto. cbn [negb]. rewrite andb_false_r.
      eexists. split; [reflexivity|]. split; [reflexivity|]. reflexivity.
    + eexists. split; [reflexivity|]. split; [reflexivity|].
      destruct (spawnLoop_fields (Z.to_nat (tilesPerTick (setAlpha (faded sc) sc)))
                                 (frame d + 1) (setAlpha (faded sc) sc)) as (A & _).
      rewrite A. reflexivity.
Qed.

Lemma faded_step sc (m : nat) :
  alpha sc <= inject_Z (Z.of_nat (S m)) * (15 # 1000) ->
  Qle_bool (faded sc) 0 = false ->
  faded sc <= inject_Z (Z.of_nat m) * (15 # 1000) /\ (1 <= m)%nat.
Proof.
  intros Ha Hz. unfold faded in *. change SCENE_FADE with (15 # 1000) in *.
  assert (Hpos : 0 < JS.max 0 (alpha sc - (15 # 1000))).
  { apply Qnot_le_lt. intros H. apply Qle_bool_iff in H. congruence. }
  rewrite Nat2Z.inj_succ in Ha. unfold Z.succ in Ha. rewrite inject_Z_plus in Ha.
  change (inject_Z 1) with 1 in Ha.
  unfold JS.max in *. destruct (JS.ltb 0 (alpha sc - (15 # 1000))) eqn:E; [|lra].
  split; [lra|].
  destruct m as [|m]; [|lia]. change (inject_Z (Z.of_nat 0)) with 0 in *. lra.
Qed.

(** Within [m] frames, when [alpha] is at most [m] steps of the fade. *)
Lemma fade_out_within (m : nat) :
  forall d sc n seeds,
    wf d -> scene d = Some sc -> nextScene d = Some n ->
    alpha sc <= inject_Z (Z.of_nat m) * (15 # 1000) ->
    (1 <= m)%nat -> (m <= length seeds)%nat ->
    exists k sc',
      (1 <= k <= m)%nat
      /\ scene (frames mk (take k seeds) d) = Some sc'
      /\ nextScene (frames mk (take k seeds) d) = None
      /\ map body (tiles sc') = map body (tiles n)
      /\ alpha sc' = 0.
Proof.
  induction m as [|m IH]; intros d sc n seeds Hwf Hsc Hn Ha Hm Hlen; [lia|].
  destruct seeds as [|s seeds]; [simpl in Hlen; lia|].
  destruct (loop_fading s d sc n Hwf Hsc Hn) as [Hswap Hkeep].
  destruct (Qle_bool (faded sc) 0) eqn:Hz.
  - destruct (Hswap eq_refl) as (sc' & A & B & C & D).
    exists 1%nat, sc'. split; [lia|]. cbn [take frames fold_left]. auto.
  - destruct (Hkeep eq_refl) as (sc1 & A & B & C).
    destruct (faded_step sc m Ha Hz) as [Ha' Hm'].
    destruct (IH (loop mk s d) sc1 n seeds) as (k & sc' & Hk & R1 & R2 & R3 & R4);
      [apply wf_loop, Hwf | exact A | exact B | rewrite C; exact Ha' | exact Hm'
      | simpl in Hlen; lia |].
    exists (S k), sc'. split; [lia|]. cbn [take frames fold_left]. auto.
Qed.
End Fade.

End FadeFacts.

(** ** Styles and scene parameters *)

Module StyleFacts.
Import Styling.

Lemma unit_fraction (z : Z) :
  0 <= inject_Z (z mod 2 ^ 32) / 4294967295 /\ inject_Z (z mod 2 ^ 32) / 4294967295 <= 1.
Proof.
  pose proof (Z.mod_pos_bound z (2 ^ 32) ltac:(lia)) as [H0 H1].
  set (u := (z mod 2 ^ 32)%Z) in *. clearbody u.
  assert (Hu0 : 0 <= inject_Z u) by (change 0 with (inject_Z 0); rewrite <- Zle_Qle; exact H0).
  assert (Hu1 : inject_Z u <= 4294967295).
  { change 4294967295 with (inject_Z 4294967295). rewrite <- Zle_Qle.
    change (2 ^ 32)%Z with 4294967296%Z in H1. lia. }
  split.
  - apply Qle_shift_div_l; [reflexivity | lra].
  - apply Qle_shift_div_r; [reflexivity | lra].
Qed.

(** [hash3] returns a number between 0 and 1. *)
Lemma hash3_range (a b c : Z) : 0 <= Driver.hash3 a b c /\ Driver.hash3 a b c <= 1.
Proof. unfold Driver.hash3. cbv zeta. apply unit_fraction. Qed.

(** [Math.floor(u * k)] for [0 <= u < 1] and a positive integer [k]. *)
Lemma floor_scaled (u : Q) (k : Z) :
  0 <= u -> u < 1 -> (0 < k)%Z -> (0 <= JS.floor (u * inject_Z k) < k)%Z.
Proof.
  intros H0 H1 Hk. unfold JS.floor.
  assert (Hq : 0 < inject_Z k) by (change 0 with (inject_Z 0); rewrite <- Zlt_Qlt; exact Hk).
  split.
  - change 0%Z with (Qfloor 0). apply Qfloor_resp_le.
    apply Qmult_le_0_compat; lra.
  - pose proof (Qfloor_le (u * inject_Z k)) as Hf.
    assert (Hlt : u * inject_Z k < inject_Z k).
    { assert (E : inject_Z k == 1 * inject_Z k) by ring.
      rewrite E at 2. apply Qmult_lt_compat_r; assumption. }
    assert (Hz : inject_Z (Qfloor (u * inject_Z k)) < inject_Z k) by lra.
    rewrite <- Zlt_Qlt in Hz. exact Hz.
Qed.

Lemma next_range (x : Z) : 0 <= fst (Driver.next x) /\ fst (Driver.next x) < 1.
Proof.
  rewrite Xorshift.next_eq. cbn [fst]. split.
  - apply Xorshift.output_range.
  - apply Xorshift.rand_lt_1.
Qed.

Section Unit.
Variable M : JS.MathLib.
Variables cx cy : Q.
Variable P : Params.

Lemma affine_range (lo w h : Q) :
  0 <= w -> 0 <= h -> h <= 1 -> lo <= lo + h * w /\ lo + h * w <= lo + w.
Proof.
  intros Hw H0 H1.
  assert (A : 0 <= h * w) by (apply Qmult_le_0_compat; assumption).
  assert (B : h * w <= 1 * w) by (apply Qmult_le_compat_r; assumption).
  split; lra.
Qed.

Lemma styleUnit_ranges :
  let st := styleUnit M cx cy P in
  (12 # 100 <= strokeOpacity st /\ strokeOpacity st <= 64 # 100)
  /\ (25 # 100 <= lineWidth st /\ lineWidth st <= 185 # 100)
  /\ (0 <= breathePhase st /\ breathePhase st <= JS.PI * 2)
  /\ (doFill st = true \/ doStroke st = true)
  /\ (doDash st = true -> doFill st = false /\ doStroke st = true)
  /\ (doFill st = false -> fillOpacity st = 0)
  /\ (doFill st = true -> 4 # 100 <= fillOpacity st /\ fillOpacity st <= 22 # 100)
  /\ (fillChance P <= 0 -> doFill st = false)
  /\ (1 < fillChance P -> doFill st = true)
  /\ (0 <= maxDashLen P -> 1 <= dashLen st /\ dashLen st <= 1 + maxDashLen P)
  /\ (0 <= maxGapLen P -> 1 <= gapLen st /\ gapLen st <= 1 + maxGapLen P)
  /\ born st = (-1)%Z.
Proof.
  unfold styleUnit. cbv zeta.
  cbn [strokeOpacity lineWidth breathePhase doFill doStroke fillOpacity doDash dashLen
       gapLen born].
  set (bx := pixel cx). set (by_ := pixel cy).
  pose proof (hash3_range bx by_ (s1 P)) as [A1 B1].
  pose proof (hash3_range bx by_ (s2 P)) as [A2 B2].
  pose proof (hash3_range bx by_ (s1 P + 7)) as [A3 B3].
  pose proof (hash3_range bx by_ (s1 P + 41)) as [A5 B5].
  pose proof (hash3_range bx by_ (s1 P + 97)) as [A7 B7].
  pose proof (hash3_range (bx + 1) by_ (s1 P)) as [A9 B9].
  pose proof (hash3_range bx (by_ + 1) (s2 P)) as [A10 B10].
  set (h1 := Driver.hash3 bx by_ (s1 P)) in *.
  set (h2 := Driver.hash3 bx by_ (s2 P)) in *.
  set (h3 := Driver.hash3 bx by_ (s1 P + 7)) in *.
  set (h5 := Driver.hash3 bx by_ (s1 P + 41)) in *.
  set (h6 := Driver.hash3 bx by_ (s2 P + 53)) in *.
  set (h7 := Driver.hash3 bx by_ (s1 P + 97)) in *.
  set (h8 := Driver.hash3 bx by_ (s2 P + 113)) in *.
  set (h9 := Driver.hash3 (bx + 1) by_ (s1 P)) in *.
  set (h10 := Driver.hash3 bx (by_ + 1) (s2 P)) in *.
  clearbody h1 h2 h3 h5 h6 h7 h8 h9 h10.
  pose proof RosetteMore.PI_pos as Hpi.
  split.
  { change (12 / 100) with (12 # 100). change (52 / 100) with (52 # 100). split; lra. }
  split.
  { change (25 / 100) with (25 # 100). change (160 / 100) with (160 # 100). split; lra. }
  split.
  { assert (E : h3 * JS.PI * 2 == h3 * (JS.PI * 2)) by ring. rewrite E.
    split.
    - apply Qmult_le_0_compat; lra.
    - assert (E2 : JS.PI * 2 == 1 * (JS.PI * 2)) by ring. rewrite E2 at 2.
      apply Qmult_le_compat_r; lra. }
  split.
  { destruct (JS.ltb h5 (fillChance P)); [left | right]; reflexivity. }
  split.
  { destruct (JS.ltb h5 (fillChance P)); cbn [negb andb orb]; [discriminate|].
    intros _. split; reflexivity. }
  split.
  { intros ->. reflexivity. }
  split.
  { intros ->. change (4 / 100) with (4 # 100). change (18 / 100) with (18 # 100).
    split; lra. }
  split.
  { intros Hf. destruct (JS.ltb h5 (fillChance P)) eqn:E; [|reflexivity].
    apply JSFacts.ltb_lt in E. lra. }
  split.
  { intros Hf. apply JSFacts.ltb_lt. lra. }
  split.
  { intros Hm. destruct (affine_range 1 (maxDashLen P) h9 Hm A9 B9). split; assumption. }
  split.
  { intros Hm. destruct (affine_range 1 (maxGapLen P) h10 Hm A10 B10). split; assumption. }
  reflexivity.
Qed.
End Unit.

(** The style depends on the centre only through its pixel. *)
Lemma styleUnit_pixel M cx cy cx' cy' P :
  pixel cx = pixel cx' -> pixel cy = pixel cy' ->
  let st := styleUnit M cx cy P in
  let st' := styleUnit M cx' cy' P in
  strokeOpacity st = strokeOpacity st' /\ lineWidth st = lineWidth st'
  /\ breathePhase st = breathePhase st' /\ breatheAmpT st = breatheAmpT st'
  /\ doFill st = doFill st' /\ doStroke st = doStroke st'
  /\ fillOpacity st = fillOpacity st' /\ doDash st = doDash st'
  /\ dashLen st = dashLen st' /\ gapLen st = gapLen st'.
Proof.
  intros Hx Hy. unfold styleUnit. cbv zeta. rewrite Hx, Hy.
  repeat split; reflexivity.
Qed.

(** Truncation sends the open interval (-1, 1) to pixel 0. *)
Lemma pixel_near_zero (c : Q) : -1 < c -> c < 1 -> pixel c = 0%Z.
Proof.
  intros H0 H1. unfold pixel, JS.trunc. destruct c as [n d].
  unfold Qlt in H0, H1. cbn [Qnum Qden] in *.
  assert (E : (Z.abs n < Z.abs (Z.pos d))%Z) by lia.
  rewrite (proj2 (Z.quot_small_iff n (Z.pos d) ltac:(lia)) E). reflexivity.
Qed.

(** *** The parameters of a scene *)
Section Build.
Context {U : Type}.
Variable mkUnits : option Driver.SceneType -> Z -> list U.

Lemma buildScene_ranges seed :
  let sc := Driver.buildScene mkUnits seed in
  is_Some (Driver.type sc)
  /\ (2 <= Driver.tilesPerTick sc <= 9)%Z
  /\ (480 <= Driver.holdLimit sc <= 1919)%Z
  /\ 3 # 10 <= Driver.breatheSpeed sc /\ Driver.breatheSpeed sc < 15 # 10.
Proof.
  unfold Driver.buildScene. cbv zeta.
  pose proof (next_range (Driver.makeRng seed)) as R1.
  destruct (Driver.next (Driver.makeRng seed)) as [u1 x1]. cbn [fst] in R1.
  pose proof (next_range x1) as R2.
  destruct (Driver.next x1) as [u2 x2]. cbn [fst] in R2.
  destruct (Driver.next x2) as [u3 x3].
  pose proof (next_range x3) as R4.
  destruct (Driver.next x3) as [u4 x4]. cbn [fst] in R4.
  pose proof (next_range x4) as R5.
  destruct (Driver.next x4) as [u5 x5]. cbn [fst] in R5.
  cbn [Driver.type Driver.tilesPerTick Driver.holdLimit Driver.breatheSpeed].
  split; [|split; [|split; [|split]]].
  - change (inject_Z (Z.of_nat (length Driver.SCENE_TYPES))) with (inject_Z 4).
    destruct R1 as [A B].
    pose proof (floor_scaled u1 4 A B ltac:(lia)) as Hf.
    apply RosetteFacts.index_in_range.
    change (Z.of_nat (length Driver.SCENE_TYPES)) with 4%Z. exact Hf.
  - destruct R4 as [A B]. pose proof (floor_scaled u4 8 A B ltac:(lia)) as Hf.
    change (inject_Z 8) with 8 in Hf. lia.
  - destruct R5 as [A B]. pose proof (floor_scaled u5 1440 A B ltac:(lia)) as Hf.
    change (inject_Z 1440) with 1440 in Hf. lia.
  - destruct R2 as [A B]. change (3 / 10) with (3 # 10). change (12 / 10) with (12 # 10). lra.
  - destruct R2 as [A B]. change (3 / 10) with (3 # 10). change (12 / 10) with (12 # 10). lra.
Qed.
End Build.

End StyleFacts.

(** * Further statements *)

(** X1.  With a positive edge length (and a positive [Math.sqrt(3)])
    [generateTiles] returns for every viewport and seed.  What it returns is
    the lattice of tiles [tileAt row col], one for every row and column the
    two loops visit, sorted by distance from the viewport centre: as many
    tiles as rows times columns.  Both loops start at -2, so a viewport of
    non-negative width and height gives at least 4 rows and 4 columns:
    sixteen tiles or more, even when the viewport is empty. *)
Theorem hat_tiles_are_the_sorted_lattice (T : HatTiling.t) (M : JS.MathLib) (width height : Q) :
  0 < HatTiling.s T -> 0 < JS.sqrt M 3 ->
  exists fuel0, forall fuel, (fuel0 <= fuel)%nat ->
    exists rows cols,
      HatLattice.rowsOf T M fuel height = Some rows
      /\ HatLattice.colsOf T M fuel width = Some cols
      /\ HatTiling.generateTiles T M fuel width height
         = Some (JS.sort (HatTiling.byDistance M (width / 2) (height / 2))
                         (HatLattice.lattice T M rows cols))
      /\ (forall tiles, HatTiling.generateTiles T M fuel width height = Some tiles ->
                        length tiles = (length rows * length cols)%nat
                        /\ (0 <= width -> 0 <= height -> (16 <= length tiles)%nat)).
Proof.
  intros Hs H3.
  assert (Hcol : 0 < HatLattice.colStep T)
    by (unfold HatLattice.colStep; apply Qmult_lt_0_compat; [exact Hs | reflexivity]).
  assert (Hrow : 0 < HatLattice.rowStep T M).
  { unfold HatLattice.rowStep.
    assert (0 < HatTiling.s T * JS.sqrt M 3) by (apply Qmult_lt_0_compat; assumption).
    set (p := HatTiling.s T * JS.sqrt M 3) in *. clearbody p.
    assert (E : p / 2 * 3 == p * (3 / 2)) by field. rewrite E.
    apply Qmult_lt_0_compat; [assumption | reflexivity]. }
  destruct (JSFacts.count_loop_total (HatLattice.rowStep T M) (height + HatLattice.pad T M) (-2) Hrow)
    as [nr Hr].
  destruct (JSFacts.count_loop_total (HatLattice.colStep T) (width + HatLattice.pad T M) (-2) Hcol)
    as [nc Hc].
  exists (S (nr + nc)). intros fuel Hfuel.
  destruct (Hr fuel ltac:(lia)) as [rows Er].
  destruct (Hc fuel ltac:(lia)) as [cols Ec].
  exists rows, cols. split; [exact Er|]. split; [exact Ec|].
  assert (Eg : HatTiling.generateTiles T M fuel width height
               = Some (JS.sort (HatTiling.byDistance M (width / 2) (height / 2))
                               (HatLattice.lattice T M rows cols))).
  { unfold HatTiling.generateTiles.
    rewrite (HatLattice.placeTiles_lattice T M fuel width height rows cols Er Ec).
    reflexivity. }
  split; [exact Eg|].
  intros tiles Ht. rewrite Eg in Ht. injection Ht as <-.
  assert (El : length (JS.sort (HatTiling.byDistance M (width / 2) (height / 2))
                               (HatLattice.lattice T M rows cols))
               = (length rows * length cols)%nat).
  { rewrite <- (HatLattice.lattice_length T M). apply Permutation_length, JSFacts.sort_perm. }
  split; [exact El|]. intros Hw Hh. rewrite El.
  pose proof (HatLattice.max_ge_l (HatLattice.colStep T) (HatLattice.rowStep T M)) as Hm1.
  pose proof (HatLattice.max_ge_r (HatLattice.colStep T) (HatLattice.rowStep T M)) as Hm2.
  assert (4 <= length rows)%nat.
  { apply (HatLattice.loop_from_minus_2 fuel _ _ _ Hrow) in Er; [exact Er|].
    unfold HatLattice.pad. lra. }
  assert (4 <= length cols)%nat.
  { apply (HatLattice.loop_from_minus_2 fuel _ _ _ Hcol) in Ec; [exact Ec|].
    unfold HatLattice.pad. lra. }
  nia.
Qed.

Lemma hat_tiles_are_the_sorted_lattice_witness :
  exists fuel0, forall fuel, (fuel0 <= fuel)%nat ->
    exists rows cols,
      HatLattice.rowsOf demoHat RefMath.lib fuel 10 = Some rows
      /\ HatLattice.colsOf demoHat RefMath.lib fuel 10 = Some cols
      /\ HatTiling.generateTiles demoHat RefMath.lib fuel 10 10
         = Some (JS.sort (HatTiling.byDistance RefMath.lib (10 / 2) (10 / 2))
                         (HatLattice.lattice demoHat RefMath.lib rows cols))
      /\ (forall tiles, HatTiling.generateTiles demoHat RefMath.lib fuel 10 10 = Some tiles ->
                        length tiles = (length rows * length cols)%nat
                        /\ (0 <= 10 -> 0 <= 10 -> (16 <= length tiles)%nat)).
Proof.
  apply (hat_tiles_are_the_sorted_lattice demoHat RefMath.lib 10 10);
    vm_compute; reflexivity.
Defined.

(** X2.  The orientation index of the cell [(col, row)] is
    [3 col + 5 row + orientSeed] modulo 8, whatever the signs and sizes of
    the three integers (the mask [& 0xff] makes the operand of [% 8]
    non-negative).  Hence two seeds that agree modulo 8 give the same
    tiles in the same order. *)
Theorem hat_orientation_seed_counts_modulo_8 (e : Q) (seed seed' : Z) (M : JS.MathLib)
    (fuel : nat) (width height : Q) :
  (seed mod 8 = seed' mod 8)%Z ->
  (forall col row,
     HatTiling.orientIndex (HatTiling.mk e seed) col row
     = ((col * 3 + row * 5 + seed) mod 8)%Z)
  /\ HatTiling.generateTiles (HatTiling.mk e seed) M fuel width height
     = HatTiling.generateTiles (HatTiling.mk e seed') M fuel width height.
Proof.
  intros Hs. split.
  - intros col row. apply HatLattice.orientIndex_mod.
  - apply HatLattice.generateTiles_seed, Hs.
Qed.

Lemma hat_orientation_seed_counts_modulo_8_witness :
  (forall col row,
     HatTiling.orientIndex (HatTiling.mk 28 3) col row
     = ((col * 3 + row * 5 + 3) mod 8)%Z)
  /\ HatTiling.generateTiles (HatTiling.mk 28 3) RefMath.lib 10 10 10
     = HatTiling.generateTiles (HatTiling.mk 28 65515) RefMath.lib 10 10 10.
Proof.
  apply (hat_orientation_seed_counts_modulo_8 28 3 65515 RefMath.lib 10 10 10).
  reflexivity.
Defined.

(** X3.  The tiling placed is periodic.  [tileAt row col] is the tile the
    loops push at [(row, col)]; moving by [a] columns and [b] rows, with
    [b] even and [3 a + 5 b] a multiple of 8 (two columns and two rows, for
    instance), between rows that are not negative, gives the same outline
    translated by [(a * colStep, b * rowStep)]. *)
Theorem hat_lattice_is_periodic (T : HatTiling.t) (M : JS.MathLib) (row col a b : Z) :
  (0 <= row)%Z -> (0 <= row + b)%Z -> (b mod 2 = 0)%Z -> ((3 * a + 5 * b) mod 8 = 0)%Z ->
  HatTiling.tilePoly T M (HatTiling.cx (HatLattice.tileAt T M row col))
                     (HatTiling.cy (HatLattice.tileAt T M row col))
                     (HatTiling.orientIndex T col row)
  = Some (HatTiling.poly (HatLattice.tileAt T M row col))
  /\ HatLattice.translated (inject_Z a * HatLattice.colStep T)
                           (inject_Z b * HatLattice.rowStep T M)
                           (HatLattice.tileAt T M row col)
                           (HatLattice.tileAt T M (row + b) (col + a)).
Proof.
  intros H0 H1 Hb Hab. split.
  - apply HatLattice.tilePoly_tileAt.
  - apply HatLattice.tileAt_translated; assumption.
Qed.

Lemma hat_lattice_is_periodic_witness :
  HatTiling.tilePoly demoHat RefMath.lib
                     (HatTiling.cx (HatLattice.tileAt demoHat RefMath.lib 0 0))
                     (HatTiling.cy (HatLattice.tileAt demoHat RefMath.lib 0 0))
                     (HatTiling.orientIndex demoHat 0 0)
  = Some (HatTiling.poly (HatLattice.tileAt demoHat RefMath.lib 0 0))
  /\ HatLattice.translated (inject_Z 2 * HatLattice.colStep demoHat)
                           (inject_Z 2 * HatLattice.rowStep demoHat RefMath.lib)
                           (HatLattice.tileAt demoHat RefMath.lib 0 0)
                           (HatLattice.tileAt demoHat RefMath.lib (0 + 2) (0 + 2)).
Proof.
  apply (hat_lattice_is_periodic demoHat RefMath.lib 0 0 2 2); [lia | lia | reflexivity ..].
Defined.

(** X4.  With positive [baseSize] and [minSize], [generate] returns for
    every viewport and seed: the two loops and the recursion of
    [processCell] end.  A viewport of non-negative width and height has at
    least two rows and two columns of top-level cells, so at least eight
    arcs come back. *)
Theorem truchet_generate_returns (T : Truchet.t) (M : JS.MathLib) (width height : Q)
    (seed : Z) :
  0 < Truchet.baseSize T -> 0 < Truchet.minSize T ->
  exists fuel0, forall fuel, (fuel0 <= fuel)%nat ->
    exists cmds, Truchet.generate T M fuel width height seed = Some cmds
                 /\ (0 <= width -> 0 <= height -> (8 <= length cmds)%nat).
Proof.
  intros Hb Hm.
  destruct (TruchetFacts.cells_total T Hb Hm width height seed) as [fuel0 H].
  exists fuel0. intros fuel Hfuel.
  destruct (H fuel Hfuel) as (ys & xs & st & Hy & Hx & Hst).
  assert (Hg : Truchet.generate T M fuel width height seed
               = Some (JS.sort (Truchet.byDistance M (width / 2) (height / 2))
                               (Truchet.cmds st))).
  { unfold Truchet.generate. rewrite Hst. reflexivity. }
  eexists. split; [exact Hg|]. intros Hw Hh.
  pose proof (TruchetRange.generate_count T M fuel width height seed ys xs _ Hy Hx Hg) as H2.
  apply (TruchetRange.loop_twice fuel) in Hy; [|lra|lra].
  apply (TruchetRange.loop_twice fuel) in Hx; [|lra|lra].
  destruct H2 as (k & -> & Hk). nia.
Qed.

Lemma truchet_generate_returns_witness :
  exists fuel0, forall fuel, (fuel0 <= fuel)%nat ->
    exists cmds, Truchet.generate demoTruchet RefMath.lib fuel 10 10 42 = Some cmds
                 /\ (0 <= 10 -> 0 <= 10 -> (8 <= length cmds)%nat).
Proof.
  apply (truchet_generate_returns demoTruchet RefMath.lib 10 10 42); reflexivity.
Defined.

(** X5.  The terminal cells of a run tile the grid exactly.  Each terminal
    cell pushes two arcs whose diameter is the side of the cell, so the
    squared diameters of the arcs [generate] returns add up to twice the
    area of the grid: [2 * rows * columns * baseSize^2].  The number of
    arcs is even and at least two per top-level cell. *)
Theorem truchet_arcs_cover_the_grid (T : Truchet.t) (M : JS.MathLib) (fuel : nat)
    (width height : Q) (seed : Z) (ys xs : list Q) (cmds : list Truchet.Arc) :
  TruchetFacts.rowsOf T fuel height = Some ys ->
  TruchetFacts.colsOf T fuel width = Some xs ->
  Truchet.generate T M fuel width height seed = Some cmds ->
  TruchetCells.diameters cmds
  == 2 * inject_Z (Z.of_nat (length ys * length xs))
     * (Truchet.baseSize T * Truchet.baseSize T)
  /\ Nat.Even (length cmds)
  /\ (2 * (length ys * length xs) <= length cmds)%nat.
Proof.
  intros Hy Hx Hg.
  destruct (TruchetFacts.generate_inv _ _ _ _ _ _ _ Hg) as (st & Hst & ->).
  destruct (TruchetFacts.cells_trace T _ _ _ _ _ _ _ Hy Hx Hst) as [HR HA].
  pose proof (JSFacts.sort_perm (Truchet.byDistance M (width / 2) (height / 2))
                                (Truchet.cmds st)) as HP.
  split; [|split].
  - rewrite (TruchetCells.diameters_perm _ _ HP), HA, TruchetCells.diameters_arcsOf.
    rewrite (TruchetCells.RunTrace_area _ _ _ _ _ HR), TruchetFacts.grid_length. ring.
  - rewrite (Permutation_length HP), HA, TruchetCells.arcsOf_length.
    exists (length (TruchetCells.emitted (Truchet.log st))). lia.
  - rewrite (Permutation_length HP), HA, TruchetCells.arcsOf_length.
    pose proof (TruchetCells.RunTrace_emits _ _ _ _ _ HR) as H.
    rewrite TruchetFacts.grid_length in H. lia.
Qed.

Lemma truchet_arcs_cover_the_grid_witness :
  TruchetCells.diameters demoCmds
  == 2 * inject_Z (Z.of_nat (length demoRows * length demoCols))
     * (Truchet.baseSize demoTruchet * Truchet.baseSize demoTruchet)
  /\ Nat.Even (length demoCmds)
  /\ (2 * (length demoRows * length demoCols) <= length demoCmds)%nat.
Proof.
  apply (truchet_arcs_cover_the_grid demoTruchet RefMath.lib 10 10 10 42);
    vm_compute; reflexivity.
Defined.

(** X6.  Every arc [generate] returns belongs to a terminal cell [c]: its
    radius is half the side of [c], its centre a corner of [c] and its
    [(midX, midY)] the centre of [c].  The cell lies inside one of the
    top-level cells of the grid, its side is [baseSize] halved some number
    of times, and a cell that came from a split is wider than half of
    [minSize]. *)
Theorem truchet_arcs_stay_in_their_cell (T : Truchet.t) (M : JS.MathLib) (fuel : nat)
    (width height : Q) (seed : Z) (ys xs : list Q) (cmds : list Truchet.Arc) :
  0 <= Truchet.baseSize T ->
  TruchetFacts.rowsOf T fuel height = Some ys ->
  TruchetFacts.colsOf T fuel width = Some xs ->
  Truchet.generate T M fuel width height seed = Some cmds ->
  Forall (fun a =>
            exists c top,
              TruchetCells.arcOf c a
              /\ In top (TruchetFacts.grid ys xs)
              /\ TruchetCells.inside (fst top) (snd top) (Truchet.baseSize T) c
              /\ TruchetCells.sized T (Truchet.baseSize T) c)
         cmds.
Proof.
  intros Hb Hy Hx Hg.
  destruct (TruchetFacts.generate_inv _ _ _ _ _ _ _ Hg) as (st & Hst & ->).
  destruct (TruchetFacts.cells_trace T _ _ _ _ _ _ _ Hy Hx Hst) as [HR HA].
  eapply Permutation_Forall; [symmetry; apply JSFacts.sort_perm|].
  rewrite HA.
  pose proof (TruchetCells.RunTrace_inside _ _ _ _ _ HR Hb) as HI.
  rewrite Forall_forall in HI.
  eapply Forall_impl; [apply TruchetCells.arcsOf_arcOf|].
  intros a (c & Hc & Ha). destruct (HI c) as (Hs & top & Ht & Hin).
  { apply list_elem_of_In. exact Hc. }
  exists c, top. auto.
Qed.

Lemma truchet_arcs_stay_in_their_cell_witness :
  Forall (fun a =>
            exists c top,
              TruchetCells.arcOf c a
              /\ In top (TruchetFacts.grid demoRows demoCols)
              /\ TruchetCells.inside (fst top) (snd top) (Truchet.baseSize demoTruchet) c
              /\ TruchetCells.sized demoTruchet (Truchet.baseSize demoTruchet) c)
         demoCmds.
Proof.
  apply (truchet_arcs_stay_in_their_cell demoTruchet RefMath.lib 10 10 10 42);
    [simpl; lra | vm_compute; reflexivity ..].
Defined.

(** X7.  With [splitProb <= 0] no cell splits, whatever the seed: [rand]
    never returns a negative number.  [generate] returns exactly two arcs
    for each top-level cell, each of diameter [baseSize]. *)
Theorem truchet_never_splits_without_probability (T : Truchet.t) (M : JS.MathLib)
    (fuel : nat) (width height : Q) (seed : Z) (ys xs : list Q) (cmds : list Truchet.Arc) :
  Truchet.splitProb T <= 0 ->
  TruchetFacts.rowsOf T fuel height = Some ys ->
  TruchetFacts.colsOf T fuel width = Some xs ->
  Truchet.generate T M fuel width height seed = Some cmds ->
  length cmds = (2 * (length ys * length xs))%nat
  /\ Forall (fun a => 2 * Truchet.r a == Truchet.baseSize T) cmds.
Proof.
  intros Hp Hy Hx Hg.
  destruct (TruchetFacts.generate_inv _ _ _ _ _ _ _ Hg) as (st & Hst & ->).
  destruct (TruchetFacts.cells_trace T _ _ _ _ _ _ _ Hy Hx Hst) as [HR HA].
  pose proof (TruchetRange.RunTrace_never_splits T _ _ _ _ Hp HR) as HE.
  split.
  - rewrite (Permutation_length (JSFacts.sort_perm _ _)), HA, TruchetCells.arcsOf_length, HE.
    rewrite length_map, TruchetFacts.grid_length. reflexivity.
  - eapply Permutation_Forall; [symmetry; apply JSFacts.sort_perm|]. rewrite HA.
    apply (TruchetRuns.arcsOf_sides (fun q => q == Truchet.baseSize T)).
    + intros q q' E Hq. rewrite <- E. exact Hq.
    + rewrite HE. apply Forall_forall. intros c Hc.
      apply list_elem_of_In, in_map_iff in Hc as (top & <- & _). reflexivity.
Qed.

Definition idleTruchet : Truchet.t := Truchet.mk 40 10 0.
Definition idleCmds : list Truchet.Arc :=
  default [] (Truchet.generate idleTruchet RefMath.lib 10 10 10 7).

Lemma truchet_never_splits_without_probability_witness :
  length idleCmds = (2 * (3 * 3))%nat
  /\ Forall (fun a => 2 * Truchet.r a == Truchet.baseSize idleTruchet) idleCmds.
Proof.
  apply (truchet_never_splits_without_probability idleTruchet RefMath.lib 10 10 10 7
           [-(40); -(40) + 40; -(40) + 40 + 40] [-(40); -(40) + 40; -(40) + 40 + 40]);
    [simpl; lra | reflexivity | reflexivity | vm_compute; reflexivity].
Defined.

(** X8.  With [splitProb >= 1] every cell wider than [minSize] splits,
    whatever the seed: [rand] never returns 1.  Every arc [generate]
    returns has a diameter of at most [minSize]. *)
Theorem truchet_always_splits_with_certainty (T : Truchet.t) (M : JS.MathLib)
    (fuel : nat) (width height : Q) (seed : Z) (cmds : list Truchet.Arc) :
  1 <= Truchet.splitProb T ->
  Truchet.generate T M fuel width height seed = Some cmds ->
  Forall (fun a => 2 * Truchet.r a <= Truchet.minSize T) cmds.
Proof.
  intros Hp Hg. apply (TruchetRuns.generate_arcs _ _ _ _ _ _ _ _ Hg).
  intros st Hst. destruct (TruchetRuns.cells_run _ _ _ _ _ _ Hst) as (cs & HR & _).
  apply (TruchetRuns.arcsOf_sides (fun q => q <= Truchet.minSize T)).
  - intros q q' E Hq. rewrite <- E. exact Hq.
  - apply (TruchetRange.RunTrace_always_splits T _ _ _ _ Hp HR).
Qed.

Definition eagerTruchet : Truchet.t := Truchet.mk 40 20 1.
Definition eagerCmds : list Truchet.Arc :=
  default [] (Truchet.generate eagerTruchet RefMath.lib 10 10 10 7).

Lemma truchet_always_splits_with_certainty_witness :
  Forall (fun a => 2 * Truchet.r a <= Truchet.minSize eagerTruchet) eagerCmds.
Proof.
  apply (truchet_always_splits_with_certainty eagerTruchet RefMath.lib 10 10 10 7);
    [simpl; lra | vm_compute; reflexivity].
Defined.

(** X9.  The generator [rng ^= rng << 13; rng ^= rng >> 17; rng ^= rng << 5]
    with the signed shift [>>].  The next state is 0 exactly from the
    states 0 and -67100673 (0xFC001FFF), and no state has -67100673 as its
    next state.  So from any other state the generator never reaches 0 and
    every number it returns is positive. *)
Theorem xorshift_reaches_zero_from_two_states_only (g : Z) :
  (Truchet.xorshift g = 0%Z <-> JS.toInt32 g = 0%Z \/ JS.toInt32 g = (-67100673)%Z)
  /\ Truchet.xorshift g <> (-67100673)%Z
  /\ (JS.toInt32 g <> 0%Z -> JS.toInt32 g <> (-67100673)%Z ->
      forall k, TruchetFacts.advance g k <> 0%Z
                /\ 0 < Truchet.output (TruchetFacts.advance g (S k))).
Proof.
  split; [apply Xorshift.xorshift_zero_iff|].
  split; [apply Xorshift.xorshift_not_collapsing|].
  intros H0 H1 k. split.
  - destruct k as [|k]; [|apply Xorshift.advance_nonzero; assumption].
    cbn [TruchetFacts.advance]. intros ->. apply H0. reflexivity.
  - apply Xorshift.output_pos;
      [apply Xorshift.advance_range | apply Xorshift.advance_nonzero; assumption].
Qed.

(** X10.  When [seed | 0] is neither 0 nor -67100673, every number a run
    of [generate] draws lies strictly between 0 and 1, and the generator
    ends in a state other than 0. *)
Theorem truchet_draws_are_positive (T : Truchet.t) (fuel : nat) (width height : Q)
    (seed : Z) (st : Truchet.State) :
  JS.toInt32 seed <> 0%Z -> JS.toInt32 seed <> (-67100673)%Z ->
  Truchet.cells T fuel width height seed = Some st ->
  Forall (fun u => 0 < u /\ u < 1) (TruchetFacts.draws (Truchet.log st))
  /\ Truchet.rng st <> 0%Z.
Proof.
  intros H0 H1 Hst.
  destruct (TruchetFacts.cells_stream T _ _ _ _ _ Hst) as [HD HG].
  assert (H0' : JS.toInt32 (JS.toInt32 seed) <> Xorshift.stuck)
    by (rewrite Xorshift.toInt32_idem; exact H0).
  assert (H1' : JS.toInt32 (JS.toInt32 seed) <> Xorshift.collapsing)
    by (rewrite Xorshift.toInt32_idem; exact H1).
  split.
  - rewrite HD, Xorshift.stream_advance. apply Forall_forall. intros u Hu.
    apply list_elem_of_In, in_map_iff in Hu as (i & <- & _). split.
    + apply Xorshift.output_pos;
        [apply Xorshift.advance_range | apply Xorshift.advance_nonzero; assumption].
    + rewrite Xorshift.advance_succ. apply Xorshift.rand_lt_1.
  - rewrite HG. destruct (length _) as [|k].
    + cbn [TruchetFacts.advance]. intros E. apply H0. rewrite E. reflexivity.
    + apply Xorshift.advance_nonzero; assumption.
Qed.

Lemma truchet_draws_are_positive_witness :
  Forall (fun u => 0 < u /\ u < 1) (TruchetFacts.draws (Truchet.log demoState))
  /\ Truchet.rng demoState <> 0%Z.
Proof.
  apply (truchet_draws_are_positive demoTruchet 10 10 10 42);
    [discriminate | discriminate | vm_compute; reflexivity].
Defined.

(** X11.  The seed 4227866623 (0xFC001FFF), and every seed congruent to it
    modulo 2^32, is not 0 as a 32-bit integer and still behaves as seed 0
    does: with a positive [splitProb] every draw of the run returns 0,
    every cell wider than [minSize] splits and every terminal cell is of
    type A. *)
Theorem truchet_second_degenerate_seed (T : Truchet.t) (fuel : nat) (width height : Q)
    (seed : Z) (st : Truchet.State) :
  (seed mod 2 ^ 32 = 4227866623)%Z ->
  0 < Truchet.splitProb T ->
  Truchet.cells T fuel width height seed = Some st ->
  JS.toInt32 seed <> 0%Z
  /\ Forall (TruchetFacts.zeroEvent T) (Truchet.log st).
Proof.
  intros Hs Hp Hst.
  assert (E : JS.toInt32 seed = Xorshift.collapsing).
  { apply Xorshift.int32_mod_inj;
      [apply Xorshift.toInt32_range | unfold Xorshift.collapsing; lia |].
    rewrite Xorshift.toInt32_mod, Hs. reflexivity. }
  split; [rewrite E; discriminate|].
  destruct (TruchetRuns.cells_run _ _ _ _ _ _ Hst) as (cs & HR & _).
  apply (TruchetRange.RunTrace_collapse T _ _ _ _ Hp HR).
  rewrite E. reflexivity.
Qed.

Definition collapsedState : Truchet.State :=
  default (Truchet.initial 0) (Truchet.cells demoTruchet 10 10 10 4227866623).

Lemma truchet_second_degenerate_seed_witness :
  JS.toInt32 4227866623 <> 0%Z
  /\ Forall (TruchetFacts.zeroEvent demoTruchet) (Truchet.log collapsedState).
Proof.
  apply (truchet_second_degenerate_seed demoTruchet 10 10 10 4227866623);
    [reflexivity | reflexivity | vm_compute; reflexivity].
Defined.

(** X12.  [makeRng(seed)] replaces a zero state by 1.  When [seed | 0] is
    not -67100673 its state is never 0 and every call returns a positive
    number.  When [seed | 0] is -67100673 the state is 0 after the first
    call, and every call returns 0. *)
Theorem makeRng_sticks_for_one_seed_only (seed : Z) :
  (JS.toInt32 seed <> (-67100673)%Z ->
   forall k, Xorshift.state seed k <> 0%Z
             /\ 0 < fst (Driver.next (Xorshift.state seed k)))
  /\ (JS.toInt32 seed = (-67100673)%Z ->
      forall k, Xorshift.state seed (S k) = 0%Z
                /\ fst (Driver.next (Xorshift.state seed k)) == 0).
Proof.
  split.
  - intros Hs k. rewrite Xorshift.state_advance, Xorshift.next_eq. cbn [fst].
    assert (H0 : JS.toInt32 (Driver.makeRng seed) <> Xorshift.stuck).
    { rewrite Xorshift.makeRng_int32. apply Xorshift.makeRng_nonzero. }
    assert (H1 : JS.toInt32 (Driver.makeRng seed) <> Xorshift.collapsing).
    { rewrite Xorshift.makeRng_int32, Xorshift.makeRng_collapsing. exact Hs. }
    rewrite <- Xorshift.advance_succ. split.
    + destruct k as [|k]; [apply Xorshift.makeRng_nonzero|].
      apply Xorshift.advance_nonzero; assumption.
    + apply Xorshift.output_pos;
        [apply Xorshift.advance_range | apply Xorshift.advance_nonzero; assumption].
  - intros Hs k.
    assert (E : Driver.makeRng seed = Xorshift.collapsing)
      by (apply Xorshift.makeRng_collapsing; exact Hs).
    assert (Z1 : forall j, Xorshift.state seed (S j) = 0%Z).
    { intros j. rewrite Xorshift.state_advance, E.
      change (TruchetFacts.advance Xorshift.collapsing (S j))
        with (TruchetFacts.advance (Truchet.xorshift Xorshift.collapsing) j).
      change (Truchet.xorshift Xorshift.collapsing) with 0%Z.
      apply Xorshift.advance_zero. }
    split; [apply Z1|].
    rewrite Xorshift.next_eq. cbn [fst].
    rewrite <- (Xorshift.state_advance seed) || idtac.
    assert (E2 : Truchet.xorshift (Xorshift.state seed k) = 0%Z).
    { rewrite <- (Z1 k), !Xorshift.state_advance, Xorshift.advance_succ. reflexivity. }
    rewrite E2. reflexivity.
Qed.

(** X13.  When [lineIntersect] returns a point, it is the only common
    point of the two lines.  Exchanging the two lines, or the two end
    points of the first, gives a point with the same coordinates. *)
Theorem lineIntersect_unique_and_symmetric (ax1 ay1 ax2 ay2 bx1 by1 bx2 by2 : Q)
    (p : Point.t) :
  lineIntersect ax1 ay1 ax2 ay2 bx1 by1 bx2 by2 = Some p ->
  (forall q, GeometryFacts.onLine q ax1 ay1 ax2 ay2 ->
             GeometryFacts.onLine q bx1 by1 bx2 by2 ->
             Point.x q == Point.x p /\ Point.y q == Point.y p)
  /\ (exists p', lineIntersect bx1 by1 bx2 by2 ax1 ay1 ax2 ay2 = Some p'
                 /\ Point.x p' == Point.x p /\ Point.y p' == Point.y p)
  /\ (exists p', lineIntersect ax2 ay2 ax1 ay1 bx1 by1 bx2 by2 = Some p'
                 /\ Point.x p' == Point.x p /\ Point.y p' == Point.y p).
Proof.
  intros H.
  pose proof (GeometryMore.denom_nonzero _ _ _ _ _ _ _ _ _ H) as Hd.
  destruct (GeometryFacts.lineIntersect_some _ _ _ _ _ _ _ _ _ H) as [Pa Pb].
  assert (U : forall q, GeometryFacts.onLine q ax1 ay1 ax2 ay2 ->
                        GeometryFacts.onLine q bx1 by1 bx2 by2 ->
                        Point.x q == Point.x p /\ Point.y q == Point.y p).
  { intros q Qa Qb.
    apply (GeometryMore.common_point_unique ax1 ay1 ax2 ay2 bx1 by1 bx2 by2); assumption. }
  split; [exact U|]. split.
  - destruct (lineIntersect bx1 by1 bx2 by2 ax1 ay1 ax2 ay2) as [p'|] eqn:E.
    + exists p'. split; [reflexivity|].
      destruct (GeometryFacts.lineIntersect_some _ _ _ _ _ _ _ _ _ E) as [Qb Qa].
      apply U; assumption.
    + apply GeometryMore.lineIntersect_none_sym in E. congruence.
  - destruct (lineIntersect ax2 ay2 ax1 ay1 bx1 by1 bx2 by2) as [p'|] eqn:E.
    + exists p'. split; [reflexivity|].
      destruct (GeometryFacts.lineIntersect_some _ _ _ _ _ _ _ _ _ E) as [Qa Qb].
      apply U; [apply GeometryMore.onLine_rev, Qa | exact Qb].
    + apply GeometryMore.lineIntersect_none_rev in E. congruence.
Qed.

Lemma lineIntersect_unique_and_symmetric_witness :
  (forall q, GeometryFacts.onLine q 0 0 1 0 ->
             GeometryFacts.onLine q 5 1 5 2 ->
             Point.x q == Point.x (Point.mk 5 0) /\ Point.y q == Point.y (Point.mk 5 0))
  /\ (exists p', lineIntersect 5 1 5 2 0 0 1 0 = Some p'
                 /\ Point.x p' == Point.x (Point.mk 5 0)
                 /\ Point.y p' == Point.y (Point.mk 5 0))
  /\ (exists p', lineIntersect 1 0 0 0 5 1 5 2 = Some p'
                 /\ Point.x p' == Point.x (Point.mk 5 0)
                 /\ Point.y p' == Point.y (Point.mk 5 0)).
Proof.
  apply (lineIntersect_unique_and_symmetric 0 0 1 0 5 1 5 2 (Point.mk 5 0)).
  reflexivity.
Defined.

(** X14.  With at least two petals, [build] returns exactly when
    [connectEveryN] is not negative.  For a negative [connectEveryN] the
    index [(i + skip) % n] is negative for [i = 0] or [i = 1], the element
    read is [undefined] and reading its [x] throws; [tile] then throws on
    its first motif whenever its loops are entered. *)
Theorem rosette_build_throws_on_negative_skip (T : Rosette.t) (M : JS.MathLib) (cx cy : Q) :
  (2 <= Rosette.numPetals T)%nat ->
  (is_Some (Rosette.build T M cx cy) <-> (0 <= Rosette.connectEveryN T)%Z)
  /\ (forall fuel width height,
        (Rosette.connectEveryN T < 0)%Z ->
        JS.ltb (- Rosette.rowH T M) (height + Rosette.spacing T) = true ->
        JS.ltb (- Rosette.spacing T) (width + Rosette.spacing T) = true ->
        Rosette.tile T M fuel width height = None).
Proof.
  intros Hn. split.
  - split.
    + intros [ph Hph]. destruct (Z.le_gt_cases 0 (Rosette.connectEveryN T)) as [H|H];
        [exact H|].
      rewrite (RosetteMore.build_negative_skip T M cx cy Hn H) in Hph. discriminate.
    + apply RosetteFacts.build_total.
  - intros fuel width height Hs Hrow Hcol. unfold Rosette.tile.
    destruct fuel as [|f]; [reflexivity|]. cbn [JS.for_loop].
    unfold Rosette.rowCond, Rosette.colCond.
    assert (E1 : JS.ltb (inject_Z (-1) * Rosette.rowH T M) (height + Rosette.spacing T) = true).
    { apply JSFacts.ltb_lt. apply JSFacts.ltb_lt in Hrow.
      change (inject_Z (-1)) with (-1 # 1). lra. }
    assert (E2 : JS.ltb (inject_Z (-1) * Rosette.spacing T) (width + Rosette.spacing T) = true).
    { apply JSFacts.ltb_lt. apply JSFacts.ltb_lt in Hcol.
      change (inject_Z (-1)) with (-1 # 1). lra. }
    rewrite E1, E2.
    destruct (Rosette.centre T M (-1) (-1)) as [x y].
    rewrite (RosetteMore.build_negative_skip T M x y Hn Hs). reflexivity.
Qed.

Lemma rosette_build_throws_on_negative_skip_witness :
  (is_Some (Rosette.build (Rosette.mk 8 (-3) 100) RefMath.lib 0 0)
   <-> (0 <= Rosette.connectEveryN (Rosette.mk 8 (-3) 100))%Z)
  /\ (forall fuel width height,
        (Rosette.connectEveryN (Rosette.mk 8 (-3) 100) < 0)%Z ->
        JS.ltb (- Rosette.rowH (Rosette.mk 8 (-3) 100) RefMath.lib)
               (height + Rosette.spacing (Rosette.mk 8 (-3) 100)) = true ->
        JS.ltb (- Rosette.spacing (Rosette.mk 8 (-3) 100))
               (width + Rosette.spacing (Rosette.mk 8 (-3) 100)) = true ->
        Rosette.tile (Rosette.mk 8 (-3) 100) RefMath.lib fuel width height = None).
Proof.
  apply (rosette_build_throws_on_negative_skip (Rosette.mk 8 (-3) 100) RefMath.lib 0 0).
  simpl. lia.
Defined.

(** X15.  For a valid configuration, the phases of one motif hold 3
    circles, [n] radial lines, [n] outer lines, [2n] diagonals, at most
    [2n] extensions, at most [n] petals and [n] diamonds.  [tile] returns
    these numbers multiplied by the number of motifs, rows times columns; a
    viewport of non-negative width and height has at least four motifs. *)
Theorem rosette_tiling_sizes (T : Rosette.t) (M : JS.MathLib) (width height : Q) :
  0 < Rosette.outerRadius T -> 0 < JS.sqrt M 3 -> (0 <= Rosette.connectEveryN T)%Z ->
  (forall cx cy, exists ph e p,
      Rosette.build T M cx cy = Some ph
      /\ (e <= 2 * Rosette.numPetals T)%nat /\ (p <= Rosette.numPetals T)%nat
      /\ map length ph
         = [3%nat; Rosette.numPetals T; Rosette.numPetals T;
            (2 * Rosette.numPetals T)%nat; e; p; Rosette.numPetals T])
  /\ exists fuel0, forall fuel, (fuel0 <= fuel)%nat ->
       exists rows cols merged e p,
         RosetteFacts.rowsOf T M fuel height = Some rows
         /\ RosetteFacts.colsOf T fuel width = Some cols
         /\ Rosette.tile T M fuel width height = Some merged
         /\ (0 <= width -> 0 <= height -> (4 <= length rows * length cols)%nat)
         /\ (e <= 2 * Rosette.numPetals T * (length rows * length cols))%nat
         /\ (p <= Rosette.numPetals T * (length rows * length cols))%nat
         /\ map length merged
            = [(3 * (length rows * length cols))%nat;
               (Rosette.numPetals T * (length rows * length cols))%nat;
               (Rosette.numPetals T * (length rows * length cols))%nat;
               (2 * Rosette.numPetals T * (length rows * length cols))%nat;
               e; p;
               (Rosette.numPetals T * (length rows * length cols))%nat].
Proof.
  intros Hr H3 Hs. split.
  - intros cx cy. destruct (RosetteFacts.build_total T M cx cy Hs) as [ph Hph].
    destruct (RosetteMore.build_sizes T M cx cy ph Hph) as (e & p & He & Hp & E).
    exists ph, e, p. auto.
  - destruct (RosetteFacts.tile_total T M width height Hr H3 Hs) as [fuel0 H].
    exists fuel0. intros fuel Hfuel.
    destruct (H fuel Hfuel) as (rows & cols & merged & Er & Ec & Et).
    destruct (RosetteMore.tile_sizes T M _ _ _ _ _ _ Er Ec Et) as (e & p & He & Hp & E).
    exists rows, cols, merged, e, p.
    split; [exact Er|]. split; [exact Ec|]. split; [exact Et|].
    split; [|auto].
    intros Hw Hh.
    assert (Hsp : 0 < Rosette.spacing T).
    { unfold Rosette.spacing. apply Qmult_lt_0_compat; [exact Hr | reflexivity]. }
    assert (Hrow : 0 < Rosette.rowH T M).
    { unfold Rosette.rowH. apply Qlt_shift_div_l; [reflexivity|]. rewrite Qmult_0_l.
      apply Qmult_lt_0_compat; assumption. }
    unfold RosetteFacts.rowsOf, Rosette.rowCond in Er.
    unfold RosetteFacts.colsOf, Rosette.colCond in Ec.
    apply HatLattice.loop_from_minus_1 in Er; [|lra|lra].
    apply HatLattice.loop_from_minus_1 in Ec; [|lra|lra].
    nia.
Qed.

Lemma rosette_tiling_sizes_witness :
  (forall cx cy, exists ph e p,
      Rosette.build demoRosette RefMath.lib cx cy = Some ph
      /\ (e <= 2 * Rosette.numPetals demoRosette)%nat
      /\ (p <= Rosette.numPetals demoRosette)%nat
      /\ map length ph
         = [3%nat; Rosette.numPetals demoRosette; Rosette.numPetals demoRosette;
            (2 * Rosette.numPetals demoRosette)%nat; e; p; Rosette.numPetals demoRosette])
  /\ exists fuel0, forall fuel, (fuel0 <= fuel)%nat ->
       exists rows cols merged e p,
         RosetteFacts.rowsOf demoRosette RefMath.lib fuel 10 = Some rows
         /\ RosetteFacts.colsOf demoRosette fuel 10 = Some cols
         /\ Rosette.tile demoRosette RefMath.lib fuel 10 10 = Some merged
         /\ (0 <= 10 -> 0 <= 10 -> (4 <= length rows * length cols)%nat)
         /\ (e <= 2 * Rosette.numPetals demoRosette * (length rows * length cols))%nat
         /\ (p <= Rosette.numPetals demoRosette * (length rows * length cols))%nat
         /\ map length merged
            = [(3 * (length rows * length cols))%nat;
               (Rosette.numPetals demoRosette * (length rows * length cols))%nat;
               (Rosette.numPetals demoRosette * (length rows * length cols))%nat;
               (2 * Rosette.numPetals demoRosette * (length rows * length cols))%nat;
               e; p;
               (Rosette.numPetals demoRosette * (length rows * length cols))%nat].
Proof.
  apply (rosette_tiling_sizes demoRosette RefMath.lib 10 10);
    [reflexivity | vm_compute; reflexivity | simpl; lia].
Defined.

(** X16.  The extension of a diagonal starts at the end of the diagonal
    that is farther from the centre (the second end on a tie) and stops
    where the line of the diagonal crosses an outer line, at the crossing
    nearest to that end.  No extension is pushed exactly when the line
    crosses no outer line. *)
Theorem rosette_extension_stops_at_nearest_crossing (M : JS.MathLib) (cx cy : Q)
    (outerLines : list Rosette.Line) (dl : Rosette.Line) :
  match Rosette.extendDiag M cx cy outerLines dl with
  | Some e =>
      Rosette.line e
      = Rosette.mkLine (fst (RosetteMore.farEnd M cx cy dl)) (snd (RosetteMore.farEnd M cx cy dl))
                       (Point.x (Rosette.tip e)) (Point.y (Rosette.tip e))
      /\ (exists ol, In ol outerLines
                     /\ RosetteMore.crossing M cx cy dl ol = Some (Rosette.tip e))
      /\ (forall ol q, In ol outerLines -> RosetteMore.crossing M cx cy dl ol = Some q ->
                       RosetteMore.fromFar M cx cy dl (Rosette.tip e)
                       <= RosetteMore.fromFar M cx cy dl q)
  | None => forall ol, In ol outerLines -> RosetteMore.crossing M cx cy dl ol = None
  end.
Proof.
  apply RosetteMore.extendDiag_spec.
Qed.

(** X17.  The angular distance the tip loop computes,
    [abs(((a - anglePetal + 3 pi) % 2 pi) - pi)], lies between 0 and pi
    whenever [a - anglePetal + 3 pi] is not negative. *)
Theorem rosette_angular_distance_range (a anglePetal : Q) :
  0 <= a - anglePetal + JS.PI * 3 ->
  0 <= Rosette.angDelta a anglePetal /\ Rosette.angDelta a anglePetal <= JS.PI.
Proof.
  apply RosetteMore.angDelta_range.
Qed.

Lemma rosette_angular_distance_range_witness :
  0 <= Rosette.angDelta (- JS.PI) (JS.PI * 2)
  /\ Rosette.angDelta (- JS.PI) (JS.PI * 2) <= JS.PI.
Proof.
  apply (rosette_angular_distance_range (- JS.PI) (JS.PI * 2)).
  vm_compute. discriminate.
Defined.

(** X18.  A call of the generator returns a number in [[0, 1)], never 1.
    So in every scene [buildScene] returns the type is one of
    [SCENE_TYPES] (the index is never 4), [tilesPerTick] lies in 2..9,
    [holdLimit] in 480..1919 and [breatheSpeed] in [[0.3, 1.5)]. *)
Theorem buildScene_parameters_in_range (U : Type)
    (mk : option Driver.SceneType -> Z -> list U) (seed : Z) (x : Z) :
  (0 <= fst (Driver.next x) /\ fst (Driver.next x) < 1)
  /\ is_Some (Driver.type (Driver.buildScene mk seed))
  /\ (2 <= Driver.tilesPerTick (Driver.buildScene mk seed) <= 9)%Z
  /\ (480 <= Driver.holdLimit (Driver.buildScene mk seed) <= 1919)%Z
  /\ 3 # 10 <= Driver.breatheSpeed (Driver.buildScene mk seed)
  /\ Driver.breatheSpeed (Driver.buildScene mk seed) < 15 # 10.
Proof.
  split; [apply StyleFacts.next_range|]. apply StyleFacts.buildScene_ranges.
Qed.

(** X19.  The style [styleUnit] returns: [strokeOpacity] in
    [[0.12, 0.64]], [lineWidth] in [[0.25, 1.85]], [breathePhase] in
    [[0, 2 pi]]; every unit is filled or stroked; a dashed unit is stroked
    and not filled; [fillOpacity] is 0 for a unit that is not filled and in
    [[0.04, 0.22]] for one that is; [fillChance <= 0] fills nothing and
    [fillChance > 1] everything; [dashLen] and [gapLen] lie between 1 and
    1 plus their maximum; [born] is -1. *)
Theorem styleUnit_values_in_range (M : JS.MathLib) (cx cy : Q) (P : Styling.Params) :
  (12 # 100 <= Styling.strokeOpacity (Styling.styleUnit M cx cy P)
   /\ Styling.strokeOpacity (Styling.styleUnit M cx cy P) <= 64 # 100)
  /\ (25 # 100 <= Styling.lineWidth (Styling.styleUnit M cx cy P)
      /\ Styling.lineWidth (Styling.styleUnit M cx cy P) <= 185 # 100)
  /\ (0 <= Styling.breathePhase (Styling.styleUnit M cx cy P)
      /\ Styling.breathePhase (Styling.styleUnit M cx cy P) <= JS.PI * 2)
  /\ (Styling.doFill (Styling.styleUnit M cx cy P) = true
      \/ Styling.doStroke (Styling.styleUnit M cx cy P) = true)
  /\ (Styling.doDash (Styling.styleUnit M cx cy P) = true ->
      Styling.doFill (Styling.styleUnit M cx cy P) = false
      /\ Styling.doStroke (Styling.styleUnit M cx cy P) = true)
  /\ (Styling.doFill (Styling.styleUnit M cx cy P) = false ->
      Styling.fillOpacity (Styling.styleUnit M cx cy P) = 0)
  /\ (Styling.doFill (Styling.styleUnit M cx cy P) = true ->
      4 # 100 <= Styling.fillOpacity (Styling.styleUnit M cx cy P)
      /\ Styling.fillOpacity (Styling.styleUnit M cx cy P) <= 22 # 100)
  /\ (Styling.fillChance P <= 0 -> Styling.doFill (Styling.styleUnit M cx cy P) = false)
  /\ (1 < Styling.fillChance P -> Styling.doFill (Styling.styleUnit M cx cy P) = true)
  /\ (0 <= Styling.maxDashLen P ->
      1 <= Styling.dashLen (Styling.styleUnit M cx cy P)
      /\ Styling.dashLen (Styling.styleUnit M cx cy P) <= 1 + Styling.maxDashLen P)
  /\ (0 <= Styling.maxGapLen P ->
      1 <= Styling.gapLen (Styling.styleUnit M cx cy P)
      /\ Styling.gapLen (Styling.styleUnit M cx cy P) <= 1 + Styling.maxGapLen P)
  /\ Styling.born (Styling.styleUnit M cx cy P) = (-1)%Z.
Proof.
  apply (StyleFacts.styleUnit_ranges M cx cy P).
Qed.

(** X20.  Apart from [_sortKey], the style depends on the centre only
    through [cx | 0] and [cy | 0]: two centres with the same truncated
    coordinates get the same style.  Truncation is toward 0, so all
    centres with both coordinates strictly between -1 and 1 share one
    style. *)
Theorem styleUnit_is_constant_on_a_pixel (M : JS.MathLib) (cx cy cx' cy' : Q)
    (P : Styling.Params) :
  (Styling.pixel cx = Styling.pixel cx' /\ Styling.pixel cy = Styling.pixel cy')
  \/ (-1 < cx /\ cx < 1 /\ -1 < cx' /\ cx' < 1 /\ -1 < cy /\ cy < 1 /\ -1 < cy' /\ cy' < 1) ->
  Styling.strokeOpacity (Styling.styleUnit M cx cy P)
  = Styling.strokeOpacity (Styling.styleUnit M cx' cy' P)
  /\ Styling.lineWidth (Styling.styleUnit M cx cy P)
     = Styling.lineWidth (Styling.styleUnit M cx' cy' P)
  /\ Styling.breathePhase (Styling.styleUnit M cx cy P)
     = Styling.breathePhase (Styling.styleUnit M cx' cy' P)
  /\ Styling.breatheAmpT (Styling.styleUnit M cx cy P)
     = Styling.breatheAmpT (Styling.styleUnit M cx' cy' P)
  /\ Styling.doFill (Styling.styleUnit M cx cy P)
     = Styling.doFill (Styling.styleUnit M cx' cy' P)
  /\ Styling.doStroke (Styling.styleUnit M cx cy P)
     = Styling.doStroke (Styling.styleUnit M cx' cy' P)
  /\ Styling.fillOpacity (Styling.styleUnit M cx cy P)
     = Styling.fillOpacity (Styling.styleUnit M cx' cy' P)
  /\ Styling.doDash (Styling.styleUnit M cx cy P)
     = Styling.doDash (Styling.styleUnit M cx' cy' P)
  /\ Styling.dashLen (Styling.styleUnit M cx cy P)
     = Styling.dashLen (Styling.styleUnit M cx' cy' P)
  /\ Styling.gapLen (Styling.styleUnit M cx cy P)
     = Styling.gapLen (Styling.styleUnit M cx' cy' P).
Proof.
  intros H. apply StyleFacts.styleUnit_pixel.
  - destruct H as [[Hx _]|(A & B & C & D & _)]; [exact Hx|].
    rewrite !StyleFacts.pixel_near_zero; [reflexivity | assumption ..].
  - destruct H as [[_ Hy]|(_ & _ & _ & _ & A & B & C & D)]; [exact Hy|].
    rewrite !StyleFacts.pixel_near_zero; [reflexivity | assumption ..].
Qed.

Definition demoParams : Styling.Params :=
  Styling.mkParams 12345 67890 (1 / 10) (2 / 10) (1 / 10) (1 / 10) 4 4 10 400 300.

Lemma styleUnit_is_constant_on_a_pixel_witness :
  Styling.strokeOpacity (Styling.styleUnit RefMath.lib (-(1 # 2)) (1 # 4) demoParams)
  = Styling.strokeOpacity (Styling.styleUnit RefMath.lib (3 # 4) (-(3 # 4)) demoParams)
  /\ Styling.lineWidth (Styling.styleUnit RefMath.lib (-(1 # 2)) (1 # 4) demoParams)
     = Styling.lineWidth (Styling.styleUnit RefMath.lib (3 # 4) (-(3 # 4)) demoParams)
  /\ Styling.breathePhase (Styling.styleUnit RefMath.lib (-(1 # 2)) (1 # 4) demoParams)
     = Styling.breathePhase (Styling.styleUnit RefMath.lib (3 # 4) (-(3 # 4)) demoParams)
  /\ Styling.breatheAmpT (Styling.styleUnit RefMath.lib (-(1 # 2)) (1 # 4) demoParams)
     = Styling.breatheAmpT (Styling.styleUnit RefMath.lib (3 # 4) (-(3 # 4)) demoParams)
  /\ Styling.doFill (Styling.styleUnit RefMath.lib (-(1 # 2)) (1 # 4) demoParams)
     = Styling.doFill (Styling.styleUnit RefMath.lib (3 # 4) (-(3 # 4)) demoParams)
  /\ Styling.doStroke (Styling.styleUnit RefMath.lib (-(1 # 2)) (1 # 4) demoParams)
     = Styling.doStroke (Styling.styleUnit RefMath.lib (3 # 4) (-(3 # 4)) demoParams)
  /\ Styling.fillOpacity (Styling.styleUnit RefMath.lib (-(1 # 2)) (1 # 4) demoParams)
     = Styling.fillOpacity (Styling.styleUnit RefMath.lib (3 # 4) (-(3 # 4)) demoParams)
  /\ Styling.doDash (Styling.styleUnit RefMath.lib (-(1 # 2)) (1 # 4) demoParams)
     = Styling.doDash (Styling.styleUnit RefMath.lib (3 # 4) (-(3 # 4)) demoParams)
  /\ Styling.dashLen (Styling.styleUnit RefMath.lib (-(1 # 2)) (1 # 4) demoParams)
     = Styling.dashLen (Styling.styleUnit RefMath.lib (3 # 4) (-(3 # 4)) demoParams)
  /\ Styling.gapLen (Styling.styleUnit RefMath.lib (-(1 # 2)) (1 # 4) demoParams)
     = Styling.gapLen (Styling.styleUnit RefMath.lib (3 # 4) (-(3 # 4)) demoParams).
Proof.
  apply (styleUnit_is_constant_on_a_pixel RefMath.lib (-(1 # 2)) (1 # 4) (3 # 4) (-(3 # 4))
                                          demoParams).
  right. repeat split; reflexivity.
Defined.

(** X21.  After the start, whatever frames, clicks and resizes follow,
    there is a current scene; its [alpha] lies in [[0, 1]]; its [spawnIdx]
    is at most the number of its units; it is fading out exactly when a
    scene is staged in [nextScene]; and while one is staged a click changes
    nothing. *)
Theorem page_always_has_a_scene (U : Type)
    (mk : option Driver.SceneType -> Z -> list U) (seed : Z)
    (actions : list (Page.Action U)) :
  let d := Page.run actions (Page.start mk seed) in
  exists sc,
    Driver.scene d = Some sc
    /\ (0 <= Driver.alpha sc /\ Driver.alpha sc <= 1)
    /\ (Driver.spawnIdx sc <= length (Driver.tiles sc))%nat
    /\ (Driver.fadingOut sc = true <-> is_Some (Driver.nextScene d))
    /\ (forall mk' seed', is_Some (Driver.nextScene d) ->
                          Driver.triggerNewScene mk' seed' d = d).
Proof.
  intros d.
  destruct (PageFacts.wf_run actions _ (PageFacts.wf_start mk seed))
    as (_ & sc & Hsc & Ha0 & Ha1 & (Hidx & _) & _ & Hnext).
  fold d in Hsc, Hnext. exists sc.
  split; [exact Hsc|]. split; [split; assumption|]. split; [exact Hidx|].
  destruct (Driver.nextScene d) as [n|] eqn:En.
  - destruct Hnext as [Hfo _]. split.
    + split; [eauto | intros _; exact Hfo].
    + intros mk' seed' _. unfold Driver.triggerNewScene. rewrite Hsc, Hfo. reflexivity.
  - split.
    + split; [congruence | intros [? ?]; discriminate].
    + intros mk' seed' [? ?]. discriminate.
Qed.

(** X22.  In every state the page reaches, the units the drawing loop does
    not skip ([born >= 0]) are exactly the first [spawnIdx] units of the
    scene.  Each of them was born on a frame between 1 and the current one,
    so its [fadeIn] lies in [[0, 1]], and units are born in array order:
    an earlier unit is never born after a later one. *)
Theorem page_draws_the_spawned_prefix (U : Type)
    (mk : option Driver.SceneType -> Z -> list U) (seed : Z)
    (actions : list (Page.Action U)) :
  let d := Page.run actions (Page.start mk seed) in
  exists sc,
    Driver.scene d = Some sc
    /\ Styling.drawn sc = take (Driver.spawnIdx sc) (Driver.tiles sc)
    /\ Forall (fun u => (1 <= Driver.born u <= Driver.frame d)%Z
                        /\ 0 <= Styling.fadeIn (Driver.frame d) (Driver.born u)
                        /\ Styling.fadeIn (Driver.frame d) (Driver.born u) <= 1)
              (Styling.drawn sc)
    /\ (forall i j u v, (i <= j)%nat ->
                        Styling.drawn sc !! i = Some u -> Styling.drawn sc !! j = Some v ->
                        (Driver.born u <= Driver.born v)%Z).
Proof.
  intros d.
  destruct (PageFacts.wf_run actions _ (PageFacts.wf_start mk seed))
    as (_ & sc & Hsc & _ & _ & Hst & _).
  fold d in Hsc, Hst. exists sc. split; [exact Hsc|].
  pose proof (PageFacts.stamped_drawn _ _ Hst) as Hd.
  split; [exact Hd|]. rewrite Hd. destruct Hst as (Hidx & Hb & Hmono).
  assert (Hlook : forall i u, take (Driver.spawnIdx sc) (Driver.tiles sc) !! i = Some u ->
                              (i < Driver.spawnIdx sc)%nat /\ Driver.tiles sc !! i = Some u).
  { intros i u Hu. apply lookup_take_Some in Hu. tauto. }
  split.
  - apply Forall_forall. intros u Hu. apply list_elem_of_lookup_1 in Hu as [i Hi].
    destruct (Hlook i u Hi) as [Hlt Hi']. specialize (Hb i u Hi').
    replace (i <? Driver.spawnIdx sc)%nat with true in Hb
      by (symmetry; apply Nat.ltb_lt; exact Hlt).
    split; [exact Hb|]. apply PageFacts.fadeIn_range. lia.
  - intros i j u v Hij Hu Hv.
    destruct (Hlook i u Hu) as [_ Hu']. destruct (Hlook j v Hv) as [Hj Hv'].
    apply (Hmono i j u v Hij Hj Hu' Hv').
Qed.

(** X23.  Once a scene is staged (after a click, or when the hold time
    is over) it becomes the current scene within 67 frames, whatever else
    the frames do: at that frame [nextScene] is empty again and the new
    scene has the units it was built with and [alpha = 0]. *)
Theorem page_staged_scene_takes_over_within_67_frames (U : Type)
    (mk0 mk : option Driver.SceneType -> Z -> list U) (seed : Z)
    (actions : list (Page.Action U)) (n : Driver.Scene U) (seeds : list Z) :
  Driver.nextScene (Page.run actions (Page.start mk0 seed)) = Some n ->
  (67 <= length seeds)%nat ->
  exists k sc',
    (1 <= k <= 67)%nat
    /\ Driver.scene (DriverFacts.frames mk (take k seeds)
                                        (Page.run actions (Page.start mk0 seed))) = Some sc'
    /\ Driver.nextScene (DriverFacts.frames mk (take k seeds)
                                            (Page.run actions (Page.start mk0 seed))) = None
    /\ map Driver.body (Driver.tiles sc') = map Driver.body (Driver.tiles n)
    /\ Driver.alpha sc' = 0.
Proof.
  intros Hn Hlen.
  pose proof (PageFacts.wf_run actions _ (PageFacts.wf_start mk0 seed)) as Hwf.
  set (d := Page.run actions (Page.start mk0 seed)) in *.
  destruct Hwf as (Hfr & sc & Hsc & Ha0 & Ha1 & Hrest) eqn:E. clear E.
  apply (FadeFacts.fade_out_within mk 67 d sc n seeds);
    [exact (conj Hfr (ex_intro _ sc (conj Hsc (conj Ha0 (conj Ha1 Hrest)))))
    | exact Hsc | exact Hn | | lia | exact Hlen].
  change (inject_Z (Z.of_nat 67) * (15 # 1000)) with (1005 # 1000). lra.
Qed.

Lemma page_staged_scene_takes_over_within_67_frames_witness :
  exists k sc',
    (1 <= k <= 67)%nat
    /\ Driver.scene (DriverFacts.frames demoUnits (take k (repeat 0%Z 67))
                                        (Page.run [Page.Click demoUnits 9]
                                                  (Page.start demoUnits 7))) = Some sc'
    /\ Driver.nextScene (DriverFacts.frames demoUnits (take k (repeat 0%Z 67))
                                            (Page.run [Page.Click demoUnits 9]
                                                      (Page.start demoUnits 7))) = None
    /\ map Driver.body (Driver.tiles sc')
       = map Driver.body (Driver.tiles (Driver.buildScene demoUnits 9))
    /\ Driver.alpha sc' = 0.
Proof.
  apply (page_staged_scene_takes_over_within_67_frames unit demoUnits demoUnits 7
           [Page.Click demoUnits 9] (Driver.buildScene demoUnits 9) (repeat 0%Z 67));
    [reflexivity | simpl; lia].
Defined.
